(** * Boulder Dash remake: cave decoder and tick engine

    A shallow embedding of [BoulderDash/index.js]: the seeded linear
    congruential generator, the cave decoder [caveLoad], the grid-to-sprite
    expansion of [setup] and the per-tick [update], followed by the
    properties of the specification that these definitions settle.

    Conventions.  JavaScript numbers that the program manipulates are
    integers far below 2^53 (see [nextRandom_exact_range]), so they are
    modelled by [Z]; the two non-numeric values that the dynamic semantics
    can produce here, [undefined] (a read past the end of an array) and
    [NaN] (arithmetic on [undefined]), are kept explicit in [jsval].
    A thrown exception is a [Thrown] completion that carries the global
    state as it was left by the writes done before the throw. *)

From Stdlib Require Import ZArith Lia String Ascii Sorted.
From stdpp Require Import base numbers list gmap.

Local Open Scope Z_scope.

(** ** JavaScript values *)

Module JS.

Inductive jsval : Type :=
  | JNum (z : Z)
  | JNaN
  | JUndef.

(** [ToNumber]: [undefined] becomes [NaN]. *)
Definition toNumber (v : jsval) : jsval :=
  match v with
  | JUndef => JNaN
  | _ => v
  end.

Definition arith (op : Z -> Z -> Z) (a b : jsval) : jsval :=
  match toNumber a, toNumber b with
  | JNum x, JNum y => JNum (op x y)
  | _, _ => JNaN
  end.

Definition add : jsval -> jsval -> jsval := arith Z.add.
Definition sub : jsval -> jsval -> jsval := arith Z.sub.
Definition mul : jsval -> jsval -> jsval := arith Z.mul.

(** [a % b]: the remainder takes the sign of the dividend; [x % 0] is NaN. *)
Definition rem (a b : jsval) : jsval :=
  match toNumber a, toNumber b with
  | JNum x, JNum y => if y =? 0 then JNaN else JNum (Z.rem x y)
  | _, _ => JNaN
  end.

(** [Math.floor] on the integers, NaN otherwise. *)
Definition floor (a : jsval) : jsval := toNumber a.

(** [a < b]: false as soon as one side is NaN. *)
Definition lt (a b : jsval) : bool :=
  match toNumber a, toNumber b with
  | JNum x, JNum y => x <? y
  | _, _ => false
  end.

(** Loose equality [a == b] on numbers and [undefined]: NaN equals
    nothing, [undefined] equals only itself. *)
Definition eq (a b : jsval) : bool :=
  match a, b with
  | JNum x, JNum y => x =? y
  | JUndef, JUndef => true
  | _, _ => false
  end.

(** [a != b]. *)
Definition neq (a b : jsval) : bool := negb (eq a b).

(** [ToInt32]: NaN and [undefined] become 0, integers wrap to 32 bits. *)
Definition toInt32 (v : jsval) : Z :=
  match v with
  | JNum x => (x + 2 ^ 31) mod 2 ^ 32 - 2 ^ 31
  | _ => 0
  end.

Definition band (a b : jsval) : Z := Z.land (toInt32 a) (toInt32 b).

(** [a >> n] on a 32-bit integer. *)
Definition shr (a : Z) (n : Z) : Z := Z.shiftr a n.

End JS.

Import JS.

(** ** Reading the cave descriptions: [split(" ")] and [parseInt(_, 16)] *)

Module Hex.

Definition digit (c : ascii) : option Z :=
  let n := Z.of_nat (nat_of_ascii c) in
  if (48 <=? n) && (n <=? 57) then Some (n - 48)
  else if (65 <=? n) && (n <=? 70) then Some (n - 55)
  else if (97 <=? n) && (n <=? 102) then Some (n - 87)
  else None.

(** [s.split(" ")]: the pieces between single spaces, empty ones kept. *)
Fixpoint split_go (cur : string) (s : string) : list string :=
  match s with
  | EmptyString => [cur]
  | String c rest =>
      if Ascii.eqb c " "%char then cur :: split_go EmptyString rest
      else split_go (cur ++ String c EmptyString)%string rest
  end.

Definition split (s : string) : list string := split_go EmptyString s.

(** The digits of the longest hexadecimal prefix, most significant first. *)
Fixpoint digits (acc : option Z) (s : string) : option Z :=
  match s with
  | EmptyString => acc
  | String c rest =>
      match digit c with
      | Some d => digits (Some (16 * default 0 acc + d)) rest
      | None => acc
      end
  end.

Definition isSpace (c : ascii) : bool :=
  let n := Z.of_nat (nat_of_ascii c) in
  ((9 <=? n) && (n <=? 13)) || (n =? 32).

Fixpoint trimStart (s : string) : string :=
  match s with
  | String c rest => if isSpace c then trimStart rest else s
  | EmptyString => s
  end.

(** An optional sign, returned as the factor it stands for. *)
Definition takeSign (s : string) : Z * string :=
  match s with
  | String "-" rest => (-1, rest)
  | String "+" rest => (1, rest)
  | _ => (1, s)
  end.

(** An optional prefix [0x] or [0X]. *)
Definition dropPrefix (s : string) : string :=
  match s with
  | String "0" (String "x" rest) => rest
  | String "0" (String "X" rest) => rest
  | _ => s
  end.

(** [parseInt(s, 16)]: leading (ASCII) white space, sign and [0x] are
    skipped; the value is that of the hexadecimal digits that follow, up to
    the first other character; NaN when there is no digit. *)
Definition parseInt16 (s : string) : jsval :=
  let '(sign, s) := takeSign (trimStart s) in
  match digits None (dropPrefix s) with
  | Some n => JNum (sign * n)
  | None => JNaN
  end.

Definition parse (s : string) : list jsval := map parseInt16 (split s).

End Hex.

(** ** Global constants *)

Definition cols : Z := 40.
Definition rows : Z := 22.

Record type := mkType { tname : string; tgid : Z; tcode : Z }.

Definition types : list type :=
  [ mkType "space" 0 0x00;
    mkType "dirt" 58 0x01;
    mkType "brick" 52 0x02;
    mkType "magic" 52 0x03;
    mkType "outbox" 50 0x04;
    mkType "steel" 50 0x07;
    mkType "firefly" 89 0x08;
    mkType "boulder" 57 0x10;
    mkType "diamond" 81 0x14;
    mkType "inbox" 50 0x25;
    mkType "butterfly" 73 0x30;
    mkType "rockford" 1 0x38;
    mkType "amoeba" 65 0x3A ].

(** [types.find(t => t.name === n)]. *)
Definition typeNamed (n : string) : option type :=
  List.find (fun t => String.eqb (tname t) n) types.

(** [types.find(t => t.name === n).code]; the names used by the program
    are all in the table. *)
Definition codeOf (n : string) : jsval :=
  match typeNamed n with
  | Some t => JNum (tcode t)
  | None => JUndef
  end.

(** ** Sprites *)

Record sprite := mkSprite {
  name : string;
  col : Z;
  row : Z;
  direction : Z;
  gid : Z;
  animated : bool;
  rounded : bool;
  fallable : bool;
  explodable : bool;
  consumable : bool;
  animId : Z;
  animIdMax : Z;
  animCycle : Z;
  isFalling : bool
}.

(** ** The global state of the page *)

(** One row of the grid is a JavaScript array: a store from keys to values
    that accepts a write at any integer key. *)
Abbreviation caveRow := (gmap Z jsval).

Inductive logEvent : Type :=
  | LogUnknownObject (code : jsval)
  | LogRockfordAppears (c r : Z)
  | LogExplode (c r : Z).

Record world := mkWorld {
  cave : list caveRow;
  currentSeed : jsval;
  sprites : list sprite;
  joypad : Z;
  console : list logEvent;
  running : bool
}.

Definition setCave (w : world) (g : list caveRow) : world :=
  mkWorld g (currentSeed w) (sprites w) (joypad w) (console w) (running w).
Definition setCurrentSeed (w : world) (s : jsval) : world :=
  mkWorld (cave w) s (sprites w) (joypad w) (console w) (running w).
Definition setSprites (w : world) (ss : list sprite) : world :=
  mkWorld (cave w) (currentSeed w) ss (joypad w) (console w) (running w).
Definition setJoypad (w : world) (j : Z) : world :=
  mkWorld (cave w) (currentSeed w) (sprites w) j (console w) (running w).
Definition logTo (w : world) (e : logEvent) : world :=
  mkWorld (cave w) (currentSeed w) (sprites w) (joypad w) (console w ++ [e])
    (running w).
Definition setRunning (w : world) (b : bool) : world :=
  mkWorld (cave w) (currentSeed w) (sprites w) (joypad w) (console w) b.

(** [new Array(rows).fill(null).map(() => new Array(cols).fill(0))]. *)
Definition newRow : caveRow :=
  fold_left (fun m c => <[Z.of_nat c := JNum 0]> m) (seq 0 (Z.to_nat cols)) ∅.
Definition newCave : list caveRow := replicate (Z.to_nat rows) newRow.

Definition initialWorld : world := mkWorld newCave (JNum 0) [] 0 [] false.

(** Completion of a statement: normal, or a [TypeError] thrown with the
    globals as they stand at the throw. *)
Inductive completion : Type :=
  | Normal (w : world)
  | Thrown (w : world).

Definition bind (c : completion) (k : world -> completion) : completion :=
  match c with
  | Normal w => k w
  | Thrown w => Thrown w
  end.

(** [for (let i = 0; i < n; i++) body(i)] for a number [n] known at entry. *)
Definition forLoop (n : nat) (body : Z -> world -> completion) (w : world)
  : completion :=
  fold_left (fun c i => bind c (body (Z.of_nat i))) (seq 0 n) (Normal w).

(** Trip count of [for (i = 0; i < n; i++)] for a bound read from the byte
    stream: no iteration when the bound is [undefined] or NaN. *)
Definition tripCount (n : jsval) : nat :=
  match toNumber n with
  | JNum z => Z.to_nat z
  | _ => 0%nat
  end.

(** ** Grid access *)

(** [cave[r][c]] for a row that exists. *)
Definition cell (g : list caveRow) (r c : Z) : jsval :=
  if r <? 0 then JUndef
  else match g !! Z.to_nat r with
       | Some m => default JUndef (m !! c)
       | None => JUndef
       end.

(** [cave[r][c] = v].  [cave[r]] is [undefined] unless [r] is the index of
    one of the rows, and assigning a property of [undefined] throws.  A key
    that is not a number names a property that no read of the grid uses. *)
Definition caveSet (r c v : jsval) (w : world) : completion :=
  match r with
  | JNum r' =>
      if (0 <=? r') && (r' <? Z.of_nat (length (cave w))) then
        match c with
        | JNum c' =>
            Normal (setCave w (alter (fun m => <[c' := v]> m) (Z.to_nat r') (cave w)))
        | _ => Normal w
        end
      else Thrown w
  | _ => Thrown w
  end.

(** ** Random numbers with a seed *)

Definition LCG_MULTIPLIER : Z := 1664525.
Definition LCG_INCREMENT : Z := 1013904223.
Definition LCG_MODULUS : Z := 2 ^ 32.

Definition setSeed (seed : jsval) (w : world) : world :=
  setCurrentSeed w (JS.rem (JS.floor seed) (JNum LCG_MODULUS)).

(** The state transition of [nextRandom] on the value of [currentSeed]. *)
Definition lcg (s : jsval) : jsval :=
  JS.rem (JS.add (JS.mul (JNum LCG_MULTIPLIER) s) (JNum LCG_INCREMENT))
         (JNum LCG_MODULUS).

Definition nextRandom (w : world) : jsval * world :=
  let w' := setCurrentSeed w (lcg (currentSeed w)) in
  (currentSeed w', w').

Definition randInt255 (w : world) : jsval * world :=
  let '(rand32Bit, w') := nextRandom w in
  (JS.rem rand32Bit (JNum 256), w').

(** ** Cave loading and decoding *)

Definition rawCaveDatas : list string := [
    "01 14 0A 0F 0A 0B 0C 0D 0E 0C 0C 0C 0C 0C 96 6E 46 28 1E 08 0B 09 D4 20 00 10 14 00 3C 32 09 00 42 01 09 1E 02 42 09 10 1E 02 25 03 04 04 26 12 FF";
    "02 14 14 32 03 00 01 57 58 0A 0C 09 0D 0A 96 6E 46 46 46 0A 04 09 00 00 00 10 14 08 3C 32 09 02 42 01 08 26 02 42 01 0F 26 02 42 08 03 14 04 42 10 03 14 04 42 18 03 14 04 42 20 03 14 04 40 01 05 26 02 40 01 0B 26 02 40 01 12 26 02 40 14 03 14 04 25 12 15 04 12 16 FF";
    "03 00 0F 00 00 32 36 34 37 18 17 18 17 15 96 64 5A 50 46 09 08 09 04 00 02 10 14 00 64 32 09 00 25 03 04 04 27 14 FF";
    "04 14 05 14 00 6E 70 73 77 24 24 24 24 24 78 64 50 3C 32 04 08 09 00 00 10 00 00 00 14 00 00 00 25 01 03 04 26 16 81 08 0A 04 04 00 30 0A 0B 81 10 0A 04 04 00 30 12 0B 81 18 0A 04 04 00 30 1A 0B 81 20 0A 04 04 00 30 22 0B FF";
    "05 14 32 5A 00 00 00 00 00 04 05 06 07 08 96 78 5A 3C 1E 09 0A 09 00 00 00 00 00 00 00 00 00 00 25 01 03 04 27 16 80 08 0A 03 03 00 80 10 0A 03 03 00 80 18 0A 03 03 00 80 20 0A 03 03 00 14 09 0C 08 0A 0A 14 11 0C 08 12 0A 14 19 0C 08 1A 0A 14 21 0C 08 22 0A 80 08 10 03 03 00 80 10 10 03 03 00 80 18 10 03 03 00 80 20 10 03 03 00 14 09 12 08 0A 10 14 11 12 08 12 10 14 19 12 08 1A 10 14 21 12 08 22 10 FF";
    "06 14 28 3C 00 14 15 16 17 04 06 07 08 08 96 78 64 5A 50 0E 0A 09 00 00 10 00 00 00 32 00 00 00 82 01 03 0A 04 00 82 01 06 0A 04 00 82 01 09 0A 04 00 82 01 0C 0A 04 00 41 0A 03 0D 04 14 03 05 08 04 05 14 03 08 08 04 08 14 03 0B 08 04 0B 14 03 0E 08 04 0E 82 1D 03 0A 04 00 82 1D 06 0A 04 00 82 1D 09 0A 04 00 82 1D 0C 0A 04 00 41 1D 03 0D 04 14 24 05 08 23 05 14 24 08 08 23 08 14 24 0B 08 23 0B 14 24 0E 08 23 0E 25 03 14 04 26 14 FF";
    "07 4B 0A 14 02 07 08 0A 09 0F 14 19 19 19 78 78 78 78 78 09 0A 0D 00 00 00 10 08 00 64 28 02 00 42 01 07 0C 02 42 1C 05 0B 02 7A 13 15 02 02 14 04 06 14 04 0E 14 04 16 14 22 04 14 22 0C 14 22 16 25 14 03 04 27 07 FF";
    "08 14 0A 14 01 03 04 05 06 0A 0F 14 14 14 78 6E 64 5A 50 02 0E 09 00 00 00 10 08 00 5A 32 02 00 14 04 06 14 22 04 14 22 0C 04 00 05 25 14 03 42 01 07 0C 02 42 01 0F 0C 02 42 1C 05 0B 02 42 1C 0D 0B 02 43 0E 11 08 02 14 0C 10 00 0E 12 14 13 12 41 0E 0F 08 02 FF";
    "09 14 05 0A 64 89 8C FB 33 4B 4B 50 55 5A 96 96 82 82 78 08 04 09 00 00 10 14 00 00 F0 78 00 00 82 05 0A 0D 0D 00 01 0C 0A 82 19 0A 0D 0D 00 01 1F 0A 42 11 12 09 02 40 11 13 09 02 25 07 0C 04 08 0C FF";
    "0A 14 19 3C 00 00 00 00 00 0C 0C 0C 0C 0C 96 82 78 6E 64 06 08 09 00 00 00 00 00 00 00 00 00 00 25 0D 03 04 27 16 54 05 04 11 03 54 15 04 11 05 80 05 0B 11 03 08 C2 01 04 15 11 00 0D 04 C2 07 06 0D 0D 00 0D 06 C2 09 08 09 09 00 0D 08 C2 0B 0A 05 05 00 0D 0A 82 03 06 03 0F 08 00 04 06 54 04 10 04 04 FF";
    "0B 14 32 00 00 04 66 97 64 06 06 06 06 06 78 78 96 96 F0 0B 08 09 00 00 00 10 08 00 64 50 02 00 42 0A 03 09 04 42 14 03 09 04 42 1E 03 09 04 42 09 16 09 00 42 0C 0F 11 02 42 05 0B 09 02 42 0F 0B 09 02 42 19 0B 09 02 42 1C 13 0B 01 14 04 03 14 0E 03 14 18 03 14 22 03 14 04 16 14 23 15 25 14 14 04 26 11 FF";
    "0C 14 14 00 00 3C 02 3B 66 13 13 0E 10 15 B4 AA A0 A0 A0 0C 0A 09 00 00 00 10 14 00 3C 32 09 00 42 0A 05 12 04 42 0E 05 12 04 42 12 05 12 04 42 16 05 12 04 42 02 06 0B 02 42 02 0A 0B 02 42 02 0E 0F 02 42 02 12 0B 02 81 1E 04 04 04 00 08 20 05 81 1E 09 04 04 00 08 20 0A 81 1E 0E 04 04 00 08 20 0F 25 03 14 04 27 16 FF";
    "0D 8C 05 08 00 01 02 03 04 32 37 3C 46 50 A0 9B 96 91 8C 06 08 0D 00 00 10 00 00 00 28 00 00 00 25 12 03 04 0A 03 3A 14 03 42 05 12 1E 02 70 05 13 1E 02 50 05 14 1E 02 C1 05 15 1E 02 FF";
    "0E 14 0A 14 00 00 00 00 00 1E 23 28 2A 2D 96 91 8C 87 82 0C 08 09 00 00 10 00 00 00 00 00 00 00 81 0A 0A 0D 0D 00 70 0B 0B 0C 03 C1 0C 0A 03 0D C1 10 0A 03 0D C1 14 0A 03 0D 50 16 08 0C 02 48 16 07 0C 02 C1 17 06 03 04 C1 1B 06 03 04 C1 1F 06 03 04 25 03 03 04 27 14 FF";
    "0F 08 0A 14 01 1D 1E 1F 20 0F 14 14 19 1E 78 78 78 78 8C 08 0E 09 00 00 00 10 08 00 64 50 02 00 42 02 04 0A 03 42 0F 0D 0A 01 41 0C 0E 03 02 43 0C 0F 03 02 04 14 16 25 14 03 FF";
    "10 14 0A 14 01 78 81 7E 7B 0C 0F 0F 0F 0C 96 96 96 96 96 09 0A 09 00 00 10 00 00 00 32 00 00 00 25 01 03 04 27 04 81 08 13 04 04 00 08 0A 14 C2 07 0A 06 08 43 07 0A 06 02 81 10 13 04 04 00 08 12 14 C2 0F 0A 06 08 43 0F 0A 06 02 81 18 13 04 04 00 08 1A 14 81 20 13 04 04 00 08 22 14 FF";
    "11 14 1E 00 0A 0B 0C 0D 0E 06 06 06 06 06 0A 0A 0A 0A 0A 0E 02 09 00 00 00 14 00 00 FF 09 00 00 87 00 02 28 16 07 87 00 02 14 0C 00 32 0A 0C 10 0A 04 01 0A 05 25 03 05 04 12 0C FF";
    "12 14 0A 00 0A 0B 0C 0D 0E 10 10 10 10 10 0F 0F 0F 0F 0F 06 0F 09 00 00 00 00 00 00 00 00 00 00 87 00 02 28 16 07 87 00 02 14 0C 01 50 01 03 09 03 48 02 03 08 03 54 01 05 08 03 50 01 06 07 03 50 12 03 09 05 54 12 05 08 05 50 12 06 07 05 25 01 04 04 12 04 FF";
    "13 04 0A 00 0A 0B 0C 0D 0E 0E 0E 0E 0E 0E 14 14 14 14 14 06 08 09 00 00 00 00 00 00 00 00 00 00 87 00 02 28 16 07 87 00 02 14 0C 00 54 01 0C 12 02 88 0F 09 04 04 08 25 08 03 04 12 07 FF";
    "14 03 1E 00 00 00 00 00 00 06 06 06 06 06 14 14 14 14 14 06 08 09 00 00 00 00 00 00 00 00 00 00 87 00 02 28 16 07 87 00 02 14 0C 01 D0 0B 03 03 02 80 0B 07 03 06 00 43 0B 06 03 02 43 0B 0A 03 02 50 08 07 03 03 25 03 03 04 09 0A FF"
  ]%string.

(** [hex[i]]: [undefined] outside the array. *)
Definition hexAt (hex : list jsval) (i : Z) : jsval :=
  if i <? 0 then JUndef else default JUndef (hex !! Z.to_nat i).

(** The body of the random-fill loops for one cell, written as the source
    writes it: steel on the border; elsewhere dirt, one draw, and the
    nested tests, each of which overwrites the cell. *)
Definition fillCell (hex : list jsval) (row col : Z) (w : world) : completion :=
  if (row =? 0) || (row =? rows - 1) || (col =? 0) || (col =? cols - 1) then
    caveSet (JNum row) (JNum col) (codeOf "steel") w
  else
    bind (caveSet (JNum row) (JNum col) (codeOf "dirt") w) (fun w =>
    let '(rand, w) := randInt255 w in
    let t1 := hexAt hex 0x1C in
    let t2 := hexAt hex 0x1D in
    let t3 := hexAt hex 0x1E in
    let t4 := hexAt hex 0x1F in
    if JS.lt rand (JS.add (JS.add (JS.add t1 t2) t3) t4) then
      bind (caveSet (JNum row) (JNum col) (hexAt hex 0x1B) w) (fun w =>
      if JS.lt rand (JS.add (JS.add t1 t2) t3) then
        bind (caveSet (JNum row) (JNum col) (hexAt hex 0x1A) w) (fun w =>
        if JS.lt rand (JS.add t1 t2) then
          bind (caveSet (JNum row) (JNum col) (hexAt hex 0x19) w) (fun w =>
          if JS.lt rand t1 then
            caveSet (JNum row) (JNum col) (hexAt hex 0x18) w
          else Normal w)
        else Normal w)
      else Normal w)
    else Normal w).

Definition caveFill (hex : list jsval) (w : world) : completion :=
  forLoop (Z.to_nat rows) (fun row =>
    forLoop (Z.to_nat cols) (fun col => fillCell hex row col)) w.

(** [getDXDYFromDirection]: a [switch] on strict equality with 1..8. *)
Definition getDXDYFromDirection (direction : jsval) : Z * Z :=
  match direction with
  | JNum 1 => (0, -1)
  | JNum 2 => (1, -1)
  | JNum 3 => (1, 0)
  | JNum 4 => (1, 1)
  | JNum 5 => (0, 1)
  | JNum 6 => (-1, 1)
  | JNum 7 => (-1, 0)
  | JNum 8 => (-1, -1)
  | _ => (0, 0)
  end.

(** The loop of the line instruction. *)
Definition drawLine (code : Z) (col row len : jsval) (d : Z * Z) (w : world)
  : completion :=
  forLoop (tripCount len) (fun i =>
    caveSet (JS.add row (JNum (snd d * i))) (JS.add col (JNum (fst d * i)))
            (JNum code)) w.

(** The loops of the filled rectangle: the outline gets [code], the
    inside gets [fil]. *)
Definition drawFilledRect (code : Z) (col row len hei fil : jsval) (w : world)
  : completion :=
  forLoop (tripCount hei) (fun y =>
    forLoop (tripCount len) (fun x =>
      if JS.eq (JNum y) (JNum 0) || JS.eq (JNum y) (JS.sub hei (JNum 1))
         || JS.eq (JNum x) (JNum 0) || JS.eq (JNum x) (JS.sub len (JNum 1))
      then caveSet (JS.add row (JNum y)) (JS.add col (JNum x)) (JNum code)
      else caveSet (JS.add row (JNum y)) (JS.add col (JNum x)) fil)) w.

(** The loops of the plain rectangle. *)
Definition drawRect (code : Z) (col row len hei : jsval) (w : world)
  : completion :=
  forLoop (tripCount hei) (fun y =>
    forLoop (tripCount len) (fun x =>
      caveSet (JS.add row (JNum y)) (JS.add col (JNum x)) (JNum code))) w.

(** One turn of the [while] loop of the instruction pass: the completion
    of the body and the value of [index] after it. *)
Definition caveInstr (hex : list jsval) (index : Z) (w : world)
  : completion * Z :=
  let code := JS.band (hexAt hex index) (JNum 63) in
  let id := JS.shr (JS.band (hexAt hex index) (JNum 192)) 6 in
  let col := hexAt hex (index + 1) in
  let row := JS.sub (hexAt hex (index + 2)) (JNum 2) in
  match id with
  | 0 => (caveSet row col (JNum code) w, index + 3)
  | 1 =>
      let len := hexAt hex (index + 3) in
      let displacement :=
        getDXDYFromDirection (JS.add (hexAt hex (index + 4)) (JNum 1)) in
      (drawLine code col row len displacement w, index + 5)
  | 2 =>
      let len := hexAt hex (index + 3) in
      let hei := hexAt hex (index + 4) in
      let fil := hexAt hex (index + 5) in
      (drawFilledRect code col row len hei fil w, index + 6)
  | 3 =>
      let len := hexAt hex (index + 3) in
      let hei := hexAt hex (index + 4) in
      (drawRect code col row len hei w, index + 5)
  | _ => (Normal w, index)
  end.

(** [while (hex[index] != 0xFF) { ... }], bounded by [fuel] turns; [None]
    when the turns run out. *)
Fixpoint caveInstrs (fuel : nat) (hex : list jsval) (index : Z) (w : world)
  : option completion :=
  match fuel with
  | O => None
  | S fuel' =>
      if JS.neq (hexAt hex index) (JNum 0xFF) then
        match caveInstr hex index w with
        | (Normal w', index') => caveInstrs fuel' hex index' w'
        | (Thrown w', _) => Some (Thrown w')
        end
      else Some (Normal w)
  end.

(** The body of [caveLoad] once [hex] is known: seed, random fill,
    instructions.  The instruction loop gets one turn more than the stream
    has bytes, which [caveInstrs_total] shows is enough. *)
Definition caveDecode (hex : list jsval) (difficultyId : Z) (w : world)
  : option completion :=
  let w := setSeed (hexAt hex (0x04 + difficultyId - 1)) w in
  match caveFill hex w with
  | Thrown w' => Some (Thrown w')
  | Normal w' => caveInstrs (S (length hex)) hex 0x20 w'
  end.

(** [caveLoad(caveId, difficultyId)] over a table of cave descriptions.
    [table[caveId - 1]] is [undefined] outside the table and calling
    [split] on it throws. *)
Definition caveLoadFrom (table : list string) (caveId difficultyId : Z)
  (w : world) : option completion :=
  if caveId - 1 <? 0 then Some (Thrown w)
  else
    match table !! Z.to_nat (caveId - 1) with
    | None => Some (Thrown w)
    | Some raw => caveDecode (Hex.parse raw) difficultyId w
    end.

Definition caveLoad : Z -> Z -> world -> option completion :=
  caveLoadFrom rawCaveDatas.

(** ** Sprite functions *)

Definition set_col (s : sprite) (v : Z) : sprite :=
  mkSprite (name s) v (row s) (direction s) (gid s) (animated s) (rounded s)
    (fallable s) (explodable s) (consumable s) (animId s) (animIdMax s)
    (animCycle s) (isFalling s).
Definition set_row (s : sprite) (v : Z) : sprite :=
  mkSprite (name s) (col s) v (direction s) (gid s) (animated s) (rounded s)
    (fallable s) (explodable s) (consumable s) (animId s) (animIdMax s)
    (animCycle s) (isFalling s).
Definition set_animated (s : sprite) (v : bool) : sprite :=
  mkSprite (name s) (col s) (row s) (direction s) (gid s) v (rounded s)
    (fallable s) (explodable s) (consumable s) (animId s) (animIdMax s)
    (animCycle s) (isFalling s).
Definition set_rounded (s : sprite) (v : bool) : sprite :=
  mkSprite (name s) (col s) (row s) (direction s) (gid s) (animated s) v
    (fallable s) (explodable s) (consumable s) (animId s) (animIdMax s)
    (animCycle s) (isFalling s).
Definition set_fallable (s : sprite) (v : bool) : sprite :=
  mkSprite (name s) (col s) (row s) (direction s) (gid s) (animated s)
    (rounded s) v (explodable s) (consumable s) (animId s) (animIdMax s)
    (animCycle s) (isFalling s).
Definition set_explodable (s : sprite) (v : bool) : sprite :=
  mkSprite (name s) (col s) (row s) (direction s) (gid s) (animated s)
    (rounded s) (fallable s) v (consumable s) (animId s) (animIdMax s)
    (animCycle s) (isFalling s).
Definition set_consumable (s : sprite) (v : bool) : sprite :=
  mkSprite (name s) (col s) (row s) (direction s) (gid s) (animated s)
    (rounded s) (fallable s) (explodable s) v (animId s) (animIdMax s)
    (animCycle s) (isFalling s).
Definition set_animId (s : sprite) (v : Z) : sprite :=
  mkSprite (name s) (col s) (row s) (direction s) (gid s) (animated s)
    (rounded s) (fallable s) (explodable s) (consumable s) v (animIdMax s)
    (animCycle s) (isFalling s).
Definition set_animIdMax (s : sprite) (v : Z) : sprite :=
  mkSprite (name s) (col s) (row s) (direction s) (gid s) (animated s)
    (rounded s) (fallable s) (explodable s) (consumable s) (animId s) v
    (animCycle s) (isFalling s).
Definition set_animCycle (s : sprite) (v : Z) : sprite :=
  mkSprite (name s) (col s) (row s) (direction s) (gid s) (animated s)
    (rounded s) (fallable s) (explodable s) (consumable s) (animId s)
    (animIdMax s) v (isFalling s).
Definition set_isFalling (s : sprite) (v : bool) : sprite :=
  mkSprite (name s) (col s) (row s) (direction s) (gid s) (animated s)
    (rounded s) (fallable s) (explodable s) (consumable s) (animId s)
    (animIdMax s) (animCycle s) v.

(** [n == a || n == b || ...] on type names. *)
Definition oneOf (n : string) (l : list string) : bool :=
  existsb (String.eqb n) l.

(** The sprite that [appendSprites] builds before pushing it. *)
Definition newSprite (c r : Z) (t : type) : sprite :=
  let n := tname t in
  let sprite :=
    mkSprite n c r 0 (tgid t) false false false false false 0 0 0 false in
  let sprite :=
    if oneOf n ["diamond"; "firefly"; "butterfly"; "amoeba"]%string then
      set_animIdMax (set_animId (set_animated sprite true) 0) 8
    else sprite in
  let sprite :=
    if oneOf n ["boulder"; "diamond"]%string then set_fallable sprite true
    else sprite in
  let sprite :=
    if oneOf n ["brick"; "boulder"; "diamond"]%string then set_rounded sprite true
    else sprite in
  let sprite :=
    if oneOf n ["firefly"; "butterfly"]%string then set_explodable sprite true
    else sprite in
  let sprite :=
    if oneOf n ["dirt"; "brick"; "magic"; "firefly"; "boulder"; "diamond";
                "butterfly"; "rockford"; "amoeba"]%string
    then set_consumable sprite true
    else sprite in
  let sprite :=
    if String.eqb n "inbox" then
      set_animCycle (set_animIdMax (set_animId (set_animated sprite true) 0) 2) 5
    else sprite in
  sprite.

Definition appendSprites (c r : Z) (t : type) (w : world) : world :=
  setSprites w (sprites w ++ [newSprite c r t]).

(** The comparator of [orderSprites]: row first, then column. *)
Definition compareSprites (a b : sprite) : Z :=
  if negb (row a =? row b) then row a - row b else col a - col b.

(** [sprites.sort(compareSprites)]: the sort is stable, an element goes in
    front of the first one that it does not follow. *)
Fixpoint insertSprite (a : sprite) (l : list sprite) : list sprite :=
  match l with
  | [] => [a]
  | b :: l' =>
      if compareSprites a b <=? 0 then a :: b :: l' else b :: insertSprite a l'
  end.

Definition sortSprites (l : list sprite) : list sprite :=
  fold_right insertSprite [] l.

Definition orderSprites (w : world) : world :=
  setSprites w (sortSprites (sprites w)).

(** [sprites.find(p)], with the position of the object found: the
    position stands for the reference that the program holds on to. *)
Definition getSpriteAt (c r : Z) (ss : list sprite) : option (nat * sprite) :=
  list_find (fun s => col s = c /\ row s = r) ss.

(** [getSpriteCoord]: the column and row of a sprite. *)
Definition getSpriteCoord (s : sprite) : Z * Z := (col s, row s).

Definition findNamed (n : string) (ss : list sprite) : option (nat * sprite) :=
  list_find (fun s => name s = n) ss.

(** ** Setup: grid-to-sprite expansion *)

(** [for (let i = 0; i < n; i++) body(i)] for a body that cannot throw. *)
Definition forEachIndex (n : nat) (body : Z -> world -> world) (w : world)
  : world :=
  fold_left (fun w i => body (Z.of_nat i) w) (seq 0 n) w.

Definition expandCell (r c : Z) (w : world) : world :=
  let code := cell (cave w) r c in
  if JS.eq code (JNum 0x00) then w
  else
    match List.find (fun t => JS.eq (JNum (tcode t)) code) types with
    | None => logTo w (LogUnknownObject code)
    | Some t => appendSprites c r t w
    end.

Definition expandCave (w : world) : world :=
  forEachIndex (Z.to_nat rows) (fun r =>
    forEachIndex (Z.to_nat cols) (fun c => expandCell r c)) (setSprites w []).

(** [setup()] after the images are loaded, for the cave table and the values
    of the globals [caveId] and [difficultyId]. *)
Definition setupFrom (table : list string) (caveId difficultyId : Z) (w : world)
  : option completion :=
  match caveLoadFrom table caveId difficultyId w with
  | Some (Normal w') => Some (Normal (expandCave w'))
  | other => other
  end.

Definition setup : Z -> Z -> world -> option completion :=
  setupFrom rawCaveDatas.

(** The page's entry point: [await setup(); start();].  A throw in
    [setup] rejects the promise and [start] is not reached; [start] only
    schedules the frame loop, which the flag [running] records. *)
Definition bootFrom (table : list string) (caveId difficultyId : Z) (w : world)
  : option world :=
  match setupFrom table caveId difficultyId w with
  | Some (Normal w') => Some (setRunning w' true)
  | Some (Thrown w') => Some w'
  | None => None
  end.

(** ** Keyboard state *)

Definition JOYPAD_UP : Z := 1.
Definition JOYPAD_RIGHT : Z := 2.
Definition JOYPAD_DOWN : Z := 4.
Definition JOYPAD_LEFT : Z := 8.

Definition isJoypadPressed (mask : Z) (w : world) : bool :=
  negb (Z.land (joypad w) mask =? 0).

Definition getDirectionFromJoypad (w : world) : Z :=
  if isJoypadPressed JOYPAD_UP w then 1
  else if isJoypadPressed JOYPAD_RIGHT w then 3
  else if isJoypadPressed JOYPAD_DOWN w then 5
  else if isJoypadPressed JOYPAD_LEFT w then 7
  else 0.

(** ** The tick *)

Definition moveBy (dx dy : Z) (s : sprite) : sprite :=
  set_row (set_col s (col s + dx)) (row s + dy).

(** First part of [update]: player input, or the entry portal turning into
    the player.  Reading [rockford.col] throws when no sprite is named
    rockford. *)
Definition updatePlayer (w : world) : completion :=
  match findNamed "inbox" (sprites w) with
  | None =>
      let direction := getDirectionFromJoypad w in
      if negb (direction =? 0) then
        match findNamed "rockford" (sprites w) with
        | None => Thrown w
        | Some (k, rockford) =>
            let '(dx, dy) := getDXDYFromDirection (JNum direction) in
            match getSpriteAt (col rockford + dx) (row rockford + dy) (sprites w) with
            | None => Normal (setSprites w (alter (moveBy dx dy) k (sprites w)))
            | Some (t, target) =>
                if String.eqb (name target) "dirt"
                   || String.eqb (name target) "diamond"
                then Normal (setSprites w
                               (delete t (alter (moveBy dx dy) k (sprites w))))
                else Normal w
            end
        end
      else Normal w
  | Some (i, inbox) =>
      if animCycle inbox =? 0 then
        match typeNamed "rockford" with
        | None => Thrown w
        | Some rockfordType =>
            let w := appendSprites (col inbox) (row inbox) rockfordType w in
            let w := logTo w (LogRockfordAppears (col inbox) (row inbox)) in
            Normal (setSprites w (delete i (sprites w)))
        end
      else Normal w
  end.

(** The callback of the falling pass for the sprite at position [i] of
    the sorted array. *)
Definition fallSprite (i : nat) (w : world) : world :=
  match sprites w !! i with
  | None => w
  | Some sprite =>
      let coord := getSpriteCoord sprite in
      let c := fst coord in
      let r := snd coord in
      match getSpriteAt c (r + 1) (sprites w) with
      | None =>
          setSprites w
            (alter (fun s => set_row (set_isFalling s true) (row s + 1)) i
                   (sprites w))
      | Some (_, below) =>
          if rounded below then
            match getSpriteAt (c - 1) r (sprites w),
                  getSpriteAt (c - 1) (r + 1) (sprites w) with
            | None, None =>
                setSprites w (alter (fun s => set_col s (col s - 1)) i (sprites w))
            | _, _ =>
                match getSpriteAt (c + 1) r (sprites w),
                      getSpriteAt (c + 1) (r + 1) (sprites w) with
                | None, None =>
                    setSprites w
                      (alter (fun s => set_col s (col s + 1)) i (sprites w))
                | _, _ =>
                    setSprites w
                      (alter (fun s => set_isFalling s false) i (sprites w))
                end
            end
          else if explodable sprite then logTo w (LogExplode c r)
          else
            setSprites w (alter (fun s => set_isFalling s false) i (sprites w))
      end
  end.

(** [sprites.filter(s => s.fallable == true)]: the objects selected before
    the pass starts, as positions in the array. *)
Definition fallables (ss : list sprite) : list nat :=
  List.filter (fun i => match ss !! i with
                        | Some s => fallable s
                        | None => false
                        end) (seq 0 (length ss)).

Definition updateFalling (w : world) : world :=
  fold_left (fun w i => fallSprite i w) (fallables (sprites w)) w.

Definition animateSprite (s : sprite) : sprite :=
  if animated s then
    let s := set_animId s (animId s + 1) in
    if animIdMax s <=? animId s then
      let s := set_animId s 0 in
      if 0 <? animCycle s then
        let s := set_animCycle s (animCycle s - 1) in
        if animCycle s =? 0 then set_animated s false else s
      else s
    else s
  else s.

Definition updateAnimated (w : world) : world :=
  setSprites w (map animateSprite (sprites w)).

Definition update (w : world) : completion :=
  bind (updatePlayer w) (fun w =>
    Normal (updateAnimated (updateFalling (orderSprites w)))).


(** ** Keyboard handlers *)

Definition JOYPAD_A : Z := 16.
Definition JOYPAD_B : Z := 32.
Definition JOYPAD_START : Z := 64.
Definition JOYPAD_SELECT : Z := 128.

(** The button that the [switch] on [event.code] selects, if any. *)
Definition keyMask (code : string) : option Z :=
  if String.eqb code "ArrowRight" then Some JOYPAD_RIGHT
  else if String.eqb code "ArrowLeft" then Some JOYPAD_LEFT
  else if String.eqb code "ArrowUp" then Some JOYPAD_UP
  else if String.eqb code "ArrowDown" then Some JOYPAD_DOWN
  else if String.eqb code "KeyQ" then Some JOYPAD_A
  else if String.eqb code "KeyS" then Some JOYPAD_B
  else if String.eqb code "Enter" then Some JOYPAD_START
  else if String.eqb code "Space" then Some JOYPAD_SELECT
  else None.

(** [a | b] and [~a] on 32-bit integers. *)
Definition bor (a b : Z) : Z := Z.lor (toInt32 (JNum a)) (toInt32 (JNum b)).
Definition bnot (a : Z) : Z := Z.lnot (toInt32 (JNum a)).

(** [keyDownHandler]: [joypad = joypad | MASK] for a known key. *)
Definition keyDownHandler (code : string) (w : world) : world :=
  match keyMask code with
  | Some mask => setJoypad w (bor (joypad w) mask)
  | None => w
  end.

(** [keyUpHandler]: [joypad = joypad & ~MASK] for a known key. *)
Definition keyUpHandler (code : string) (w : world) : world :=
  match keyMask code with
  | Some mask => setJoypad w (JS.band (JNum (joypad w)) (JNum (bnot mask)))
  | None => w
  end.

(** [resetJoypadPressed]. *)
Definition resetJoypadPressed (w : world) : world := setJoypad w 0.

(** ** Rendering *)

Definition tilewidth : Z := 16.
Definition tileheight : Z := 16.
Definition screenWidth : Z := 40 * 16.
Definition screenHeight : Z := 22 * 16.
Definition caveXOffset : Z := 0.
Definition caveYOffset : Z := 0.
Definition backgroundColor : string := "black".

(** The calls that the program makes on the 2D context of the canvas:
    [fillRect] with the fill style in force, and [drawImage] with the
    position of the image in [images]. *)
Inductive drawCall : Type :=
  | FillRect (style : string) (x y w h : Z)
  | DrawImage (image : nat) (sx sy sw sh dx dy dw dh : Z).

(** [drawTile]: the tileset has eight tiles per row; [Math.floor] of the
    quotient is the floor division, [%] the remainder with the sign of the
    dividend. *)
Definition drawTile (gid x y : Z) : drawCall :=
  let tilerow := (gid - 1) / 8 in
  let tilecol := Z.rem (gid - 1) 8 in
  DrawImage 1 (tilecol * tilewidth) (tilerow * tileheight) tilewidth tileheight
            x y tilewidth tileheight.

(** [render]: the calls made on the context, in order. *)
Definition render (w : world) : list drawCall :=
  FillRect backgroundColor 0 0 screenWidth screenHeight
  :: map (fun s => drawTile (gid s + animId s)
                     (col s * tilewidth - caveXOffset)
                     (row s * tileheight - caveYOffset))
         (sprites w).

(** * Vocabulary of the properties *)

(** ** What a tick may change *)

(** What [update] leaves alone: everything but the sprite array and the
    console. *)
Definition sameGlobals (w w' : world) : Prop :=
  cave w' = cave w /\ currentSeed w' = currentSeed w
  /\ joypad w' = joypad w /\ running w' = running w.

(** ** Small scenes *)

(** Entries of [types]. *)
Definition boulderType : type := mkType "boulder" 57 0x10.
Definition fireflyType : type := mkType "firefly" 89 0x08.
Definition dirtType : type := mkType "dirt" 58 0x01.
Definition rockfordType : type := mkType "rockford" 1 0x38.

(** A boulder on top of another boulder, nothing on either side. *)
Definition pileScene : world :=
  setSprites initialWorld [newSprite 5 5 boulderType; newSprite 5 6 boulderType].

(** A falling boulder right above a firefly, and nothing else. *)
Definition crushScene : world :=
  setSprites initialWorld
    [set_isFalling (newSprite 5 5 boulderType) true; newSprite 5 6 fireflyType].

(** The player at (2,2) with dirt on its right and the right button down. *)
Definition digScene : world :=
  setJoypad
    (setSprites initialWorld
       [newSprite 2 2 rockfordType; newSprite 3 2 dirtType;
        newSprite 2 3 boulderType])
    JOYPAD_RIGHT.

(** ** What the decoder may change *)

(** Everything but the grid is the same in both states. *)
Definition sameButCave (w w' : world) : Prop :=
  currentSeed w' = currentSeed w /\ sprites w' = sprites w
  /\ joypad w' = joypad w /\ console w' = console w /\ running w' = running w.

(** What the decoder leaves alone, and the number of rows of the grid. *)
Definition decoderFrame (w w' : world) : Prop :=
  sprites w' = sprites w /\ joypad w' = joypad w /\ console w' = console w
  /\ running w' = running w /\ length (cave w') = length (cave w).

(** ** Lines *)

(** The direction table of the specification, as (dx, dy) with rows
    growing downwards: 0=up, 1=up-right, 2=right, 3=down-right, 4=down,
    5=down-left, 6=left, 7=up-left. *)
Definition directionTable : list (Z * Z) :=
  [(0, -1); (1, -1); (1, 0); (1, 1); (0, 1); (-1, 1); (-1, 0); (-1, -1)].

(** The cells of a line of [n] steps from (c, r) in direction [d]. *)
Definition lineCell (c r : Z) (d : Z * Z) (i : Z) : Z * Z :=
  (r + snd d * i, c + fst d * i).

(** Whether (r', c') is one of the first [n] cells of that line. *)
Definition onLine (c r : Z) (d : Z * Z) (n : nat) (r' c' : Z) : bool :=
  existsb (fun i => (r' =? fst (lineCell c r d (Z.of_nat i)))
                    && (c' =? snd (lineCell c r d (Z.of_nat i)))) (seq 0 n).

(** ** The instruction stream *)





(** ** The random fill *)

(** The test of the fill loops for a border cell. *)
Definition isBorder (r c : Z) : bool :=
  (r =? 0) || (r =? rows - 1) || (c =? 0) || (c =? cols - 1).

(** The value that the nested tests of [fillCell] leave in the cell for a
    draw [rand]: each test that holds overwrites the value before it. *)
Definition fillCode (hex : list jsval) (rand : jsval) : jsval :=
  let t1 := hexAt hex 0x1C in
  let t2 := hexAt hex 0x1D in
  let t3 := hexAt hex 0x1E in
  let t4 := hexAt hex 0x1F in
  if JS.lt rand (JS.add (JS.add (JS.add t1 t2) t3) t4) then
    if JS.lt rand (JS.add (JS.add t1 t2) t3) then
      if JS.lt rand (JS.add t1 t2) then
        if JS.lt rand t1 then hexAt hex 0x18 else hexAt hex 0x19
      else hexAt hex 0x1A
    else hexAt hex 0x1B
  else codeOf "dirt".

(** Reading of the specification: the code of the first cumulative
    threshold that the draw is under, plain dirt when it is under none. *)
Definition fillSpec (hex : list jsval) (v : jsval) : jsval :=
  let T1 := hexAt hex 0x1C in
  let T2 := hexAt hex 0x1D in
  let T3 := hexAt hex 0x1E in
  let T4 := hexAt hex 0x1F in
  if JS.lt v T1 then hexAt hex 0x18
  else if JS.lt v (JS.add T1 T2) then hexAt hex 0x19
  else if JS.lt v (JS.add (JS.add T1 T2) T3) then hexAt hex 0x1A
  else if JS.lt v (JS.add (JS.add (JS.add T1 T2) T3) T4) then hexAt hex 0x1B
  else JNum 0x01.

(** A number between 0 and 255. *)
Definition isByte (v : jsval) : bool :=
  match v with
  | JNum b => (0 <=? b) && (b <=? 255)
  | _ => false
  end.

(** The header holds bytes at the offsets of the four fill codes and the
    four thresholds. *)
Definition headerOk (hex : list jsval) : bool :=
  forallb (fun i => isByte (hexAt hex i))
          [0x18; 0x19; 0x1A; 0x1B; 0x1C; 0x1D; 0x1E; 0x1F].

(** Number of the draw that decides the interior cell (r, c), counting
    from 1 in row-major order over the interior. *)
Definition drawIndex (r c : Z) : nat := Z.to_nat ((r - 1) * (cols - 2) + c).

(** State after writes that changed at most the cell (r, c), which now
    holds [v], with the seed at [s]. *)
Definition wroteCell (w w' : world) (r c : Z) (v s : jsval) : Prop :=
  length (cave w') = length (cave w)
  /\ currentSeed w' = s
  /\ decoderFrame w w'
  /\ forall r' c', cell (cave w') r' c'
                   = if (r' =? r) && (c' =? c) then v else cell (cave w) r' c'.

(** Draws made in row [r] once its first [n] columns are done. *)
Definition rowDraws (r : Z) (n : nat) : nat :=
  if (r =? 0) || (r =? rows - 1) then 0%nat
  else Z.to_nat (Z.min (Z.of_nat n - 1) (cols - 2)).

(** Draws made once the first [m] rows are done. *)
Definition gridDraws (m : nat) : nat :=
  (Z.to_nat (cols - 2) * Z.to_nat (Z.min (Z.of_nat m - 1) (rows - 2)))%nat.

(** Content of (r, c) after row [r] is filled from seed [s]. *)
Definition rowValue (hex : list jsval) (s : jsval) (r c : Z) : jsval :=
  if isBorder r c then codeOf "steel"
  else fillCode hex (JS.rem (Nat.iter (Z.to_nat c) lcg s) (JNum 256)).

(** Content of (r, c) after the whole pass from seed [s]. *)
Definition fillValue (hex : list jsval) (s : jsval) (r c : Z) : jsval :=
  if isBorder r c then codeOf "steel"
  else fillCode hex (JS.rem (Nat.iter (drawIndex r c) lcg s) (JNum 256)).

(** ** The border *)

(** The cells of the 22 x 40 window, row by row, that satisfy [p]. *)
Definition cellsWhere (p : Z -> Z -> bool) : list (Z * Z) :=
  flat_map (fun r =>
    flat_map (fun c => if p (Z.of_nat r) (Z.of_nat c)
                       then [(Z.of_nat r, Z.of_nat c)] else [])
             (seq 0 (Z.to_nat cols)))
    (seq 0 (Z.to_nat rows)).

(** The decode of one built-in cave from the fresh page: it completes,
    every border cell holds steel or the out-box code, and at most one
    border cell holds the latter. *)
Definition borderCheck (caveId difficultyId : Z) : bool :=
  match caveLoad caveId difficultyId initialWorld with
  | Some (Normal w) =>
      forallb (fun '(r, c) => JS.eq (cell (cave w) r c) (JNum 0x07)
                              || JS.eq (cell (cave w) r c) (JNum 0x04))
              (cellsWhere isBorder)
      && (length (List.filter (fun '(r, c) => JS.eq (cell (cave w) r c) (JNum 0x04))
                              (cellsWhere isBorder)) <=? 1)%nat
  | _ => false
  end.

(** The identifiers of the built-in caves and of the difficulties. *)
Definition caveIds : list Z := map Z.of_nat (seq 1 20).
Definition difficultyIds : list Z := map Z.of_nat (seq 1 5).

(** The content of (r, c) once a built-in cave is decoded from the fresh
    page; [None] when the decode does not complete. *)
Definition cellAfterLoad (caveId difficultyId r c : Z) : option jsval :=
  match caveLoad caveId difficultyId initialWorld with
  | Some (Normal w) => Some (cell (cave w) r c)
  | _ => None
  end.

(** ** Sprite positions and reachable states *)

Abbreviation coord := getSpriteCoord.

(** No two sprites of the array have the same column and row. *)
Definition exclusive (ss : list sprite) : Prop := NoDup (coord <$> ss).

(** The sprite that [expandCell] may add for (r, c) comes after all those
    added before in row-major order. *)
Definition cellKey (p : Z * Z) : Z := snd p * cols + fst p.

(** State of the expansion when it reaches the cell of key [k]. *)
Definition expandedBelow (k : Z) (ss : list sprite) : Prop :=
  exclusive ss
  /\ Forall (fun s => 0 <= col s < cols /\ cellKey (coord s) < k) ss.

(** The states of the page at tick boundaries: after the entry point has
    run from the fresh page, after a key event, after a tick of the running
    loop, whether it completes or throws. *)
Inductive reachable : world -> Prop :=
  | reach_boot (table : list string) (caveId difficultyId : Z) (w : world) :
      bootFrom table caveId difficultyId initialWorld = Some w -> reachable w
  | reach_key (w : world) (j : Z) :
      reachable w -> reachable (setJoypad w j)
  | reach_tick (w w' : world) :
      reachable w -> running w = true -> update w = Normal w' -> reachable w'
  | reach_throw (w w' : world) :
      reachable w -> running w = true -> update w = Thrown w' -> reachable w'.

(** ** Sequences of draws *)

(** The state after [n] calls of [randInt255]. *)
Definition skipRandom (n : nat) (w : world) : world :=
  Nat.iter n (fun w => snd (randInt255 w)) w.

(** The low byte of the generator on its own: [x -> (13 x + 95) mod 256]. *)
Definition lowByteStep (b : Z) : Z := (13 * b + 95) mod 256.

(** ** Buttons *)

Definition buttons : list Z :=
  [JOYPAD_UP; JOYPAD_RIGHT; JOYPAD_DOWN; JOYPAD_LEFT;
   JOYPAD_A; JOYPAD_B; JOYPAD_START; JOYPAD_SELECT].

(** [(j & mask) != 0]. *)
Definition pressedIn (j mask : Z) : bool := negb (Z.land j mask =? 0).

(** What [|= mask] and [&= ~mask] do to one value [j] of the button mask
    that fits a byte, as a test on every button. *)
Definition keyRoundTripCheck (j mask : Z) : bool :=
  let down := bor j mask in
  let up := JS.band (JNum j) (JNum (bnot mask)) in
  pressedIn down mask
  && negb (pressedIn up mask)
  && (0 <=? down) && (down <=? 255) && (0 <=? up) && (up <=? 255)
  && (JS.band (JNum down) (JNum (bnot mask)) =? up)
  && (bor up mask =? down)
  && (bor down mask =? down)
  && (if pressedIn j mask then down =? j else up =? j)
  && forallb (fun m => (m =? mask)
                       || (Bool.eqb (pressedIn down m) (pressedIn j m)
                           && Bool.eqb (pressedIn up m) (pressedIn j m)))
             buttons.

(** ** Painting the grid *)

(** [w'] is [w] with the cells where [f] is defined overwritten. *)
Definition paints (w w' : world) (f : Z -> Z -> option jsval) : Prop :=
  length (cave w') = length (cave w)
  /\ sameButCave w w'
  /\ forall r c, cell (cave w') r c = default (cell (cave w) r c) (f r c).

(** The writes of turns 0 .. n-1 of a loop, later turns on top. *)
Fixpoint overlay (f : nat -> Z -> Z -> option jsval) (n : nat) (r c : Z)
  : option jsval :=
  match n with
  | O => None
  | S n' => match f n' r c with
            | Some v => Some v
            | None => overlay f n' r c
            end
  end.

(** The two fields of an opcode byte. *)
Definition opKind (op : Z) : Z := op / 64.
Definition opCode (op : Z) : Z := op mod 64.

(** Whether (r, c) lies in the rectangle of [hei] rows and [len] columns
    whose top left corner is (r0, c0), and whether it lies on its outline. *)
Definition inRect (r0 c0 hei len r c : Z) : bool :=
  (r0 <=? r) && (r <? r0 + hei) && (c0 <=? c) && (c <? c0 + len).

Definition onOutline (r0 c0 hei len r c : Z) : bool :=
  (r =? r0) || (r =? r0 + hei - 1) || (c =? c0) || (c =? c0 + len - 1).

(** A completion that is a throw. *)
Definition isThrown (c : completion) : Prop :=
  match c with
  | Thrown _ => True
  | Normal _ => False
  end.

(** Cave descriptions used as examples: built-in caves 1, 4 and 14. *)
Definition caveHex (n : nat) : list jsval :=
  Hex.parse (default ""%string (rawCaveDatas !! n)).

(** ** Order of the sprites *)

(** [a] may come before [b] in the order of [orderSprites]. *)
Definition spriteLe (a b : sprite) : Prop :=
  row a < row b \/ (row a = row b /\ col a <= col b).

(** ** The sprite of a cell *)

(** The type that the expansion finds for a code, none for a space or for
    a code that is not in [types]. *)
Definition typeOfCode (code : jsval) : option type :=
  if JS.eq code (JNum 0x00) then None
  else List.find (fun t => JS.eq (JNum (tcode t)) code) types.

(** The sprites that the expansion appends for the cell (r, c). *)
Definition cellSprites (g : list caveRow) (r c : Z) : list sprite :=
  match typeOfCode (cell g r c) with
  | Some t => [newSprite c r t]
  | None => []
  end.

(** All the cells of the window, row by row. *)
Definition allCells : list (Z * Z) := cellsWhere (fun _ _ => true).

(** ** Sprites over time *)

(** The fields of a sprite that no part of [update] assigns. *)
Definition sameKind (s s' : sprite) : Prop :=
  name s' = name s /\ gid s' = gid s /\ direction s' = direction s
  /\ rounded s' = rounded s /\ fallable s' = fallable s
  /\ explodable s' = explodable s /\ consumable s' = consumable s
  /\ animIdMax s' = animIdMax s.

(** One step of a falling object: the same object, one cell down and
    flagged as falling, or on its row at most one column away. *)
Definition movedOne (s s' : sprite) : Prop :=
  sameKind s s'
  /\ animated s' = animated s /\ animId s' = animId s
  /\ animCycle s' = animCycle s
  /\ ((row s' = row s /\ col s - 1 <= col s' <= col s + 1)
      \/ (row s' = row s + 1 /\ col s' = col s /\ isFalling s' = true)).

(** What one falling pass may do to a sprite: nothing to one that is not
    fallable; otherwise at most one step. *)
Definition fell (s s' : sprite) : Prop :=
  movedOne s s' /\ (fallable s = false -> s' = s).

(** Only the sprite at index [i] differs between [ss] and [ss'], and by one
    step. *)
Definition stepAt (i : nat) (ss ss' : list sprite) : Prop :=
  length ss' = length ss
  /\ (forall j, j <> i -> ss' !! j = ss !! j)
  /\ (forall s, ss !! i = Some s ->
        exists s', ss' !! i = Some s' /\ movedOne s s').

(** A scene with two placed sprites, in order, for the sorting example. *)
Definition sortedScene : world :=
  setSprites initialWorld [newSprite 3 2 dirtType; newSprite 2 3 boulderType].

(** The fresh grid with a boulder code at row 3, column 5. *)
Definition oneBoulderCave : world :=
  setCave initialWorld (alter (fun m => <[5 := JNum 0x10]> m) 3%nat newCave).

(** A boulder hanging over two free cells, with a wall beside it. *)
Definition dropScene : world :=
  setSprites initialWorld
    [newSprite 5 4 (mkType "steel" 50 0x07); newSprite 5 5 boulderType].

(** The three conditions under which [update] reads [rockford.col] of
    [undefined]. *)
Definition noPlayerToMove (w : world) : Prop :=
  findNamed "inbox" (sprites w) = None
  /\ getDirectionFromJoypad w <> 0
  /\ findNamed "rockford" (sprites w) = None.

(** The flags of a sprite are those that [appendSprites] gives to its
    name. *)
Definition flagsOk (s : sprite) : Prop :=
  fallable s = oneOf (name s) ["boulder"; "diamond"]%string
  /\ explodable s = oneOf (name s) ["firefly"; "butterfly"]%string
  /\ rounded s = oneOf (name s) ["brick"; "boulder"; "diamond"]%string
  /\ consumable s
     = oneOf (name s) ["dirt"; "brick"; "magic"; "firefly"; "boulder";
                       "diamond"; "butterfly"; "rockford"; "amoeba"]%string.

Definition notExplode (e : logEvent) : Prop :=
  match e with
  | LogExplode _ _ => False
  | _ => True
  end.

(** The part of [update] after the player phase. *)
Definition tickRest (w : world) : world :=
  updateAnimated (updateFalling (orderSprites w)).


(** The player steps onto a dirt or a diamond: the one case in which
    [update] splices a sprite out of the array. *)
Definition eats (w : world) : Prop :=
  findNamed "inbox" (sprites w) = None
  /\ getDirectionFromJoypad w <> 0
  /\ exists k rockford t target,
       findNamed "rockford" (sprites w) = Some (k, rockford)
       /\ getSpriteAt
            (col rockford
             + (getDXDYFromDirection (JNum (getDirectionFromJoypad w))).1)
            (row rockford
             + (getDXDYFromDirection (JNum (getDirectionFromJoypad w))).2)
            (sprites w) = Some (t, target)
       /\ (name target = "dirt"%string \/ name target = "diamond"%string).

(** The player next to a dirt, with the right button down. *)
Definition eatScene : world :=
  setJoypad
    (setSprites initialWorld
       [newSprite 3 2 rockfordType; newSprite 4 2 dirtType])
    JOYPAD_RIGHT.

(** ** Rendering *)

(** The tile numbers that a sprite can show: its identifier is one of the
    table, not the one of the empty space, and its frame index is below the
    number of frames of its animation. *)
Definition tileOk (s : sprite) : Prop :=
  1 <= gid s <= 89
  /\ 0 <= animId s <= Z.max 0 (animIdMax s - 1)
  /\ animIdMax s <= 8.

(** ** The walls of the cave *)

(** The kinds that nothing moves and nothing removes. *)
Definition isWall (s : sprite) : bool := oneOf (name s) ["steel"; "outbox"]%string.

Definition inWindow (s : sprite) : Prop :=
  0 <= col s < cols /\ 0 <= row s < rows.

(** Every sprite is in the window, and every border cell of the window
    holds a wall. *)
Definition enclosed (ss : list sprite) : Prop :=
  Forall inWindow ss
  /\ forall r c, 0 <= r < rows -> 0 <= c < cols -> isBorder r c = true ->
       exists s, In s ss /\ col s = c /\ row s = r /\ isWall s = true.

(** A cave closed by walls, with one sprite per cell at most and the
    flags of the names. *)
Definition sealed (ss : list sprite) : Prop :=
  exclusive ss /\ Forall flagsOk ss /\ enclosed ss.

(** The states that follow [w0] under key events and ticks. *)
Inductive playedFrom (w0 : world) : world -> Prop :=
  | played_start : playedFrom w0 w0
  | played_key (w : world) (j : Z) :
      playedFrom w0 w -> playedFrom w0 (setJoypad w j)
  | played_tick (w w' : world) :
      playedFrom w0 w -> update w = Normal w' -> playedFrom w0 w'
  | played_throw (w w' : world) :
      playedFrom w0 w -> update w = Thrown w' -> playedFrom w0 w'.

(** * Properties *)

(** Decides an equation between the outcomes of integer tests by cases on
    the tests. *)
Ltac solve_tests :=
  repeat match goal with
         | |- context [Z.eqb ?a ?b] => destruct (Z.eqb_spec a b)
         | |- context [Z.leb ?a ?b] => destruct (Z.leb_spec a b)
         | |- context [Z.ltb ?a ?b] => destruct (Z.ltb_spec a b)
         end;
  cbn [andb orb negb]; try reflexivity; try discriminate; lia.

(** ** The pseudo-random generator *)

Section Prng.

(** On a 32-bit state the product and sum of [nextRandom] stay below 2^53,
    so the double-precision computation of the source is the integer one. *)
Lemma nextRandom_exact_range (s : Z) :
  0 <= s < 2 ^ 32 ->
  0 <= LCG_MULTIPLIER * s + LCG_INCREMENT < 2 ^ 53.
Proof. unfold LCG_MULTIPLIER, LCG_INCREMENT. lia. Qed.

Lemma lcg_num (s : Z) :
  0 <= s ->
  lcg (JNum s) = JNum ((LCG_MULTIPLIER * s + LCG_INCREMENT) mod LCG_MODULUS).
Proof.
  intros Hs. unfold lcg, JS.rem, JS.add, JS.mul, JS.arith. cbn [toNumber].
  change (LCG_MODULUS =? 0) with false. cbn iota.
  rewrite Z.rem_mod_nonneg; [reflexivity | | reflexivity].
  unfold LCG_MULTIPLIER, LCG_INCREMENT. lia.
Qed.

(** C8.  For every 32-bit state [s], [nextRandom] stores and returns
    [(1664525 * s + 1013904223) mod 2^32]; the value computed before the
    reduction is below 2^53, hence exact in a double; [randInt255] advances
    the state in the same way and returns the new state modulo 256, a value
    between 0 and 255. *)
Theorem prng_contract (w : world) (s : Z) :
  currentSeed w = JNum s ->
  0 <= s < 2 ^ 32 ->
  let s' := (1664525 * s + 1013904223) mod 2 ^ 32 in
  fst (nextRandom w) = JNum s'
  /\ currentSeed (snd (nextRandom w)) = JNum s'
  /\ 0 <= s' < 2 ^ 32
  /\ 0 <= 1664525 * s + 1013904223 < 2 ^ 53
  /\ fst (randInt255 w) = JNum (s' mod 256)
  /\ currentSeed (snd (randInt255 w)) = JNum s'
  /\ 0 <= s' mod 256 <= 255.
Proof.
  intros Hw Hs s'.
  assert (Hl : lcg (currentSeed w) = JNum s').
  { rewrite Hw, lcg_num by lia. reflexivity. }
  assert (Hr : 0 <= s' < 2 ^ 32) by (apply Z.mod_pos_bound; lia).
  unfold randInt255, nextRandom. cbn [fst snd currentSeed setCurrentSeed].
  rewrite Hl. repeat split; try lia.
  - unfold JS.rem. cbn [toNumber]. change (256 =? 0) with false. cbn iota.
    rewrite Z.rem_mod_nonneg by lia. reflexivity.
  - apply Z.mod_pos_bound. lia.
  - pose proof (Z.mod_pos_bound s' 256). lia.
Qed.

(** The contract at the seed of cave 1, difficulty 1. *)
Lemma prng_contract_witness :
  let w := setCurrentSeed initialWorld (JNum 10) in
  fst (nextRandom w) = JNum 1030549473
  /\ fst (randInt255 w) = JNum 225.
Proof.
  pose proof (prng_contract (setCurrentSeed initialWorld (JNum 10)) 10
                eq_refl ltac:(lia)) as H.
  cbv zeta in H. destruct H as (H1 & _ & _ & _ & H5 & _).
  split; [exact H1 | exact H5].
Defined.

End Prng.

(** ** The tick never touches the grid *)

Section Frame.

Lemma sameGlobals_refl w : sameGlobals w w.
Proof. repeat split. Qed.

Lemma sameGlobals_trans w1 w2 w3 :
  sameGlobals w1 w2 -> sameGlobals w2 w3 -> sameGlobals w1 w3.
Proof.
  intros (A1 & A2 & A3 & A4) (B1 & B2 & B3 & B4).
  repeat split; congruence.
Qed.

Lemma sameGlobals_setSprites w ss : sameGlobals w (setSprites w ss).
Proof. repeat split. Qed.

Lemma sameGlobals_logTo w e : sameGlobals w (logTo w e).
Proof. repeat split. Qed.

Lemma fallSprite_sameGlobals i w : sameGlobals w (fallSprite i w).
Proof.
  unfold fallSprite.
  repeat (case_match; try apply sameGlobals_refl;
          try apply sameGlobals_setSprites; try apply sameGlobals_logTo).
Qed.

Lemma updateFalling_sameGlobals w : sameGlobals w (updateFalling w).
Proof.
  unfold updateFalling. generalize (fallables (sprites w)) as l.
  intros l. revert w. induction l as [|i l IH]; intros w; cbn.
  - apply sameGlobals_refl.
  - eapply sameGlobals_trans; [apply fallSprite_sameGlobals | apply IH].
Qed.

Lemma updatePlayer_sameGlobals w :
  match updatePlayer w with
  | Normal w' | Thrown w' => sameGlobals w w'
  end.
Proof.
  unfold updatePlayer. repeat case_match; simplify_eq; repeat split.
Qed.

(** C10.  A tick leaves every cell of the decoded grid as it was: whether
    [update] completes or throws, the global [cave] (and with it the seed,
    the button mask and the loop flag) is unchanged; only the sprite array
    and the console differ. *)
Theorem update_preserves_cave (w : world) :
  match update w with
  | Normal w' | Thrown w' =>
      cave w' = cave w
      /\ (forall r c, cell (cave w') r c = cell (cave w) r c)
      /\ currentSeed w' = currentSeed w
      /\ joypad w' = joypad w
      /\ running w' = running w
  end.
Proof.
  assert (G : match update w with
              | Normal w' | Thrown w' => sameGlobals w w'
              end).
  { unfold update. pose proof (updatePlayer_sameGlobals w) as H.
    destruct (updatePlayer w) as [w1|w1]; cbn [bind]; [|exact H].
    apply (sameGlobals_trans _ _ _ H).
    apply (sameGlobals_trans _ (orderSprites w1));
      [apply sameGlobals_setSprites|].
    apply (sameGlobals_trans _ (updateFalling (orderSprites w1)));
      [apply updateFalling_sameGlobals | apply sameGlobals_setSprites]. }
  destruct (update w) as [w'|w']; destruct G as (G1 & G2 & G3 & G4);
    (repeat split; [exact G1 | intros; rewrite G1; reflexivity | exact G2
                   | exact G3 | exact G4]).
Qed.

End Frame.

(** ** Falling and sliding *)

Section Falling.

Lemma alter_at {A} (f : A -> A) (l : list A) (i : nat) (x : A) :
  l !! i = Some x -> alter f i l = <[i := f x]> l.
Proof.
  revert i. induction l as [|y l IH]; intros [|i] H; simplify_eq/=; f_equal; auto.
Qed.

(** C5.  The callback of the falling pass on a sprite [s] that has a rounded
    object below: when the cells to its left and below-left are both free it
    steps one column to the left, whatever there is on its right; the right
    side is tried only when the left test fails; when neither side is free
    the sprite stops falling and stays where it is.  No other sprite
    changes. *)
Theorem diagonal_tie_break (w : world) (i : nat) (s : sprite)
    (nb : nat) (b : sprite) :
  sprites w !! i = Some s ->
  getSpriteAt (col s) (row s + 1) (sprites w) = Some (nb, b) ->
  rounded b = true ->
  let free c r := getSpriteAt c r (sprites w) = None in
  let leftFree := free (col s - 1) (row s) /\ free (col s - 1) (row s + 1) in
  let rightFree := free (col s + 1) (row s) /\ free (col s + 1) (row s + 1) in
  (leftFree ->
     fallSprite i w = setSprites w (<[i := set_col s (col s - 1)]> (sprites w)))
  /\ (~ leftFree -> rightFree ->
     fallSprite i w = setSprites w (<[i := set_col s (col s + 1)]> (sprites w)))
  /\ (~ leftFree -> ~ rightFree ->
     fallSprite i w = setSprites w (<[i := set_isFalling s false]> (sprites w))).
Proof.
  intros Hi Hb Hr free leftFree rightFree. subst free leftFree rightFree.
  unfold fallSprite. rewrite Hi. cbv zeta.
  change (fst (getSpriteCoord s)) with (col s).
  change (snd (getSpriteCoord s)) with (row s). rewrite Hb, Hr.
  rewrite !(alter_at _ _ _ _ Hi).
  split; [|split].
  - intros [-> ->]. reflexivity.
  - intros HL [-> ->].
    destruct (getSpriteAt (col s - 1) (row s) (sprites w)) as [[]|];
      [reflexivity|].
    destruct (getSpriteAt (col s - 1) (row s + 1) (sprites w)) as [[]|];
      [reflexivity|].
    exfalso. apply HL. split; reflexivity.
  - intros HL HR.
    assert (HR' : match getSpriteAt (col s + 1) (row s) (sprites w),
                        getSpriteAt (col s + 1) (row s + 1) (sprites w) with
                  | None, None => False
                  | _, _ => True
                  end).
    { destruct (getSpriteAt (col s + 1) (row s) (sprites w)) as [[]|];
        [exact I|].
      destruct (getSpriteAt (col s + 1) (row s + 1) (sprites w)) as [[]|];
        [exact I|].
      apply HR. split; reflexivity. }
    destruct (getSpriteAt (col s - 1) (row s) (sprites w)) as [[]|];
      [|destruct (getSpriteAt (col s - 1) (row s + 1) (sprites w)) as [[]|];
        [|exfalso; apply HL; split; reflexivity]];
      (destruct (getSpriteAt (col s + 1) (row s) (sprites w)) as [[]|];
       [reflexivity|];
       destruct (getSpriteAt (col s + 1) (row s + 1) (sprites w)) as [[]|];
       [reflexivity | destruct HR']).
Qed.

Lemma diagonal_tie_break_witness :
  fallSprite 0 pileScene =
  setSprites pileScene [newSprite 4 5 boulderType; newSprite 5 6 boulderType].
Proof.
  refine (proj1 (diagonal_tie_break pileScene 0 (newSprite 5 5 boulderType)
                   1 (newSprite 5 6 boulderType) eq_refl _ eq_refl) _).
  - vm_compute. reflexivity.
  - split; vm_compute; reflexivity.
Defined.

(** A sprite built by [appendSprites] that falls never has the flag that
    the explosion branch of the falling pass tests. *)
Lemma newSprite_flags (c r : Z) (t : type) :
  fallable (newSprite c r t) = oneOf (tname t) ["boulder"; "diamond"]%string
  /\ explodable (newSprite c r t)
     = oneOf (tname t) ["firefly"; "butterfly"]%string
  /\ col (newSprite c r t) = c /\ row (newSprite c r t) = r.
Proof.
  unfold newSprite. cbv zeta.
  repeat match goal with
         | |- context [if ?b then _ else _] => destruct b
         end; repeat split.
Qed.

Lemma newSprite_fallable_not_explodable (c r : Z) (t : type) :
  fallable (newSprite c r t) = true -> explodable (newSprite c r t) = false.
Proof.
  destruct (newSprite_flags c r t) as (-> & -> & _).
  unfold oneOf. cbn [existsb].
  destruct (String.eqb_spec (tname t) "boulder") as [->|Hb]; [reflexivity|].
  destruct (String.eqb_spec (tname t) "diamond") as [->|Hd]; [reflexivity|].
  discriminate.
Qed.

(** C3, on [crushScene].  The object below the falling boulder is
    explodable and not rounded, yet the tick logs no explosion and puts the
    boulder to rest: the test of the source reads the flag of the falling
    sprite, not of the one below. *)
Theorem crush_takes_resting_branch :
  (exists nb b, getSpriteAt 5 6 (sprites crushScene) = Some (nb, b)
                /\ explodable b = true /\ rounded b = false)
  /\ (exists s, sprites crushScene !! 0%nat = Some s
                /\ fallable s = true /\ isFalling s = true)
  /\ match update crushScene with
     | Normal w' =>
         console w' = []
         /\ sprites w' !! 0%nat = Some (newSprite 5 5 boulderType)
         /\ (isFalling <$> sprites w' !! 0%nat) = Some false
     | Thrown _ => False
     end.
Proof.
  split; [|split].
  - eexists _, _. split; [vm_compute; reflexivity|]. split; reflexivity.
  - eexists. split; [reflexivity|]. split; reflexivity.
  - vm_compute. repeat split.
Qed.

End Falling.

(** ** Player movement *)

Section Player.

(** C6.  With no entry portal in the sprite array and a direction asked
    for, the player phase looks at the cell next to the player in that
    direction: when no sprite is there the player moves onto it; when the
    sprite there is dirt or a diamond the player moves onto it and that
    sprite leaves the array; with any other sprite there nothing changes. *)
Theorem player_movement (w : world) (k : nat) (rockford : sprite) :
  findNamed "inbox" (sprites w) = None ->
  getDirectionFromJoypad w <> 0 ->
  findNamed "rockford" (sprites w) = Some (k, rockford) ->
  let d := getDXDYFromDirection (JNum (getDirectionFromJoypad w)) in
  let tc := col rockford + fst d in
  let tr := row rockford + snd d in
  let moved := set_row (set_col rockford tc) tr in
  (col moved = tc /\ row moved = tr /\ (tc, tr) <> (col rockford, row rockford))
  /\ match getSpriteAt tc tr (sprites w) with
     | None =>
         updatePlayer w = Normal (setSprites w (<[k := moved]> (sprites w)))
     | Some (t, target) =>
         (name target = "dirt"%string \/ name target = "diamond"%string ->
          updatePlayer w =
          Normal (setSprites w (delete t (<[k := moved]> (sprites w)))))
         /\ (name target <> "dirt"%string -> name target <> "diamond"%string ->
             updatePlayer w = Normal w)
     end.
Proof.
  intros Hin Hdir Hrf d tc tr moved.
  assert (Hk : sprites w !! k = Some rockford).
  { apply list_find_Some in Hrf. tauto. }
  split.
  - split; [reflexivity|]. split; [reflexivity|].
    subst tc tr d. unfold getDirectionFromJoypad in *.
    repeat case_match; cbn; try congruence; intros [=]; lia.
  - unfold updatePlayer. rewrite Hin.
    apply Z.eqb_neq in Hdir. rewrite Hdir. cbn [negb]. rewrite Hrf.
    fold d. destruct d as [dx dy] eqn:Hd. cbn [fst snd] in *.
    fold tc tr. rewrite (alter_at _ _ _ _ Hk).
    change (moveBy dx dy rockford) with moved.
    destruct (getSpriteAt tc tr (sprites w)) as [[t target]|]; [|reflexivity].
    split.
    + intros [Hn|Hn]; rewrite Hn; reflexivity.
    + intros H1 H2. apply String.eqb_neq in H1, H2. rewrite H1, H2. reflexivity.
Qed.

Lemma player_movement_witness :
  updatePlayer digScene =
  Normal (setSprites digScene
            [newSprite 3 2 rockfordType; newSprite 2 3 boulderType]).
Proof.
  pose proof (player_movement digScene 0 (newSprite 2 2 rockfordType)
                ltac:(vm_compute; reflexivity)
                ltac:(vm_compute; discriminate)
                ltac:(vm_compute; reflexivity)) as H.
  cbv zeta in H. destruct H as [_ H].
  change (getSpriteAt _ _ (sprites digScene))
    with (Some (1%nat, newSprite 3 2 dirtType)) in H.
  destruct H as [H _]. exact (H (or_introl eq_refl)).
Defined.

End Player.

(** ** Writes to the grid and loops *)

Section Grid.

Lemma sameButCave_refl w : sameButCave w w.
Proof. repeat split. Qed.

Lemma sameButCave_trans w1 w2 w3 :
  sameButCave w1 w2 -> sameButCave w2 w3 -> sameButCave w1 w3.
Proof.
  intros (A1 & A2 & A3 & A4 & A5) (B1 & B2 & B3 & B4 & B5).
  repeat split; congruence.
Qed.

Lemma forLoop_S n body w :
  forLoop (S n) body w = bind (forLoop n body w) (body (Z.of_nat n)).
Proof. unfold forLoop. rewrite seq_S, fold_left_app. reflexivity. Qed.

Lemma forLoop_0 body w : forLoop 0 body w = Normal w.
Proof. reflexivity. Qed.

Lemma cell_alter (g : list caveRow) (r c : Z) (v : jsval) (r' c' : Z) :
  0 <= r < Z.of_nat (length g) ->
  cell (alter (fun m => <[c := v]> m) (Z.to_nat r) g) r' c'
  = if (r' =? r) && (c' =? c) then v else cell g r' c'.
Proof.
  intros Hr. unfold cell. destruct (Z.ltb_spec r' 0) as [Hn|Hn].
  - replace (r' =? r) with false by lia. reflexivity.
  - destruct (Z.eqb_spec r' r) as [->|Hne].
    + rewrite list_lookup_alter_eq.
      destruct (lookup_lt_is_Some_2 g (Z.to_nat r) ltac:(lia)) as [m Hm].
      rewrite Hm. cbn [fmap option_fmap option_map andb].
      rewrite lookup_insert. destruct (Z.eqb_spec c' c) as [->|Hc].
      * rewrite decide_True by reflexivity. reflexivity.
      * rewrite decide_False by congruence. reflexivity.
    + rewrite list_lookup_alter_ne by lia. reflexivity.
Qed.

(** A write at a row of the grid completes and changes that one cell. *)
Lemma caveSet_in (r c : Z) (v : jsval) (w : world) :
  0 <= r < Z.of_nat (length (cave w)) ->
  exists w', caveSet (JNum r) (JNum c) v w = Normal w'
    /\ length (cave w') = length (cave w)
    /\ sameButCave w w'
    /\ forall r' c', cell (cave w') r' c'
                     = if (r' =? r) && (c' =? c) then v else cell (cave w) r' c'.
Proof.
  intros Hr. unfold caveSet.
  replace ((0 <=? r) && (r <? Z.of_nat (length (cave w)))) with true by lia.
  eexists. split; [reflexivity|]. cbn [cave setCave].
  split; [apply length_alter|]. split; [repeat split|].
  intros r' c'. apply cell_alter. exact Hr.
Qed.

(** A write at a row that the grid does not have throws, and so does a
    write whose row is not a number. *)
Lemma caveSet_out (r : Z) (c v : jsval) (w : world) :
  ~ (0 <= r < Z.of_nat (length (cave w))) ->
  caveSet (JNum r) c v w = Thrown w.
Proof.
  intros Hr. unfold caveSet.
  replace ((0 <=? r) && (r <? Z.of_nat (length (cave w)))) with false by lia.
  reflexivity.
Qed.

Lemma caveSet_frame (r c v : jsval) (w : world) :
  match caveSet r c v w with
  | Normal w' | Thrown w' =>
      sameButCave w w' /\ length (cave w') = length (cave w)
  end.
Proof.
  unfold caveSet. repeat case_match; simplify_eq;
    (split; [repeat split | try reflexivity]).
  cbn [cave setCave]. apply length_alter.
Qed.

(** A loop whose body keeps a relation with the state at entry keeps it. *)
Lemma forLoop_frame (R : world -> world -> Prop) n body w :
  R w w ->
  (forall w1 w2 w3, R w1 w2 -> R w2 w3 -> R w1 w3) ->
  (forall i w1, match body i w1 with Normal w2 | Thrown w2 => R w1 w2 end) ->
  match forLoop n body w with Normal w' | Thrown w' => R w w' end.
Proof.
  intros Hrefl Htrans Hbody. induction n as [|n IH].
  - exact Hrefl.
  - rewrite forLoop_S. destruct (forLoop n body w) as [w1|w1]; cbn [bind].
    + specialize (Hbody (Z.of_nat n) w1).
      destruct (body (Z.of_nat n) w1); eapply Htrans; eauto.
    + exact IH.
Qed.

Lemma decoderFrame_refl w : decoderFrame w w.
Proof. repeat split. Qed.

Lemma decoderFrame_trans w1 w2 w3 :
  decoderFrame w1 w2 -> decoderFrame w2 w3 -> decoderFrame w1 w3.
Proof.
  intros (A1 & A2 & A3 & A4 & A5) (B1 & B2 & B3 & B4 & B5).
  repeat split; congruence.
Qed.

Lemma caveSet_decoderFrame r c v w :
  match caveSet r c v w with Normal w' | Thrown w' => decoderFrame w w' end.
Proof.
  pose proof (caveSet_frame r c v w) as H.
  destruct (caveSet r c v w); destruct H as ((_ & H2 & H3 & H4 & H5) & H6);
    repeat split; assumption.
Qed.

End Grid.

(** ** The line instruction *)

Section Line.

Lemma directionTable_code (dir : Z) (d : Z * Z) :
  0 <= dir ->
  directionTable !! Z.to_nat dir = Some d ->
  getDXDYFromDirection (JS.add (JNum dir) (JNum 1)) = d /\ d <> (0, 0).
Proof.
  intros Hd Hl.
  assert (Hlt : (Z.to_nat dir < 8)%nat) by (apply lookup_lt_Some in Hl; exact Hl).
  assert (Hc : dir = 0 \/ dir = 1 \/ dir = 2 \/ dir = 3 \/ dir = 4 \/ dir = 5
               \/ dir = 6 \/ dir = 7) by lia.
  destruct Hc as [->|[->|[->|[->|[->|[->|[->| ->]]]]]]];
    vm_compute in Hl; injection Hl as <-; (split; [reflexivity | discriminate]).
Qed.

Lemma drawLine_loop (code c r : Z) (d : Z * Z) (w : world) (n : nat) :
  (forall i, 0 <= i < Z.of_nat n ->
             0 <= r + snd d * i < Z.of_nat (length (cave w))) ->
  exists w',
    forLoop n (fun i =>
      caveSet (JS.add (JNum r) (JNum (snd d * i)))
              (JS.add (JNum c) (JNum (fst d * i))) (JNum code)) w = Normal w'
    /\ length (cave w') = length (cave w)
    /\ sameButCave w w'
    /\ forall r' c', cell (cave w') r' c'
         = if onLine c r d n r' c' then JNum code else cell (cave w) r' c'.
Proof.
  induction n as [|n IH]; intros Hrows.
  - exists w. split; [reflexivity|]. split; [reflexivity|].
    split; [apply sameButCave_refl|]. reflexivity.
  - destruct IH as (w1 & Hrun & Hlen & Hsame & Hcells).
    { intros i Hi. apply Hrows. lia. }
    rewrite forLoop_S, Hrun. cbn [bind].
    change (JS.add (JNum r) (JNum (snd d * Z.of_nat n)))
      with (JNum (r + snd d * Z.of_nat n)).
    change (JS.add (JNum c) (JNum (fst d * Z.of_nat n)))
      with (JNum (c + fst d * Z.of_nat n)).
    destruct (caveSet_in (r + snd d * Z.of_nat n) (c + fst d * Z.of_nat n)
                (JNum code) w1) as (w2 & Hset & Hlen2 & Hsame2 & Hcells2).
    { rewrite Hlen. apply Hrows. lia. }
    exists w2. split; [exact Hset|]. split; [congruence|].
    split; [eapply sameButCave_trans; eauto|].
    intros r' c'. rewrite Hcells2, Hcells. unfold onLine.
    rewrite seq_S, existsb_app. cbn [existsb lineCell fst snd Nat.add].
    rewrite orb_false_r.
    destruct (existsb _ (seq 0 n)); destruct (_ && _); reflexivity.
Qed.

(** C9.  A record [0x42 col row len dir] at [index], with [dir] an entry of
    the direction table and every row of the line inside the grid: the turn
    of the instruction loop completes, leaves [index] five bytes further,
    and the grid differs from the one before exactly on the [len] cells
    reached from ([col], [row - 2]) by 0, 1, ..., [len - 1] steps of the
    direction, which are pairwise distinct and now hold code 0x02. *)
Theorem line_instruction (hex : list jsval) (index : Z) (w : world)
    (c rb len dir : Z) (d : Z * Z) :
  hexAt hex index = JNum 0x42 ->
  hexAt hex (index + 1) = JNum c ->
  hexAt hex (index + 2) = JNum rb ->
  hexAt hex (index + 3) = JNum len ->
  hexAt hex (index + 4) = JNum dir ->
  0 <= dir ->
  directionTable !! Z.to_nat dir = Some d ->
  (forall i, 0 <= i < len ->
             0 <= fst (lineCell c (rb - 2) d i) < Z.of_nat (length (cave w))) ->
  exists w',
    caveInstr hex index w = (Normal w', index + 5)
    /\ sameButCave w w'
    /\ (forall r' c', cell (cave w') r' c'
          = if onLine c (rb - 2) d (Z.to_nat len) r' c' then JNum 0x02
            else cell (cave w) r' c')
    /\ (forall i, 0 <= i < len ->
          cell (cave w') (fst (lineCell c (rb - 2) d i))
                         (snd (lineCell c (rb - 2) d i)) = JNum 0x02)
    /\ (forall i j, 0 <= i < len -> 0 <= j < len ->
          lineCell c (rb - 2) d i = lineCell c (rb - 2) d j -> i = j).
Proof.
  intros H0 H1 H2 H3 H4 Hdir Htab Hrows.
  destruct (directionTable_code dir d Hdir Htab) as [Hd Hnz].
  destruct (drawLine_loop 2 c (rb - 2) d w (Z.to_nat len))
    as (w' & Hrun & Hlen & Hsame & Hcells).
  { intros i Hi. apply (Hrows i). lia. }
  exists w'. split; [|split; [exact Hsame|split; [exact Hcells|split]]].
  - unfold caveInstr. rewrite H0, H1, H2, H3, H4, Hd.
    change (JS.shr (JS.band (JNum 66) (JNum 192)) 6) with 1.
    change (JS.band (JNum 66) (JNum 63)) with 2.
    change (JS.sub (JNum rb) (JNum 2)) with (JNum (rb - 2)).
    cbv iota beta. unfold drawLine. change (tripCount (JNum len)) with (Z.to_nat len).
    rewrite Hrun. reflexivity.
  - intros i Hi. rewrite Hcells.
    replace (onLine c (rb - 2) d (Z.to_nat len) _ _) with true; [reflexivity|].
    symmetry. apply existsb_exists. exists (Z.to_nat i). split.
    + apply in_seq. lia.
    + rewrite Z2Nat.id by lia. rewrite !Z.eqb_refl. reflexivity.
  - intros i j Hi Hj Heq. destruct d as [dx dy]. unfold lineCell in Heq.
    cbn [fst snd] in Heq. injection Heq as Hr Hc.
    destruct (Z.eq_dec dy 0) as [->|Hy]; [|nia].
    destruct (Z.eq_dec dx 0) as [->|Hx]; [congruence|nia].
Qed.

(** The first instruction of cave 1, [42 01 09 1E 02]: thirty bricks to
    the right from column 1 of row 7. *)
Lemma line_instruction_witness :
  exists w',
    caveInstr (Hex.parse (default ""%string (rawCaveDatas !! 0%nat))) 0x20
              initialWorld = (Normal w', 0x25)
    /\ cell (cave w') 7 1 = JNum 0x02
    /\ cell (cave w') 7 30 = JNum 0x02
    /\ cell (cave w') 7 31 = JNum 0
    /\ cell (cave w') 8 1 = JNum 0.
Proof.
  destruct (line_instruction
              (Hex.parse (default ""%string (rawCaveDatas !! 0%nat))) 0x20
              initialWorld 1 9 30 2 (1, 0))
    as (w' & Hrun & _ & Hcells & _);
    try (vm_compute; reflexivity); [lia| |].
  { intros i Hi. change (0 <= 9 - 2 + 0 * i < 22). lia. }
  exists w'. split; [exact Hrun|].
  rewrite !Hcells. repeat split.
Defined.

End Line.

(** ** The end of the instruction stream *)

Section Sentinel.

Lemma kind_range (op : jsval) : 0 <= JS.shr (JS.band op (JNum 192)) 6 < 4.
Proof.
  unfold JS.shr, JS.band. change (toInt32 (JNum 192)) with 192.
  rewrite Z.shiftr_land. change (Z.shiftr 192 6) with (Z.ones 2).
  rewrite Z.land_ones by lia. apply Z.mod_pos_bound. lia.
Qed.








Lemma fillCell_decoderFrame hex r c w :
  match fillCell hex r c w with
  | Normal w' | Thrown w' => decoderFrame w w'
  end.
Proof.
  assert (step : forall r c v w1 (k : world -> completion),
             (forall w2, decoderFrame w1 w2 ->
                match k w2 with Normal w' | Thrown w' => decoderFrame w1 w' end) ->
             match bind (caveSet r c v w1) k with
             | Normal w' | Thrown w' => decoderFrame w1 w'
             end).
  { intros r0 c0 v w1 k Hk. pose proof (caveSet_decoderFrame r0 c0 v w1) as H.
    destruct (caveSet r0 c0 v w1) as [w2|w2]; cbn [bind]; [apply Hk|]; exact H. }
  assert (tail : forall w1 w2 r c v,
             decoderFrame w1 w2 ->
             match caveSet r c v w2 with
             | Normal w' | Thrown w' => decoderFrame w1 w'
             end).
  { intros w1 w2 r0 c0 v H12. pose proof (caveSet_decoderFrame r0 c0 v w2) as H.
    destruct (caveSet r0 c0 v w2); eapply decoderFrame_trans; eauto. }
  unfold fillCell. destruct (_ || _).
  - apply caveSet_decoderFrame.
  - apply step. intros w2 H2. unfold randInt255, nextRandom.
    set (w3 := setCurrentSeed w2 _).
    assert (H3 : decoderFrame w w3) by exact H2.
    clearbody w3. cbv zeta.
    destruct (JS.lt _ _); [|exact H3].
    pose proof (caveSet_decoderFrame (JNum r) (JNum c) (hexAt hex 27) w3) as Ha.
    destruct (caveSet (JNum r) (JNum c) (hexAt hex 27) w3) as [w4|w4];
      cbn [bind]; [|eapply decoderFrame_trans; eauto].
    assert (H4 : decoderFrame w w4) by (eapply decoderFrame_trans; eauto).
    destruct (JS.lt _ _); [|exact H4].
    pose proof (caveSet_decoderFrame (JNum r) (JNum c) (hexAt hex 26) w4) as Hb.
    destruct (caveSet (JNum r) (JNum c) (hexAt hex 26) w4) as [w5|w5];
      cbn [bind]; [|eapply decoderFrame_trans; eauto].
    assert (H5 : decoderFrame w w5) by (eapply decoderFrame_trans; eauto).
    destruct (JS.lt _ _); [|exact H5].
    pose proof (caveSet_decoderFrame (JNum r) (JNum c) (hexAt hex 25) w5) as Hc.
    destruct (caveSet (JNum r) (JNum c) (hexAt hex 25) w5) as [w6|w6];
      cbn [bind]; [|eapply decoderFrame_trans; eauto].
    assert (H6 : decoderFrame w w6) by (eapply decoderFrame_trans; eauto).
    destruct (JS.lt _ _); [|exact H6].
    apply tail. exact H6.
Qed.

Lemma forLoop_decoderFrame n body w :
  (forall i w1, match body i w1 with
                | Normal w2 | Thrown w2 => decoderFrame w1 w2
                end) ->
  match forLoop n body w with Normal w' | Thrown w' => decoderFrame w w' end.
Proof.
  intros H. apply (forLoop_frame decoderFrame);
    [apply decoderFrame_refl | apply decoderFrame_trans | exact H].
Qed.

Lemma caveFill_decoderFrame hex w :
  match caveFill hex w with Normal w' | Thrown w' => decoderFrame w w' end.
Proof.
  unfold caveFill. apply forLoop_decoderFrame. intros r w1.
  apply forLoop_decoderFrame. intros c w2. apply fillCell_decoderFrame.
Qed.

Lemma caveInstr_decoderFrame hex index w :
  match fst (caveInstr hex index w) with
  | Normal w' | Thrown w' => decoderFrame w w'
  end.
Proof.
  unfold caveInstr. pose proof (kind_range (hexAt hex index)) as H.
  assert (Hc : JS.shr (JS.band (hexAt hex index) (JNum 192)) 6 = 0
               \/ JS.shr (JS.band (hexAt hex index) (JNum 192)) 6 = 1
               \/ JS.shr (JS.band (hexAt hex index) (JNum 192)) 6 = 2
               \/ JS.shr (JS.band (hexAt hex index) (JNum 192)) 6 = 3) by lia.
  destruct Hc as [-> | [-> | [-> | ->]]]; cbn [fst].
  - apply caveSet_decoderFrame.
  - apply forLoop_decoderFrame. intros. apply caveSet_decoderFrame.
  - apply forLoop_decoderFrame. intros. apply forLoop_decoderFrame. intros.
    destruct (_ || _); apply caveSet_decoderFrame.
  - apply forLoop_decoderFrame. intros. apply forLoop_decoderFrame. intros.
    apply caveSet_decoderFrame.
Qed.

Lemma caveInstrs_decoderFrame fuel hex index w c :
  caveInstrs fuel hex index w = Some c ->
  match c with Normal w' | Thrown w' => decoderFrame w w' end.
Proof.
  revert index w. induction fuel as [|fuel IH]; intros index w Hrun;
    [discriminate|].
  cbn [caveInstrs] in Hrun. destruct (JS.neq _ _).
  - pose proof (caveInstr_decoderFrame hex index w) as Hf.
    destruct (caveInstr hex index w) as [[w1|w1] index1]; cbn [fst] in Hf.
    + specialize (IH _ _ Hrun).
      destruct c; eapply decoderFrame_trans; eauto.
    + injection Hrun as <-. exact Hf.
  - injection Hrun as <-. apply decoderFrame_refl.
Qed.

Lemma caveDecode_decoderFrame hex did w c :
  caveDecode hex did w = Some c ->
  match c with Normal w' | Thrown w' => decoderFrame w w' end.
Proof.
  unfold caveDecode. intros Hrun.
  pose proof (caveFill_decoderFrame hex (setSeed (hexAt hex (4 + did - 1)) w))
    as Hf.
  destruct (caveFill hex _) as [w1|w1].
  - apply caveInstrs_decoderFrame in Hrun.
    destruct c; eapply decoderFrame_trans; eauto.
  - injection Hrun as <-. exact Hf.
Qed.

End Sentinel.

(** ** The random fill *)

Section RandomFill.

Lemma isByte_num v : isByte v = true -> exists b, v = JNum b /\ 0 <= b <= 255.
Proof.
  destruct v as [b| |]; cbn [isByte]; [|discriminate..].
  intros H. apply andb_true_iff in H. exists b. split; [reflexivity | lia].
Qed.

Lemma fillCode_fillSpec (hex : list jsval) (v : jsval) :
  headerOk hex = true -> fillCode hex v = fillSpec hex v.
Proof.
  unfold headerOk. cbn [forallb]. rewrite !andb_true_iff.
  intros (_ & _ & _ & _ & H1 & H2 & H3 & H4 & _).
  apply isByte_num in H1, H2, H3, H4.
  destruct H1 as (t1 & E1 & B1), H2 as (t2 & E2 & B2),
           H3 as (t3 & E3 & B3), H4 as (t4 & E4 & B4).
  unfold fillCode, fillSpec. rewrite E1, E2, E3, E4.
  destruct v as [x| |]; try reflexivity.
  unfold JS.lt, JS.add, JS.arith. cbn [toNumber].
  destruct (Z.ltb_spec x (t1 + t2 + t3 + t4)), (Z.ltb_spec x (t1 + t2 + t3)),
           (Z.ltb_spec x (t1 + t2)), (Z.ltb_spec x t1);
    try reflexivity; lia.
Qed.

Lemma wroteCell_first (w : world) (r c : Z) (v : jsval) :
  0 <= r < Z.of_nat (length (cave w)) ->
  exists w', caveSet (JNum r) (JNum c) v w = Normal w'
             /\ wroteCell w w' r c v (currentSeed w).
Proof.
  intros Hr. destruct (caveSet_in r c v w Hr) as (w' & Hset & Hlen & Hs & Hc).
  exists w'. split; [exact Hset|]. destruct Hs as (S1 & S2 & S3 & S4 & S5).
  repeat split; assumption.
Qed.

Lemma wroteCell_again (w w1 : world) (r c : Z) (v1 v2 s : jsval) :
  0 <= r < Z.of_nat (length (cave w)) ->
  wroteCell w w1 r c v1 s ->
  exists w2, caveSet (JNum r) (JNum c) v2 w1 = Normal w2
             /\ wroteCell w w2 r c v2 s.
Proof.
  intros Hr (Hlen & Hseed & Hf & Hc).
  destruct (wroteCell_first w1 r c v2) as (w2 & Hset & Hlen2 & Hseed2 & Hf2 & Hc2).
  { rewrite Hlen. exact Hr. }
  exists w2. split; [exact Hset|].
  split; [congruence|]. split; [congruence|].
  split; [eapply decoderFrame_trans; eauto|].
  intros r' c'. rewrite Hc2, Hc. destruct (_ && _); reflexivity.
Qed.

Lemma wroteCell_reseed (w w1 : world) (r c : Z) (v s s' : jsval) :
  wroteCell w w1 r c v s -> wroteCell w (setCurrentSeed w1 s') r c v s'.
Proof. intros (Hlen & Hseed & Hf & Hc). repeat split; try apply Hf; assumption. Qed.

(** One cell of the fill pass. *)
Lemma fillCell_spec (hex : list jsval) (r c : Z) (w : world) :
  0 <= r < Z.of_nat (length (cave w)) ->
  exists w',
    fillCell hex r c w = Normal w'
    /\ wroteCell w w' r c
         (if isBorder r c then codeOf "steel"
          else fillCode hex (JS.rem (lcg (currentSeed w)) (JNum 256)))
         (if isBorder r c then currentSeed w else lcg (currentSeed w)).
Proof.
  intros Hr. unfold fillCell. fold (isBorder r c).
  destruct (isBorder r c); [apply wroteCell_first; exact Hr|].
  destruct (wroteCell_first w r c (codeOf "dirt") Hr) as (w1 & Hset1 & H1).
  rewrite Hset1. cbn [bind]. unfold randInt255, nextRandom.
  assert (Hs1 : currentSeed w1 = currentSeed w) by apply H1.
  rewrite Hs1. cbn [currentSeed setCurrentSeed].
  apply (wroteCell_reseed _ _ _ _ _ _ (lcg (currentSeed w))) in H1.
  set (w2 := setCurrentSeed w1 (lcg (currentSeed w))) in *. clearbody w2.
  set (rand := JS.rem (lcg (currentSeed w)) (JNum 256)).
  unfold fillCode. fold rand. cbv zeta.
  destruct (JS.lt rand (JS.add (JS.add (JS.add _ _) _) _)); [|eauto].
  destruct (wroteCell_again w w2 r c _ (hexAt hex 27) _ Hr H1) as (w3 & Hset3 & H3).
  rewrite Hset3. cbn [bind].
  destruct (JS.lt rand (JS.add (JS.add _ _) _)); [|eauto].
  destruct (wroteCell_again w w3 r c _ (hexAt hex 26) _ Hr H3) as (w4 & Hset4 & H4).
  rewrite Hset4. cbn [bind].
  destruct (JS.lt rand (JS.add _ _)); [|eauto].
  destruct (wroteCell_again w w4 r c _ (hexAt hex 25) _ Hr H4) as (w5 & Hset5 & H5).
  rewrite Hset5. cbn [bind].
  destruct (JS.lt rand _); [|eauto].
  apply (wroteCell_again w w5 r c _ (hexAt hex 24) _ Hr H5).
Qed.

Lemma rowDraws_step (r : Z) (n : nat) :
  (n < 40)%nat ->
  rowDraws r (S n)
  = if isBorder r (Z.of_nat n) then rowDraws r n else S (rowDraws r n).
Proof.
  intros Hn. unfold rowDraws, isBorder, rows, cols.
  destruct (Z.eqb_spec r 0), (Z.eqb_spec r (22 - 1)),
           (Z.eqb_spec (Z.of_nat n) 0), (Z.eqb_spec (Z.of_nat n) (40 - 1));
    cbn [orb]; lia.
Qed.

Lemma rowDraws_interior (r : Z) (n : nat) :
  (n < 40)%nat -> isBorder r (Z.of_nat n) = false ->
  S (rowDraws r n) = Z.to_nat (Z.of_nat n).
Proof.
  intros Hn. unfold rowDraws, isBorder, rows, cols.
  destruct (Z.eqb_spec r 0), (Z.eqb_spec r (22 - 1)),
           (Z.eqb_spec (Z.of_nat n) 0), (Z.eqb_spec (Z.of_nat n) (40 - 1));
    cbn [orb]; intros; try discriminate; lia.
Qed.

Lemma fillRow_loop (hex : list jsval) (r : Z) (w : world) (n : nat) :
  0 <= r < Z.of_nat (length (cave w)) ->
  (n <= 40)%nat ->
  exists w',
    forLoop n (fun col => fillCell hex r col) w = Normal w'
    /\ length (cave w') = length (cave w)
    /\ decoderFrame w w'
    /\ currentSeed w' = Nat.iter (rowDraws r n) lcg (currentSeed w)
    /\ forall r' c', cell (cave w') r' c'
         = if (r' =? r) && (0 <=? c') && (c' <? Z.of_nat n)
           then rowValue hex (currentSeed w) r c'
           else cell (cave w) r' c'.
Proof.
  intros Hr. induction n as [|n IH]; intros Hn.
  - exists w. split; [reflexivity|]. split; [reflexivity|].
    split; [apply decoderFrame_refl|].
    split; [unfold rowDraws; destruct (_ || _); reflexivity|].
    intros r' c'.
    replace ((r' =? r) && (0 <=? c') && (c' <? Z.of_nat 0)) with false by solve_tests.
    reflexivity.
  - destruct IH as (w1 & Hrun & Hlen & Hf & Hseed & Hcells); [lia|].
    rewrite forLoop_S, Hrun. cbn [bind].
    destruct (fillCell_spec hex r (Z.of_nat n) w1) as (w2 & Hcell & H2).
    { rewrite Hlen. exact Hr. }
    destruct H2 as (Hlen2 & Hseed2 & Hf2 & Hcells2).
    exists w2. split; [exact Hcell|]. split; [congruence|].
    split; [eapply decoderFrame_trans; eauto|].
    split.
    + rewrite Hseed2, Hseed, rowDraws_step by lia.
      destruct (isBorder r (Z.of_nat n)); reflexivity.
    + intros r' c'. rewrite Hcells2, Hcells, Hseed.
      destruct (Z.eqb_spec r' r) as [->|Hne]; cbn [andb]; [|reflexivity].
      destruct (Z.eqb_spec c' (Z.of_nat n)) as [->|Hc].
      * replace ((0 <=? Z.of_nat n) && (Z.of_nat n <? Z.of_nat (S n)))
          with true by solve_tests.
        unfold rowValue. destruct (isBorder r (Z.of_nat n)) eqn:Hb;
          [reflexivity|].
        rewrite <- (rowDraws_interior r n) by (lia || exact Hb). reflexivity.
      * replace ((0 <=? c') && (c' <? Z.of_nat (S n)))
          with ((0 <=? c') && (c' <? Z.of_nat n)) by solve_tests.
        reflexivity.
Qed.

Lemma gridDraws_step (m : nat) :
  (m < 22)%nat ->
  gridDraws (S m) = (rowDraws (Z.of_nat m) 40 + gridDraws m)%nat.
Proof.
  intros Hm. unfold gridDraws, rowDraws, rows, cols.
  change (Z.to_nat (40 - 2)) with 38%nat.
  destruct (Z.eqb_spec (Z.of_nat m) 0), (Z.eqb_spec (Z.of_nat m) (22 - 1));
    cbn [orb]; lia.
Qed.

Lemma rowValue_fillValue (hex : list jsval) (s : jsval) (m : nat) (c : Z) :
  (m < 22)%nat -> 0 <= c < cols ->
  rowValue hex (Nat.iter (gridDraws m) lcg s) (Z.of_nat m) c
  = fillValue hex s (Z.of_nat m) c.
Proof.
  intros Hm Hc. unfold rowValue, fillValue.
  destruct (isBorder (Z.of_nat m) c) eqn:Hb; [reflexivity|].
  rewrite <- Nat.iter_add. do 3 f_equal.
  revert Hb Hc. unfold isBorder, drawIndex, gridDraws, rows, cols.
  change (Z.to_nat (40 - 2)) with 38%nat.
  destruct (Z.eqb_spec (Z.of_nat m) 0), (Z.eqb_spec (Z.of_nat m) (22 - 1)),
           (Z.eqb_spec c 0), (Z.eqb_spec c (40 - 1));
    cbn [orb]; intros; try discriminate; lia.
Qed.

Lemma caveFill_loop (hex : list jsval) (w : world) (m : nat) :
  length (cave w) = Z.to_nat rows ->
  (m <= 22)%nat ->
  exists w',
    forLoop m (fun row =>
      forLoop (Z.to_nat cols) (fun col => fillCell hex row col)) w = Normal w'
    /\ length (cave w') = length (cave w)
    /\ decoderFrame w w'
    /\ currentSeed w' = Nat.iter (gridDraws m) lcg (currentSeed w)
    /\ forall r' c', cell (cave w') r' c'
         = if (0 <=? r') && (r' <? Z.of_nat m) && (0 <=? c') && (c' <? cols)
           then fillValue hex (currentSeed w) r' c'
           else cell (cave w) r' c'.
Proof.
  intros Hrows. induction m as [|m IH]; intros Hm.
  - exists w. split; [reflexivity|]. split; [reflexivity|].
    split; [apply decoderFrame_refl|]. split; [reflexivity|].
    intros r' c'.
    replace ((0 <=? r') && (r' <? Z.of_nat 0)) with false by solve_tests.
    reflexivity.
  - destruct IH as (w1 & Hrun & Hlen & Hf & Hseed & Hcells); [lia|].
    rewrite forLoop_S, Hrun. cbn [bind].
    destruct (fillRow_loop hex (Z.of_nat m) w1 40)
      as (w2 & Hrow & Hlen2 & Hf2 & Hseed2 & Hcells2).
    { rewrite Hlen, Hrows. unfold rows. lia. }
    { lia. }
    exists w2. split; [exact Hrow|]. split; [congruence|].
    split; [eapply decoderFrame_trans; eauto|].
    split.
    + rewrite Hseed2, Hseed, gridDraws_step by lia.
      rewrite Nat.iter_add. reflexivity.
    + intros r' c'. rewrite Hcells2, Hcells, Hseed.
      change (Z.of_nat 40) with cols.
      destruct (Z.eqb_spec r' (Z.of_nat m)) as [->|Hne]; cbn [andb].
      * replace ((0 <=? Z.of_nat m) && (Z.of_nat m <? Z.of_nat (S m)))
          with true by solve_tests.
        cbn [andb].
        destruct (Z.leb_spec 0 c'), (Z.ltb_spec c' cols); cbn [andb];
          try (rewrite rowValue_fillValue by lia; reflexivity);
          replace ((0 <=? Z.of_nat m) && (Z.of_nat m <? Z.of_nat m))
            with false by solve_tests; reflexivity.
      * replace ((0 <=? r') && (r' <? Z.of_nat (S m)))
          with ((0 <=? r') && (r' <? Z.of_nat m)) by solve_tests.
        reflexivity.
Qed.

(** C1.  On a grid of 22 rows and for a header that holds bytes at the
    fill offsets, the fill pass completes; it advances the generator 760
    times, once per interior cell, the draw of cell (r, c) being the one
    numbered (r - 1) * 38 + c; every border cell holds steel, and every
    interior cell holds the fill code of the first cumulative threshold
    that its draw is under (code [hex[0x18]] under T1, else [hex[0x19]]
    under T1+T2, else [hex[0x1A]] under T1+T2+T3, else [hex[0x1B]] under
    T1+T2+T3+T4), plain dirt when it is under none. *)
Theorem random_fill_pass (hex : list jsval) (w : world) :
  length (cave w) = Z.to_nat rows ->
  headerOk hex = true ->
  exists w',
    caveFill hex w = Normal w'
    /\ currentSeed w' = Nat.iter 760 lcg (currentSeed w)
    /\ (forall r c, 0 <= r < rows -> 0 <= c < cols -> isBorder r c = true ->
          cell (cave w') r c = JNum 0x07)
    /\ (forall r c, 0 <= r < rows -> 0 <= c < cols -> isBorder r c = false ->
          (1 <= drawIndex r c <= 760)%nat
          /\ cell (cave w') r c
             = fillSpec hex (JS.rem (Nat.iter (drawIndex r c) lcg (currentSeed w))
                                    (JNum 256)))
    /\ (forall r1 c1 r2 c2,
          isBorder r1 c1 = false -> isBorder r2 c2 = false ->
          0 <= r1 < rows -> 0 <= c1 < cols -> 0 <= r2 < rows -> 0 <= c2 < cols ->
          drawIndex r1 c1 = drawIndex r2 c2 -> (r1, c1) = (r2, c2)).
Proof.
  intros Hrows Hhdr.
  destruct (caveFill_loop hex w 22 Hrows ltac:(lia))
    as (w' & Hrun & _ & _ & Hseed & Hcells).
  assert (Hg : gridDraws 22 = 760%nat) by (vm_compute; reflexivity).
  rewrite Hg in Hseed.
  exists w'. split; [exact Hrun|]. split; [exact Hseed|].
  assert (Hin : forall r c, 0 <= r < rows -> 0 <= c < cols ->
                  cell (cave w') r c = fillValue hex (currentSeed w) r c).
  { intros r c Hr Hc. rewrite Hcells. unfold rows in Hr.
    replace ((0 <=? r) && (r <? Z.of_nat 22) && (0 <=? c) && (c <? cols))
      with true by solve_tests.
    reflexivity. }
  split; [|split].
  - intros r c Hr Hc Hb. rewrite Hin by assumption. unfold fillValue.
    rewrite Hb. reflexivity.
  - intros r c Hr Hc Hb. split.
    + revert Hb. unfold isBorder, drawIndex. unfold rows, cols in *.
      destruct (Z.eqb_spec r 0), (Z.eqb_spec r (22 - 1)),
               (Z.eqb_spec c 0), (Z.eqb_spec c (40 - 1));
        cbn [orb]; intros; try discriminate; lia.
    + rewrite Hin by assumption. unfold fillValue. rewrite Hb.
      apply fillCode_fillSpec. exact Hhdr.
  - intros r1 c1 r2 c2. unfold isBorder, drawIndex, rows, cols.
    destruct (Z.eqb_spec r1 0), (Z.eqb_spec r1 (22 - 1)),
             (Z.eqb_spec c1 0), (Z.eqb_spec c1 (40 - 1));
      cbn [orb]; intros; try discriminate.
    destruct (Z.eqb_spec r2 0), (Z.eqb_spec r2 (22 - 1)),
             (Z.eqb_spec c2 0), (Z.eqb_spec c2 (40 - 1));
      cbn [orb] in *; try discriminate.
    assert (r1 = r2 /\ c1 = c2) as [-> ->] by lia. reflexivity.
Qed.

(** The fill of cave 1 at difficulty 1 (seed 0x0A): the seventh draw, 0x13,
    is under the first threshold 0x3C and leaves a space; the twelfth,
    0x50, is under the second bound 0x6E and leaves a boulder. *)
Lemma random_fill_pass_witness :
  let hex := Hex.parse (default ""%string (rawCaveDatas !! 0%nat)) in
  exists w',
    caveFill hex (setSeed (hexAt hex 0x04) initialWorld) = Normal w'
    /\ cell (cave w') 0 7 = JNum 0x07
    /\ cell (cave w') 1 7 = JNum 0x00
    /\ cell (cave w') 1 12 = JNum 0x10.
Proof.
  intros hex.
  destruct (random_fill_pass hex (setSeed (hexAt hex 0x04) initialWorld))
    as (w' & Hrun & _ & Hborder & Hinner & _).
  - reflexivity.
  - vm_compute. reflexivity.
  - exists w'. split; [exact Hrun|]. split; [|split].
    + apply Hborder; [unfold rows; lia | unfold cols; lia | reflexivity].
    + destruct (Hinner 1 7) as [_ ->];
        [unfold rows; lia | unfold cols; lia | reflexivity |].
      vm_compute. reflexivity.
    + destruct (Hinner 1 12) as [_ ->];
        [unfold rows; lia | unfold cols; lia | reflexivity |].
      vm_compute. reflexivity.
Defined.

End RandomFill.

(** ** A stream without its sentinel *)

Section SentinelMissing.







End SentinelMissing.

(** ** The border of the built-in caves *)

Section Border.

Lemma cellsWhere_In (p : Z -> Z -> bool) (r c : Z) :
  0 <= r < rows -> 0 <= c < cols -> p r c = true -> In (r, c) (cellsWhere p).
Proof.
  intros Hr Hc Hp. unfold cellsWhere, rows, cols in *.
  apply in_flat_map. exists (Z.to_nat r). split; [apply in_seq; lia|].
  apply in_flat_map. exists (Z.to_nat c). split; [apply in_seq; lia|].
  rewrite !Z2Nat.id by lia. rewrite Hp. left. reflexivity.
Qed.

Lemma borderCheck_all :
  forallb (fun caveId => forallb (borderCheck caveId) difficultyIds) caveIds
  = true.
Proof. vm_cast_no_check (eq_refl true). Qed.

Lemma borderCheck_builtin (caveId difficultyId : Z) :
  1 <= caveId <= 20 -> 1 <= difficultyId <= 5 ->
  borderCheck caveId difficultyId = true.
Proof.
  intros Hc Hd. pose proof borderCheck_all as Hall.
  rewrite forallb_forall in Hall.
  specialize (Hall caveId). rewrite forallb_forall in Hall.
  apply Hall.
  - apply in_map_iff. exists (Z.to_nat caveId). split; [lia|apply in_seq; lia].
  - apply in_map_iff. exists (Z.to_nat difficultyId).
    split; [lia|apply in_seq; lia].
Qed.

(** Every built-in cave decodes at every difficulty. *)
Lemma caveLoad_builtin (caveId difficultyId : Z) :
  1 <= caveId <= 20 -> 1 <= difficultyId <= 5 ->
  exists w, caveLoad caveId difficultyId initialWorld = Some (Normal w).
Proof.
  intros Hc Hd. pose proof (borderCheck_builtin caveId difficultyId Hc Hd) as H.
  unfold borderCheck in H.
  destruct (caveLoad caveId difficultyId initialWorld) as [[w|w]|];
    [eauto | discriminate H..].
Qed.

Lemma JS_eq_num (v : jsval) (z : Z) : JS.eq v (JNum z) = true -> v = JNum z.
Proof.
  destruct v as [x| |]; cbn; try discriminate.
  intros H. apply Z.eqb_eq in H. congruence.
Qed.

Lemma cellAfterLoad_Some (caveId difficultyId r c : Z) (v : jsval) :
  cellAfterLoad caveId difficultyId r c = Some v ->
  exists w, caveLoad caveId difficultyId initialWorld = Some (Normal w)
            /\ cell (cave w) r c = v.
Proof.
  unfold cellAfterLoad.
  destruct (caveLoad caveId difficultyId initialWorld) as [[w|w]|];
    intros [=]; eauto.
Qed.

(** C7, as stated, fails: cave 3 decodes with its out-box (code 0x04) in
    the last column, at row 18. *)
Lemma border_all_steel_counterexample :
  ~ (forall caveId difficultyId w r c,
       1 <= caveId <= 20 -> 1 <= difficultyId <= 5 ->
       caveLoad caveId difficultyId initialWorld = Some (Normal w) ->
       0 <= r < rows -> 0 <= c < cols -> isBorder r c = true ->
       cell (cave w) r c = JNum 0x07).
Proof.
  intros H.
  destruct (cellAfterLoad_Some 3 1 18 39 (JNum 0x04)) as (w & Hload & Hcell);
    [vm_compute; reflexivity|].
  specialize (H 3 1 w 18 39 ltac:(lia) ltac:(lia) Hload
                ltac:(unfold rows; lia) ltac:(unfold cols; lia) eq_refl).
  congruence.
Qed.

(** C7, amended.  Every built-in cave decodes at every difficulty, and
    every border cell then holds the steel code 0x07 or the out-box code
    0x04; at most one border cell of a cave holds the out-box. *)
Theorem border_steel_or_outbox (caveId difficultyId : Z) :
  1 <= caveId <= 20 -> 1 <= difficultyId <= 5 ->
  exists w,
    caveLoad caveId difficultyId initialWorld = Some (Normal w)
    /\ (forall r c, 0 <= r < rows -> 0 <= c < cols -> isBorder r c = true ->
          cell (cave w) r c = JNum 0x07 \/ cell (cave w) r c = JNum 0x04)
    /\ (forall r1 c1 r2 c2,
          0 <= r1 < rows -> 0 <= c1 < cols -> isBorder r1 c1 = true ->
          0 <= r2 < rows -> 0 <= c2 < cols -> isBorder r2 c2 = true ->
          cell (cave w) r1 c1 = JNum 0x04 -> cell (cave w) r2 c2 = JNum 0x04 ->
          (r1, c1) = (r2, c2)).
Proof.
  intros Hc Hd.
  pose proof (borderCheck_builtin caveId difficultyId Hc Hd) as Hchk.
  unfold borderCheck in Hchk.
  destruct (caveLoad caveId difficultyId initialWorld) as [[w|w]|];
    [|discriminate Hchk..].
  apply andb_true_iff in Hchk. destruct Hchk as [Hcodes Hone].
  exists w. split; [reflexivity|]. split.
  - intros r c Hr Hcc Hb. rewrite forallb_forall in Hcodes.
    specialize (Hcodes (r, c) (cellsWhere_In isBorder r c Hr Hcc Hb)).
    cbn beta iota in Hcodes. apply orb_true_iff in Hcodes.
    destruct Hcodes as [H|H]; apply JS_eq_num in H; auto.
  - intros r1 c1 r2 c2 Hr1 Hc1 Hb1 Hr2 Hc2 Hb2 H1 H2.
    apply Nat.leb_le in Hone.
    set (p := fun '(r, c) => JS.eq (cell (cave w) r c) (JNum 0x04)) in Hone.
    assert (I1 : In (r1, c1) (List.filter p (cellsWhere isBorder))).
    { apply filter_In. split; [apply cellsWhere_In; assumption|].
      unfold p. rewrite H1. reflexivity. }
    assert (I2 : In (r2, c2) (List.filter p (cellsWhere isBorder))).
    { apply filter_In. split; [apply cellsWhere_In; assumption|].
      unfold p. rewrite H2. reflexivity. }
    destruct (List.filter p (cellsWhere isBorder)) as [|x [|y l]];
      cbn [length] in Hone; [destruct I1 | | lia].
    destruct I1 as [<-|[]], I2 as [<-|[]]. reflexivity.
Qed.

(** Cave 3, first difficulty: the corners are steel, the exit is in the
    right border. *)
Lemma border_steel_or_outbox_witness :
  exists w,
    caveLoad 3 1 initialWorld = Some (Normal w)
    /\ (cell (cave w) 18 39 = JNum 0x07 \/ cell (cave w) 18 39 = JNum 0x04)
    /\ (cell (cave w) 0 0 = JNum 0x07 \/ cell (cave w) 0 0 = JNum 0x04).
Proof.
  destruct (border_steel_or_outbox 3 1 ltac:(lia) ltac:(lia))
    as (w & Hload & Hcells & _).
  exists w. split; [exact Hload|]. split.
  - apply Hcells; [unfold rows; lia | unfold cols; lia | reflexivity].
  - apply Hcells; [unfold rows; lia | unfold cols; lia | reflexivity].
Defined.

End Border.

(** ** One sprite per cell *)

Section Exclusivity.

Lemma getSpriteAt_None (c r : Z) (ss : list sprite) :
  getSpriteAt c r ss = None -> (c, r) ∉ coord <$> ss.
Proof.
  unfold getSpriteAt. rewrite list_find_None, Forall_forall.
  intros Hall Hin. apply list_elem_of_fmap in Hin.
  destruct Hin as (s & Heq & Hs). apply (Hall s Hs).
  unfold coord in Heq. injection Heq as -> ->. split; reflexivity.
Qed.

Lemma getSpriteAt_Some (c r : Z) (ss : list sprite) (t : nat) (s : sprite) :
  getSpriteAt c r ss = Some (t, s) -> ss !! t = Some s /\ coord s = (c, r).
Proof.
  unfold getSpriteAt. rewrite list_find_Some. intros (Ht & [Hc Hr] & _).
  split; [exact Ht|]. unfold coord. rewrite Hc, Hr. reflexivity.
Qed.

Lemma elem_of_insert_inv {A} (l : list A) (i : nat) (x z : A) :
  z ∈ <[i := x]> l -> z = x \/ z ∈ l.
Proof.
  revert i. induction l as [|y l IH]; intros [|i]; cbn; intros H;
    try (right; exact H).
  - apply elem_of_cons in H. destruct H as [->|H]; [left; reflexivity|].
    right. apply elem_of_cons. right. exact H.
  - apply elem_of_cons in H. destruct H as [->|H].
    + right. apply elem_of_cons. left. reflexivity.
    + destruct (IH _ H) as [->|H']; [left; reflexivity|].
      right. apply elem_of_cons. right. exact H'.
Qed.

Lemma NoDup_insert_fresh {A} (l : list A) (i : nat) (x : A) :
  NoDup l -> x ∉ l -> NoDup (<[i := x]> l).
Proof.
  revert i. induction l as [|y l IH]; intros [|i] Hnd Hx; cbn;
    try exact Hnd.
  - apply NoDup_cons in Hnd. destruct Hnd as [_ Hnd].
    apply NoDup_cons. split; [|exact Hnd].
    intros H. apply Hx. apply elem_of_cons. right. exact H.
  - apply NoDup_cons in Hnd. destruct Hnd as [Hy Hnd].
    apply NoDup_cons. split.
    + intros H. apply elem_of_insert_inv in H. destruct H as [->|H].
      * apply Hx. apply elem_of_cons. left. reflexivity.
      * exact (Hy H).
    + apply IH; [exact Hnd|]. intros H. apply Hx. apply elem_of_cons.
      right. exact H.
Qed.

Lemma NoDup_delete {A} (l : list A) (i : nat) : NoDup l -> NoDup (delete i l).
Proof. intros H. eapply sublist_NoDup; [exact H | apply sublist_delete]. Qed.

Lemma NoDup_delete_insert {A} (l : list A) (t k : nat) (x : A) :
  NoDup l -> l !! t = Some x -> t <> k -> NoDup (delete t (<[k := x]> l)).
Proof.
  revert t k. induction l as [|y l IH]; intros t k Hnd Ht Hne;
    [discriminate|].
  apply NoDup_cons in Hnd. destruct Hnd as [Hy Hnd].
  destruct t as [|t], k as [|k]; cbn in *; simplify_eq.
  - apply NoDup_insert_fresh; assumption.
  - apply NoDup_cons. split; [|apply NoDup_delete; exact Hnd].
    pose proof (delete_Permutation l t x Ht) as Hp.
    rewrite Hp in Hnd. apply NoDup_cons in Hnd. tauto.
  - apply NoDup_cons. split; [|apply IH; [assumption..|congruence]].
    intros H. apply list_elem_of_delete_inv, elem_of_insert_inv in H.
    destruct H as [->|H]; [|exact (Hy H)].
    apply Hy. eapply list_elem_of_lookup_2. exact Ht.
Qed.

Lemma coord_alter (f : sprite -> sprite) (i : nat) (ss : list sprite)
    (s : sprite) :
  ss !! i = Some s ->
  coord <$> alter f i ss = <[i := coord (f s)]> (coord <$> ss).
Proof.
  intros Hi. rewrite (alter_at _ _ _ _ Hi). apply list_fmap_insert.
Qed.

(** Moving one sprite to a cell that no sprite occupies. *)
Lemma exclusive_move (f : sprite -> sprite) (i : nat) (ss : list sprite)
    (s : sprite) (c r : Z) :
  exclusive ss -> ss !! i = Some s -> coord (f s) = (c, r) ->
  getSpriteAt c r ss = None ->
  exclusive (alter f i ss).
Proof.
  unfold exclusive. intros Hnd Hi Hc Hfree.
  rewrite (coord_alter _ _ _ _ Hi), Hc.
  apply NoDup_insert_fresh; [exact Hnd | apply getSpriteAt_None; exact Hfree].
Qed.

(** Changing fields other than the position. *)
Lemma exclusive_same_place (f : sprite -> sprite) (i : nat) (ss : list sprite) :
  (forall s, coord (f s) = coord s) -> exclusive ss -> exclusive (alter f i ss).
Proof.
  unfold exclusive. intros Hf Hnd.
  rewrite (list_fmap_alter coord f (fun x => x))
    by (apply Forall_forall; intros; apply Hf).
  rewrite list_alter_id by reflexivity. exact Hnd.
Qed.

Lemma insertSprite_perm (a : sprite) (l : list sprite) :
  insertSprite a l ≡ₚ a :: l.
Proof.
  induction l as [|b l IH]; cbn; [reflexivity|].
  destruct (_ <=? _); [reflexivity|]. rewrite IH. apply Permutation_swap.
Qed.

Lemma sortSprites_perm (l : list sprite) : sortSprites l ≡ₚ l.
Proof.
  induction l as [|a l IH]; cbn; [reflexivity|].
  rewrite insertSprite_perm, IH. reflexivity.
Qed.

Lemma orderSprites_exclusive (w : world) :
  exclusive (sprites w) -> exclusive (sprites (orderSprites w)).
Proof.
  unfold exclusive, orderSprites. cbn [sprites setSprites].
  rewrite sortSprites_perm. trivial.
Qed.

Lemma fallSprite_exclusive (i : nat) (w : world) :
  exclusive (sprites w) -> exclusive (sprites (fallSprite i w)).
Proof.
  intros Hex. unfold fallSprite.
  destruct (sprites w !! i) as [s|] eqn:Hi; [|exact Hex].
  cbv zeta. change (fst (getSpriteCoord s)) with (col s).
  change (snd (getSpriteCoord s)) with (row s).
  destruct (getSpriteAt (col s) (row s + 1) (sprites w)) as [[nb below]|] eqn:Hb.
  - destruct (rounded below).
    + destruct (getSpriteAt (col s - 1) (row s) (sprites w)) as [[]|] eqn:Hl;
        [|destruct (getSpriteAt (col s - 1) (row s + 1) (sprites w)) as [[]|]];
        try (cbn [sprites setSprites];
             eapply (exclusive_move _ i _ s (col s - 1) (row s));
             [exact Hex | exact Hi | reflexivity | exact Hl]);
        (destruct (getSpriteAt (col s + 1) (row s) (sprites w)) as [[]|] eqn:Hr;
         [|destruct (getSpriteAt (col s + 1) (row s + 1) (sprites w)) as [[]|]];
         cbn [sprites setSprites];
         try (apply exclusive_same_place; [reflexivity | exact Hex]);
         eapply (exclusive_move _ i _ s (col s + 1) (row s));
         [exact Hex | exact Hi | reflexivity | exact Hr]).
    + destruct (explodable s); [exact Hex|].
      cbn [sprites setSprites].
      apply exclusive_same_place; [reflexivity | exact Hex].
  - cbn [sprites setSprites].
    eapply (exclusive_move _ i _ s (col s) (row s + 1));
      [exact Hex | exact Hi | reflexivity | exact Hb].
Qed.

Lemma updateFalling_exclusive (w : world) :
  exclusive (sprites w) -> exclusive (sprites (updateFalling w)).
Proof.
  unfold updateFalling. generalize (fallables (sprites w)) as l. intros l.
  revert w. induction l as [|i l IH]; intros w Hex; cbn [fold_left];
    [exact Hex|].
  apply IH, fallSprite_exclusive, Hex.
Qed.

Lemma animateSprite_coord (s : sprite) : coord (animateSprite s) = coord s.
Proof. unfold animateSprite. repeat case_match; reflexivity. Qed.

Lemma updateAnimated_exclusive (w : world) :
  exclusive (sprites w) -> exclusive (sprites (updateAnimated w)).
Proof.
  unfold exclusive, updateAnimated. cbn [sprites setSprites].
  replace (coord <$> map animateSprite (sprites w)) with (coord <$> sprites w);
    [trivial|].
  induction (sprites w) as [|s l IH]; cbn; [reflexivity|].
  rewrite animateSprite_coord. f_equal. exact IH.
Qed.

Lemma updatePlayer_exclusive (w : world) :
  exclusive (sprites w) ->
  match updatePlayer w with
  | Normal w' | Thrown w' => exclusive (sprites w')
  end.
Proof.
  intros Hex. unfold updatePlayer.
  destruct (findNamed "inbox" (sprites w)) as [[i inbox]|] eqn:Hin.
  - destruct (animCycle inbox =? 0); [|exact Hex].
    destruct (typeNamed "rockford") as [t|]; [|exact Hex].
    cbn [sprites setSprites appendSprites logTo].
    apply list_find_Some in Hin. destruct Hin as (Hi & _ & _).
    unfold exclusive in *.
    pose proof (lookup_lt_Some _ _ _ Hi) as Hlt.
    rewrite delete_take_drop, take_app_le, drop_app_le by lia.
    rewrite app_assoc, <- delete_take_drop, fmap_app.
    cbn [fmap list_fmap]. unfold coord at 2.
    destruct (newSprite_flags (col inbox) (row inbox) t) as (_ & _ & -> & ->).
    rewrite <- Permutation_cons_append.
    change (col inbox, row inbox) with (coord inbox).
    rewrite <- fmap_cons, <- (delete_Permutation _ _ _ Hi). exact Hex.
  - destruct (negb (getDirectionFromJoypad w =? 0)) eqn:Hd; [|exact Hex].
    destruct (findNamed "rockford" (sprites w)) as [[k rf]|] eqn:Hrf;
      [|exact Hex].
    apply list_find_Some in Hrf. destruct Hrf as (Hk & _ & _).
    destruct (getDXDYFromDirection _) as [dx dy] eqn:Hdxy.
    destruct (getSpriteAt (col rf + dx) (row rf + dy) (sprites w))
      as [[t target]|] eqn:Ht.
    + destruct (_ || _); [|exact Hex].
      cbn [sprites setSprites]. unfold exclusive in *.
      rewrite list_fmap_delete, (coord_alter _ _ _ _ Hk).
      apply getSpriteAt_Some in Ht. destruct Ht as [Ht Hc].
      change (coord (moveBy dx dy rf)) with (col rf + dx, row rf + dy).
      apply NoDup_delete_insert; [exact Hex | |].
      * rewrite list_lookup_fmap, Ht. cbn. rewrite Hc. reflexivity.
      * intros ->. rewrite Hk in Ht. injection Ht as <-.
        unfold coord in Hc. injection Hc as Hc1 Hc2.
        unfold getDirectionFromJoypad in Hdxy, Hd.
        repeat case_match; cbn in Hdxy, Hd; simplify_eq; lia.
    + cbn [sprites setSprites].
      eapply exclusive_move; [exact Hex | exact Hk | reflexivity | exact Ht].
Qed.

Lemma expandedBelow_mono (k k' : Z) (ss : list sprite) :
  k <= k' -> expandedBelow k ss -> expandedBelow k' ss.
Proof.
  intros Hk [Hex Hall]. split; [exact Hex|].
  eapply Forall_impl; [exact Hall|]. cbn. intros s [? ?]. split; lia.
Qed.

Lemma expandCell_below (r c : Z) (w : world) :
  0 <= c < cols ->
  expandedBelow (r * cols + c) (sprites w) ->
  expandedBelow (r * cols + c + 1) (sprites (expandCell r c w)).
Proof.
  intros Hc Hbelow. unfold expandCell.
  destruct (JS.eq _ _); [apply (expandedBelow_mono (r * cols + c)); [lia|assumption]|].
  destruct (List.find _ types) as [t|];
    [|apply (expandedBelow_mono (r * cols + c)); [lia|assumption]].
  cbn [sprites appendSprites setSprites].
  destruct Hbelow as [Hex Hall].
  destruct (newSprite_flags c r t) as (_ & _ & Hcol & Hrow).
  split.
  - unfold exclusive in *. rewrite fmap_app. apply NoDup_app.
    split; [exact Hex|]. split; [|apply NoDup_singleton].
    intros p Hp Hq. apply list_elem_of_singleton in Hq. subst p.
    apply list_elem_of_fmap in Hp. destruct Hp as (s & Heq & Hs).
    rewrite Forall_forall in Hall. destruct (Hall s Hs) as [_ Hlt].
    rewrite <- Heq in Hlt. unfold cellKey, coord in Hlt. cbn [fst snd] in Hlt.
    rewrite Hcol, Hrow in Hlt. lia.
  - apply Forall_app. split.
    + eapply Forall_impl; [exact Hall|]. cbn. intros s [? ?]. split; lia.
    + apply Forall_singleton. unfold cellKey, coord. cbn [fst snd].
      rewrite Hcol, Hrow. lia.
Qed.

Lemma forEachIndex_S n body w :
  forEachIndex (S n) body w = body (Z.of_nat n) (forEachIndex n body w).
Proof. unfold forEachIndex. rewrite seq_S, fold_left_app. reflexivity. Qed.

Lemma expandRow_below (r : Z) (n : nat) (w : world) :
  (n <= Z.to_nat cols)%nat ->
  expandedBelow (r * cols) (sprites w) ->
  expandedBelow (r * cols + Z.of_nat n)
    (sprites (forEachIndex n (fun c => expandCell r c) w)).
Proof.
  intros Hn Hbelow. induction n as [|n IH].
  - cbn. rewrite Z.add_0_r. exact Hbelow.
  - rewrite forEachIndex_S.
    replace (r * cols + Z.of_nat (S n)) with (r * cols + Z.of_nat n + 1) by lia.
    apply expandCell_below; [unfold cols in *; lia|]. apply IH. lia.
Qed.

Lemma expandRows_below (m : nat) (w : world) :
  expandedBelow 0 (sprites w) ->
  expandedBelow (Z.of_nat m * cols)
    (sprites (forEachIndex m (fun r =>
       forEachIndex (Z.to_nat cols) (fun c => expandCell r c)) w)).
Proof.
  intros Hbelow. induction m as [|m IH].
  - exact Hbelow.
  - rewrite forEachIndex_S.
    replace (Z.of_nat (S m) * cols)
      with (Z.of_nat m * cols + Z.of_nat (Z.to_nat cols)) by (unfold cols; lia).
    apply expandRow_below; [lia | exact IH].
Qed.

(** The expansion of any grid puts at most one sprite on a cell. *)
Lemma expandCave_exclusive (w : world) : exclusive (sprites (expandCave w)).
Proof.
  unfold expandCave.
  apply (expandRows_below (Z.to_nat rows) (setSprites w [])).
  split; [apply NoDup_nil_2 | apply Forall_nil_2].
Qed.

Lemma update_exclusive (w : world) :
  exclusive (sprites w) ->
  match update w with
  | Normal w' | Thrown w' => exclusive (sprites w')
  end.
Proof.
  intros Hex. unfold update. pose proof (updatePlayer_exclusive w Hex) as Hp.
  destruct (updatePlayer w) as [w1|w1]; cbn [bind]; [|exact Hp].
  apply updateAnimated_exclusive, updateFalling_exclusive,
        orderSprites_exclusive, Hp.
Qed.

Lemma sprites_setRunning (w : world) (b : bool) :
  sprites (setRunning w b) = sprites w.
Proof. reflexivity. Qed.

Lemma boot_exclusive (table : list string) (caveId difficultyId : Z)
    (w0 w : world) :
  exclusive (sprites w0) ->
  bootFrom table caveId difficultyId w0 = Some w ->
  exclusive (sprites w).
Proof.
  intros Hex Hboot. unfold bootFrom, setupFrom in Hboot.
  destruct (caveLoadFrom table caveId difficultyId w0) as [[w1|w1]|] eqn:Hload;
    [| |discriminate Hboot].
  - injection Hboot as <-. rewrite sprites_setRunning.
    apply expandCave_exclusive.
  - injection Hboot as <-.
    assert (Hs : sprites w1 = sprites w0); [|rewrite Hs; exact Hex].
    unfold caveLoadFrom in Hload.
    destruct (caveId - 1 <? 0); [injection Hload as <-; reflexivity|].
    destruct (table !! Z.to_nat (caveId - 1)) as [raw|];
      [|injection Hload as <-; reflexivity].
    apply caveDecode_decoderFrame in Hload. apply Hload.
Qed.

(** C4.  In every state that the page reaches at a tick boundary, no two
    sprites of the array have the same column and row. *)
Theorem sprite_exclusivity (w : world) :
  reachable w -> exclusive (sprites w).
Proof.
  induction 1 as [table cid did w Hboot | w j _ IH
                 | w w' _ IH _ Hup | w w' _ IH _ Hup].
  - apply (boot_exclusive table cid did initialWorld w);
      [apply NoDup_nil_2 | exact Hboot].
  - exact IH.
  - pose proof (update_exclusive w IH) as H. rewrite Hup in H. exact H.
  - pose proof (update_exclusive w IH) as H. rewrite Hup in H. exact H.
Qed.

Lemma bootFrom_loaded (table : list string) (caveId difficultyId : Z)
    (w0 w1 : world) :
  caveLoadFrom table caveId difficultyId w0 = Some (Normal w1) ->
  bootFrom table caveId difficultyId w0 = Some (setRunning (expandCave w1) true).
Proof. intros H. unfold bootFrom, setupFrom. rewrite H. reflexivity. Qed.

Lemma caveLoad_unfold (caveId difficultyId : Z) (w : world) :
  caveLoad caveId difficultyId w = caveLoadFrom rawCaveDatas caveId difficultyId w.
Proof. reflexivity. Qed.

Lemma running_setRunning (w : world) (b : bool) : running (setRunning w b) = b.
Proof. reflexivity. Qed.

(** Cave 1 at the first difficulty, right after the entry point. *)
Lemma sprite_exclusivity_witness :
  exists w,
    bootFrom rawCaveDatas 1 1 initialWorld = Some w
    /\ running w = true
    /\ exclusive (sprites w).
Proof.
  destruct (caveLoad_builtin 1 1 ltac:(lia) ltac:(lia)) as (w1 & Hload).
  rewrite caveLoad_unfold in Hload.
  pose proof (bootFrom_loaded _ _ _ _ _ Hload) as Hboot.
  exists (setRunning (expandCave w1) true).
  split; [exact Hboot|]. split; [apply running_setRunning|].
  apply sprite_exclusivity. exact (reach_boot _ _ _ _ Hboot).
Defined.

End Exclusivity.

(** ** More on the generator *)

Section PrngMore.

Lemma lcg_range (s : Z) :
  - 2 ^ 32 < s < 2 ^ 32 ->
  exists s', lcg (JNum s) = JNum s'
             /\ - 2 ^ 32 < s' < 2 ^ 32
             /\ - 2 ^ 53 < LCG_MULTIPLIER * s + LCG_INCREMENT < 2 ^ 53
             /\ (0 <= s -> 0 <= s').
Proof.
  intros Hs. unfold lcg, JS.rem, JS.add, JS.mul, JS.arith. cbn [toNumber].
  change (LCG_MODULUS =? 0) with false. cbn iota.
  eexists. split; [reflexivity|].
  pose proof (Z.rem_bound_abs (LCG_MULTIPLIER * s + LCG_INCREMENT) LCG_MODULUS
                ltac:(discriminate)) as Hb.
  unfold LCG_MULTIPLIER, LCG_INCREMENT, LCG_MODULUS in *.
  split; [lia|]. split; [lia|].
  intros Hpos. apply Z.rem_nonneg; lia.
Qed.

Lemma currentSeed_skipRandom (n : nat) (w : world) :
  currentSeed (skipRandom n w) = Nat.iter n lcg (currentSeed w).
Proof.
  induction n as [|n IH]; [reflexivity|].
  unfold skipRandom in *. rewrite !Nat.iter_succ, <- IH. reflexivity.
Qed.

Lemma setSeed_range (seed : Z) (w : world) :
  exists s0, currentSeed (setSeed (JNum seed) w) = JNum s0
             /\ - 2 ^ 32 < s0 < 2 ^ 32 /\ (0 <= seed -> 0 <= s0).
Proof.
  unfold setSeed, JS.rem, JS.floor. cbn [toNumber currentSeed setCurrentSeed].
  change (LCG_MODULUS =? 0) with false. cbn iota. eexists. split; [reflexivity|].
  pose proof (Z.rem_bound_abs seed LCG_MODULUS ltac:(discriminate)) as Hb.
  unfold LCG_MODULUS in *. split; [lia|]. intros. apply Z.rem_nonneg; lia.
Qed.

Lemma iter_lcg_range (n : nat) (s0 : Z) :
  - 2 ^ 32 < s0 < 2 ^ 32 ->
  exists s, Nat.iter n lcg (JNum s0) = JNum s
            /\ - 2 ^ 32 < s < 2 ^ 32 /\ (0 <= s0 -> 0 <= s).
Proof.
  intros Hr0. induction n as [|n (s & Hs & Hr & Hp)].
  - exists s0. split; [reflexivity|]. split; [exact Hr0 | trivial].
  - rewrite Nat.iter_succ, Hs.
    destruct (lcg_range s Hr) as (s' & Hs' & Hr' & _ & Hp').
    exists s'. split; [exact Hs'|]. split; [exact Hr'|]. auto.
Qed.

(** X1.  Whatever integer the generator is seeded with, after any number
    of draws its state is an integer of magnitude below 2^32 and the value
    that the next step computes before the reduction has magnitude below
    2^53, so the double arithmetic of the source is exact; for a seed that
    is not negative every state is in [0, 2^32) and every byte drawn is in
    [0, 255]. *)
Theorem prng_state_invariant (seed : Z) (n : nat) (w : world) :
  exists s,
    currentSeed (skipRandom n (setSeed (JNum seed) w)) = JNum s
    /\ - 2 ^ 32 < s < 2 ^ 32
    /\ - 2 ^ 53 < LCG_MULTIPLIER * s + LCG_INCREMENT < 2 ^ 53
    /\ (0 <= seed ->
        0 <= s < 2 ^ 32
        /\ exists b, fst (randInt255 (skipRandom n (setSeed (JNum seed) w)))
                     = JNum b /\ 0 <= b <= 255).
Proof.
  destruct (setSeed_range seed w) as (s0 & Hs0 & Hr0 & Hp0).
  destruct (iter_lcg_range n s0 Hr0) as (s & Hs & Hr & Hp).
  assert (Hcur : currentSeed (skipRandom n (setSeed (JNum seed) w)) = JNum s).
  { rewrite currentSeed_skipRandom, Hs0. exact Hs. }
  destruct (lcg_range s Hr) as (s' & Hs' & Hr' & Hex & Hp').
  exists s. split; [exact Hcur|]. split; [exact Hr|]. split; [exact Hex|].
  intros Hseed. split; [lia|].
  unfold randInt255, nextRandom. cbn [fst snd currentSeed setCurrentSeed].
  rewrite Hcur, Hs'. unfold JS.rem. cbn [toNumber].
  change (256 =? 0) with false. cbn iota. eexists. split; [reflexivity|].
  rewrite Z.rem_mod_nonneg by lia. pose proof (Z.mod_pos_bound s' 256). lia.
Qed.

Lemma lcg_low_byte (s : Z) :
  0 <= s ->
  exists s', lcg (JNum s) = JNum s' /\ 0 <= s' < 2 ^ 32
             /\ s' mod 256 = lowByteStep (s mod 256).
Proof.
  intros Hs. rewrite lcg_num by exact Hs. eexists. split; [reflexivity|].
  split; [apply Z.mod_pos_bound; reflexivity|].
  unfold lowByteStep, LCG_MULTIPLIER, LCG_INCREMENT, LCG_MODULUS.
  rewrite Z.mod_mod_divide by (exists (2 ^ 24); reflexivity).
  replace (1664525 * s + 1013904223)
    with (13 * s + 95 + (6502 * s + 3960563) * 256) by lia.
  rewrite Z.mod_add by lia.
  rewrite (Z.add_mod (13 * s)), (Z.add_mod (13 * (s mod 256))) by lia.
  rewrite Z.mul_mod_idemp_r by lia. reflexivity.
Qed.

Lemma iter_lcg_low_byte (n : nat) (s : Z) :
  0 <= s ->
  exists s', Nat.iter n lcg (JNum s) = JNum s' /\ 0 <= s'
             /\ s' mod 256 = Nat.iter n lowByteStep (s mod 256).
Proof.
  intros Hs. induction n as [|n (s1 & H1 & Hp & Hb)].
  - exists s. repeat split; [exact Hs].
  - rewrite !Nat.iter_succ, H1.
    destruct (lcg_low_byte s1 Hp) as (s2 & H2 & Hr & Hl).
    exists s2. split; [exact H2|]. split; [lia|]. rewrite Hl, Hb. reflexivity.
Qed.

(** The low byte walks through a cycle of length 256. *)
Lemma lowByteStep_cycle :
  forallb (fun b => Nat.iter 256 lowByteStep (Z.of_nat b) =? Z.of_nat b)
          (seq 0 256) = true.
Proof. vm_compute. reflexivity. Qed.

(** X2.  The bytes of [randInt255] repeat with period 256: from a state in
    [0, 2^32), the byte drawn after [n + 256] earlier draws is the byte
    drawn after [n] earlier draws.  (The low eight bits of the state
    follow [x -> 13 x + 95 mod 256] on their own.) *)
Theorem randInt255_period (w : world) (s : Z) (n : nat) :
  currentSeed w = JNum s ->
  0 <= s < 2 ^ 32 ->
  fst (randInt255 (skipRandom (n + 256) w)) = fst (randInt255 (skipRandom n w)).
Proof.
  intros Hw Hs.
  assert (Hbyte : forall k, exists s',
             Nat.iter (S k) lcg (JNum s) = JNum s' /\ 0 <= s'
             /\ fst (randInt255 (skipRandom k w)) = JNum (s' mod 256)).
  { intros k. destruct (iter_lcg_low_byte (S k) s ltac:(lia)) as (s' & H1 & Hp & _).
    exists s'. split; [exact H1|]. split; [exact Hp|].
    unfold randInt255, nextRandom. cbn [fst snd currentSeed setCurrentSeed].
    rewrite currentSeed_skipRandom, Hw, <- Nat.iter_succ, H1.
    unfold JS.rem. cbn [toNumber]. change (256 =? 0) with false. cbn iota.
    rewrite Z.rem_mod_nonneg by lia. reflexivity. }
  destruct (Hbyte (n + 256)%nat) as (s1 & H1 & Hp1 & ->).
  destruct (Hbyte n) as (s2 & H2 & Hp2 & ->).
  f_equal.
  destruct (iter_lcg_low_byte (S (n + 256)) s ltac:(lia)) as (t1 & G1 & _ & L1).
  destruct (iter_lcg_low_byte (S n) s ltac:(lia)) as (t2 & G2 & _ & L2).
  rewrite H1 in G1. rewrite H2 in G2. injection G1 as <-. injection G2 as <-.
  rewrite L1, L2.
  replace (S (n + 256)) with (S n + 256)%nat by lia.
  rewrite Nat.iter_add. f_equal.
  pose proof lowByteStep_cycle as Hc. rewrite forallb_forall in Hc.
  pose proof (Z.mod_pos_bound s 256 ltac:(lia)) as Hm.
  specialize (Hc (Z.to_nat (s mod 256))).
  rewrite Z2Nat.id in Hc by lia. apply Z.eqb_eq, Hc, in_seq. lia.
Qed.

(** From the seed of cave 1, difficulty 1: draws 1 and 257 agree. *)
Lemma randInt255_period_witness :
  fst (randInt255 (skipRandom 256 (setSeed (JNum 10) initialWorld)))
  = fst (randInt255 (setSeed (JNum 10) initialWorld)).
Proof.
  exact (randInt255_period (setSeed (JNum 10) initialWorld) 10 0
           eq_refl ltac:(lia)).
Defined.

End PrngMore.

(** ** Keyboard *)

Section Keys.

Lemma keyRoundTripCheck_all :
  forallb (fun j => forallb (keyRoundTripCheck (Z.of_nat j)) buttons)
          (seq 0 256) = true.
Proof. vm_compute. reflexivity. Qed.

Lemma keyMask_button (code : string) (mask : Z) :
  keyMask code = Some mask -> In mask buttons.
Proof.
  unfold keyMask, buttons.
  repeat match goal with
         | |- context [String.eqb code ?x] => destruct (String.eqb code x)
         end; intros [=]; subst; cbn; tauto.
Qed.

(** X3.  The two key handlers on a button mask that fits a byte: after
    [keyDownHandler] the button of the key reads as pressed, after
    [keyUpHandler] as released; neither changes how any other button
    reads, neither takes the mask out of [0, 255], neither touches
    anything but [joypad]; releasing after pressing is the same as
    releasing, pressing after releasing the same as pressing, and a key
    with no button changes nothing. *)
Theorem key_handlers (w : world) (code : string) :
  0 <= joypad w <= 255 ->
  match keyMask code with
  | None => keyDownHandler code w = w /\ keyUpHandler code w = w
  | Some mask =>
      let down := keyDownHandler code w in
      let up := keyUpHandler code w in
      isJoypadPressed mask down = true
      /\ isJoypadPressed mask up = false
      /\ 0 <= joypad down <= 255 /\ 0 <= joypad up <= 255
      /\ (forall m, In m buttons -> m <> mask ->
            isJoypadPressed m down = isJoypadPressed m w
            /\ isJoypadPressed m up = isJoypadPressed m w)
      /\ keyUpHandler code down = up
      /\ keyDownHandler code up = down
      /\ keyDownHandler code down = down
      /\ (if isJoypadPressed mask w then down = w else up = w)
      /\ cave down = cave w /\ cave up = cave w
      /\ sprites down = sprites w /\ sprites up = sprites w
  end.
Proof.
  intros Hj. destruct (keyMask code) as [mask|] eqn:Hk.
  - pose proof keyRoundTripCheck_all as Hall. rewrite forallb_forall in Hall.
    specialize (Hall (Z.to_nat (joypad w)) ltac:(apply in_seq; lia)).
    rewrite forallb_forall in Hall.
    specialize (Hall mask (keyMask_button code mask Hk)).
    rewrite Z2Nat.id in Hall by lia.
    unfold keyRoundTripCheck in Hall. cbv zeta in Hall.
    rewrite !andb_true_iff in Hall.
    destruct Hall as ((((((((((H1 & H2) & H3) & H4) & H5) & H6) & H7) & H8) & H9)
                        & H10) & H11).
    apply negb_true_iff in H2.
    apply Z.leb_le in H3, H4, H5, H6. apply Z.eqb_eq in H7, H8, H9.
    cbv zeta. unfold keyDownHandler, keyUpHandler, isJoypadPressed. rewrite Hk.
    cbn [joypad setJoypad cave currentSeed sprites console running].
    fold (pressedIn (bor (joypad w) mask) mask).
    fold (pressedIn (JS.band (JNum (joypad w)) (JNum (bnot mask))) mask).
    split; [exact H1|]. split; [exact H2|]. split; [lia|]. split; [lia|].
    split; [|split; [|split; [|split; [|split]]]].
    + intros m Hm Hne. rewrite forallb_forall in H11. specialize (H11 m Hm).
      apply orb_true_iff in H11. destruct H11 as [H11|H11];
        [apply Z.eqb_eq in H11; contradiction|].
      apply andb_true_iff in H11. destruct H11 as [Ha Hb].
      apply Bool.eqb_prop in Ha, Hb. split; [exact Ha | exact Hb].
    + unfold setJoypad. cbn [joypad cave currentSeed sprites console running].
      rewrite H7. reflexivity.
    + unfold setJoypad. cbn [joypad cave currentSeed sprites console running].
      rewrite H8. reflexivity.
    + unfold setJoypad. cbn [joypad cave currentSeed sprites console running].
      rewrite H9. reflexivity.
    + fold (pressedIn (joypad w) mask).
      destruct (pressedIn (joypad w) mask); apply Z.eqb_eq in H10;
        rewrite H10; destruct w; reflexivity.
    + repeat split.
  - unfold keyDownHandler, keyUpHandler. rewrite Hk. split; reflexivity.
Qed.

(** Up held, then right pressed and released. *)
Lemma key_handlers_witness :
  let w := keyDownHandler "ArrowUp" initialWorld in
  joypad (keyDownHandler "ArrowRight" w) = 3
  /\ joypad (keyUpHandler "ArrowRight" (keyDownHandler "ArrowRight" w)) = 1.
Proof.
  intros w.
  pose proof (key_handlers w "ArrowRight" ltac:(vm_compute; split; discriminate))
    as H.
  change (keyMask "ArrowRight") with (Some JOYPAD_RIGHT) in H. cbv zeta in H.
  destruct H as (_ & _ & _ & _ & _ & Hud & _).
  split; [reflexivity|]. rewrite Hud. reflexivity.
Defined.

(** X4.  The direction that a tick reads from the buttons: up wins over
    right, right over down, down over left; it is 0 exactly when no arrow
    is down; the other four buttons never matter; and the step it stands
    for is never diagonal. *)
Theorem direction_from_joypad (w : world) :
  let d := getDirectionFromJoypad w in
  let up := isJoypadPressed JOYPAD_UP w in
  let right := isJoypadPressed JOYPAD_RIGHT w in
  let down := isJoypadPressed JOYPAD_DOWN w in
  let left := isJoypadPressed JOYPAD_LEFT w in
  d = (if up then 1 else if right then 3 else if down then 5
       else if left then 7 else 0)
  /\ (d = 0 <-> up = false /\ right = false /\ down = false /\ left = false)
  /\ (d = 0 <-> Z.land (joypad w) 15 = 0)
  /\ d = getDirectionFromJoypad (setJoypad w (Z.land (joypad w) 15))
  /\ (let '(dx, dy) := getDXDYFromDirection (JNum d) in
      Z.abs dx + Z.abs dy = (if d =? 0 then 0 else 1)).
Proof.
  cbv zeta. unfold getDirectionFromJoypad, isJoypadPressed.
  cbn [joypad setJoypad].
  unfold JOYPAD_UP, JOYPAD_RIGHT, JOYPAD_DOWN, JOYPAD_LEFT.
  assert (Hbit : forall m, In m [1; 2; 4; 8] ->
             Z.land (Z.land (joypad w) 15) m = Z.land (joypad w) m).
  { intros m Hm. rewrite <- Z.land_assoc. f_equal.
    cbn in Hm. destruct Hm as [<-|[<-|[<-|[<-|[]]]]]; reflexivity. }
  rewrite (Hbit 1), (Hbit 2), (Hbit 4), (Hbit 8) by (cbn; tauto).
  assert (H15 : Z.land (joypad w) 15 = 0 <->
                Z.land (joypad w) 1 = 0 /\ Z.land (joypad w) 2 = 0
                /\ Z.land (joypad w) 4 = 0 /\ Z.land (joypad w) 8 = 0).
  { split.
    - intros H0. pose proof (Hbit 1) as B0. pose proof (Hbit 2) as B1.
      pose proof (Hbit 4) as B2. pose proof (Hbit 8) as B3.
      rewrite H0 in B0, B1, B2, B3.
      repeat split; symmetry; [apply B0|apply B1|apply B2|apply B3];
        cbn; tauto.
    - intros (A0 & A1 & A2 & A3).
      change 15 with (Z.lor 1 (Z.lor 2 (Z.lor 4 8))).
      rewrite !Z.land_lor_distr_r, A0, A1, A2, A3. reflexivity. }
  destruct (Z.eqb_spec (Z.land (joypad w) 1) 0) as [E1|E1];
    destruct (Z.eqb_spec (Z.land (joypad w) 2) 0) as [E2|E2];
    destruct (Z.eqb_spec (Z.land (joypad w) 4) 0) as [E4|E4];
    destruct (Z.eqb_spec (Z.land (joypad w) 8) 0) as [E8|E8];
    cbn [negb]; rewrite H15;
    (split; [reflexivity|]); (split; [split; [intros; try discriminate; tauto
                                            | intros (?&?&?&?); try discriminate; reflexivity]|]);
    (split; [split; [intros; try discriminate; tauto
                    | intros (?&?&?&?); try contradiction; reflexivity]|]);
    (split; reflexivity).
Qed.

End Keys.

(** ** The other instructions *)

Section Instructions.

Lemma paints_refl (w : world) : paints w w (fun _ _ => None).
Proof. split; [reflexivity|]. split; [apply sameButCave_refl|]. reflexivity. Qed.

Lemma paints_ext (w w' : world) (f g : Z -> Z -> option jsval) :
  (forall r c, f r c = g r c) -> paints w w' f -> paints w w' g.
Proof.
  intros Hfg (Hl & Hs & Hc). split; [exact Hl|]. split; [exact Hs|].
  intros r c. rewrite <- Hfg. apply Hc.
Qed.

Lemma paints_caveSet (r c : Z) (v : jsval) (w : world) :
  0 <= r < Z.of_nat (length (cave w)) ->
  exists w', caveSet (JNum r) (JNum c) v w = Normal w'
             /\ paints w w' (fun r' c' => if (r' =? r) && (c' =? c)
                                          then Some v else None).
Proof.
  intros Hr. destruct (caveSet_in r c v w Hr) as (w' & Hset & Hl & Hs & Hc).
  exists w'. split; [exact Hset|]. split; [exact Hl|]. split; [exact Hs|].
  intros r' c'. rewrite Hc. destruct (_ && _); reflexivity.
Qed.

(** A loop whose turns each paint some cells paints their overlay. *)
Lemma paints_loop (n : nat) (body : Z -> world -> completion)
    (f : nat -> Z -> Z -> option jsval) (w : world) :
  (forall i w1, (i < n)%nat -> length (cave w1) = length (cave w) ->
     exists w2, body (Z.of_nat i) w1 = Normal w2 /\ paints w1 w2 (f i)) ->
  exists w', forLoop n body w = Normal w' /\ paints w w' (overlay f n).
Proof.
  induction n as [|n IH]; intros Hbody.
  - exists w. split; [reflexivity | apply paints_refl].
  - destruct IH as (w1 & Hrun & Hl1 & Hs1 & Hc1).
    { intros i w1 Hi. apply Hbody. lia. }
    destruct (Hbody n w1 ltac:(lia) Hl1) as (w2 & Hb & Hl2 & Hs2 & Hc2).
    exists w2. rewrite forLoop_S, Hrun. split; [exact Hb|].
    split; [congruence|]. split; [eapply sameButCave_trans; eauto|].
    intros r c. rewrite Hc2, Hc1. cbn [overlay].
    destruct (f n r c); reflexivity.
Qed.

Lemma toInt32_small (z : Z) : - 2 ^ 31 <= z < 2 ^ 31 -> toInt32 (JNum z) = z.
Proof.
  intros Hz. unfold toInt32. rewrite Z.mod_small by lia. lia.
Qed.

Lemma opcode_fields_all :
  forallb (fun n =>
    (JS.shr (JS.band (JNum (Z.of_nat n)) (JNum 192)) 6 =? opKind (Z.of_nat n))
    && (JS.band (JNum (Z.of_nat n)) (JNum 63) =? opCode (Z.of_nat n)))
    (seq 0 256) = true.
Proof. vm_compute. reflexivity. Qed.

(** The opcode byte packs the kind in its top two bits and the object code
    in the other six. *)
Lemma opcode_fields (op : Z) :
  0 <= op <= 255 ->
  JS.shr (JS.band (JNum op) (JNum 192)) 6 = opKind op
  /\ JS.band (JNum op) (JNum 63) = opCode op.
Proof.
  intros Hop. pose proof opcode_fields_all as H. rewrite forallb_forall in H.
  specialize (H (Z.to_nat op) ltac:(apply in_seq; lia)).
  rewrite Z2Nat.id in H by lia. apply andb_true_iff in H.
  destruct H as [H1 H2]. split; apply Z.eqb_eq; assumption.
Qed.

Lemma overlay_rect_row (v : Z -> Z -> jsval) (r0 c0 : Z) (len : nat) (r c : Z) :
  overlay (fun x r' c' => if (r' =? r0) && (c' =? c0 + Z.of_nat x)
                          then Some (v r' c') else None) len r c
  = if (r =? r0) && (c0 <=? c) && (c <? c0 + Z.of_nat len)
    then Some (v r c) else None.
Proof.
  induction len as [|n IH].
  - cbn [overlay]. replace ((r =? r0) && (c0 <=? c) && (c <? c0 + Z.of_nat 0))
      with false by solve_tests. reflexivity.
  - cbn [overlay]. rewrite IH.
    destruct (Z.eqb_spec r r0) as [Hr|Hr]; cbn [andb]; [|reflexivity].
    destruct (Z.eqb_spec c (c0 + Z.of_nat n)) as [Hc|Hc].
    + replace ((c0 <=? c) && (c <? c0 + Z.of_nat (S n)))
        with true by solve_tests. reflexivity.
    + replace ((c0 <=? c) && (c <? c0 + Z.of_nat (S n)))
        with ((c0 <=? c) && (c <? c0 + Z.of_nat n)) by solve_tests.
      reflexivity.
Qed.

Lemma overlay_rect (v : Z -> Z -> jsval) (r0 c0 : Z) (len hei : nat) (r c : Z) :
  overlay (fun y r' c' => if (r' =? r0 + Z.of_nat y) && (c0 <=? c')
                             && (c' <? c0 + Z.of_nat len)
                          then Some (v r' c') else None) hei r c
  = if inRect r0 c0 (Z.of_nat hei) (Z.of_nat len) r c then Some (v r c) else None.
Proof.
  unfold inRect. induction hei as [|n IH].
  - cbn [overlay]. replace ((r0 <=? r) && (r <? r0 + Z.of_nat 0))
      with false by solve_tests. reflexivity.
  - cbn [overlay]. rewrite IH.
    destruct (Z.eqb_spec r (r0 + Z.of_nat n)) as [Hr|Hr]; cbn [andb].
    + replace ((r0 <=? r) && (r <? r0 + Z.of_nat (S n)))
        with true by solve_tests.
      replace ((r0 <=? r) && (r <? r0 + Z.of_nat n))
        with false by solve_tests.
      cbn [andb]. destruct (c0 <=? c), (c <? c0 + Z.of_nat len); reflexivity.
    + replace ((r0 <=? r) && (r <? r0 + Z.of_nat (S n)))
        with ((r0 <=? r) && (r <? r0 + Z.of_nat n)) by solve_tests.
      reflexivity.
Qed.

(** Two nested loops that write [val y x] at row [r0 + y], column
    [c0 + x], all rows inside the grid. *)
Lemma rect_paints (val : Z -> Z -> jsval)
    (body : Z -> Z -> world -> completion) (c0 r0 : Z) (len hei : nat)
    (w : world) :
  (forall y x w1, body y x w1
                  = caveSet (JNum (r0 + y)) (JNum (c0 + x)) (val y x) w1) ->
  (forall y, 0 <= y < Z.of_nat hei ->
             0 <= r0 + y < Z.of_nat (length (cave w))) ->
  exists w',
    forLoop hei (fun y => forLoop len (fun x => body y x)) w = Normal w'
    /\ paints w w' (fun r c =>
         if inRect r0 c0 (Z.of_nat hei) (Z.of_nat len) r c
         then Some (val (r - r0) (c - c0)) else None).
Proof.
  intros Hbody Hrows.
  destruct (paints_loop hei
              (fun y => forLoop len (fun x => body y x))
              (fun y r c => if (r =? r0 + Z.of_nat y) && (c0 <=? c)
                               && (c <? c0 + Z.of_nat len)
                            then Some (val (r - r0) (c - c0)) else None) w)
    as (w' & Hrun & Hp).
  - intros y w1 Hy Hl1.
    destruct (paints_loop len (fun x => body (Z.of_nat y) x)
                (fun x r c => if (r =? r0 + Z.of_nat y) && (c =? c0 + Z.of_nat x)
                              then Some (val (r - r0) (c - c0)) else None) w1)
      as (w2 & Hrun2 & Hp2).
    + intros x w2 Hx Hl2. rewrite Hbody.
      destruct (paints_caveSet (r0 + Z.of_nat y) (c0 + Z.of_nat x)
                  (val (Z.of_nat y) (Z.of_nat x)) w2) as (w3 & Hset & Hp3).
      { rewrite Hl2, Hl1. apply Hrows. lia. }
      exists w3. split; [exact Hset|].
      eapply paints_ext; [|exact Hp3]. intros r c. cbv beta.
      destruct (Z.eqb_spec r (r0 + Z.of_nat y)) as [->|];
        destruct (Z.eqb_spec c (c0 + Z.of_nat x)) as [->|];
        cbn [andb]; try reflexivity.
      replace (r0 + Z.of_nat y - r0) with (Z.of_nat y) by lia.
      replace (c0 + Z.of_nat x - c0) with (Z.of_nat x) by lia.
      reflexivity.
    + exists w2. split; [exact Hrun2|].
      eapply paints_ext; [|exact Hp2]. intros r c.
      apply (overlay_rect_row (fun r c => val (r - r0) (c - c0))).
  - exists w'. split; [exact Hrun|].
    eapply paints_ext; [|exact Hp]. intros r c.
    apply (overlay_rect (fun r c => val (r - r0) (c - c0))).
Qed.

(** X5.  A record of kind 3, [op col row len hei] with
    [192 <= op <= 254]: when the rows [row - 2 .. row - 2 + hei - 1] are rows
    of the grid, the turn of the instruction loop completes, moves [index]
    by 5 and leaves the grid changed exactly on the [hei] x [len] block whose
    top left corner is ([col], [row - 2]), every cell of which holds the
    code [op mod 64]. *)
Theorem rect_instruction (hex : list jsval) (index : Z) (w : world)
    (op c rb len hei : Z) :
  hexAt hex index = JNum op ->
  hexAt hex (index + 1) = JNum c ->
  hexAt hex (index + 2) = JNum rb ->
  hexAt hex (index + 3) = JNum len ->
  hexAt hex (index + 4) = JNum hei ->
  0 <= op <= 255 -> opKind op = 3 ->
  0 <= len -> 0 <= hei ->
  (forall y, 0 <= y < hei -> 0 <= rb - 2 + y < Z.of_nat (length (cave w))) ->
  exists w',
    caveInstr hex index w = (Normal w', index + 5)
    /\ sameButCave w w'
    /\ forall r' c', cell (cave w') r' c'
          = if inRect (rb - 2) c hei len r' c' then JNum (opCode op)
            else cell (cave w) r' c'.
Proof.
  intros H0 H1 H2 H3 H4 Hop Hkind Hlen Hhei Hrows.
  destruct (opcode_fields op Hop) as [Hk Hc].
  destruct (rect_paints (fun _ _ => JNum (opCode op))
              (fun y x => caveSet (JS.add (JNum (rb - 2)) (JNum y))
                                  (JS.add (JNum c) (JNum x)) (JNum (opCode op)))
              c (rb - 2) (Z.to_nat len) (Z.to_nat hei) w)
    as (w' & Hrun & Hl & Hs & Hcells).
  - reflexivity.
  - intros y Hy. apply Hrows. lia.
  - exists w'. split; [|split; [exact Hs|]].
    + unfold caveInstr. rewrite H0, H1, H2, H3, H4, Hk, Hc, Hkind.
      cbv iota beta. unfold drawRect.
      change (JS.sub (JNum rb) (JNum 2)) with (JNum (rb - 2)).
      change (tripCount (JNum hei)) with (Z.to_nat hei).
      change (tripCount (JNum len)) with (Z.to_nat len).
      rewrite Hrun. reflexivity.
    + intros r' c'. rewrite Hcells, !Z2Nat.id by lia.
      destruct (inRect _ _ _ _ _ _); reflexivity.
Qed.

(** X6.  A record of kind 2, [op col row len hei fil] with
    [128 <= op <= 191]: when its rows are rows of the grid, the turn
    completes, moves [index] by 6 and leaves the grid changed exactly on the
    [hei] x [len] block at ([col], [row - 2]): the cells of its first and
    last row and column hold [op mod 64], the cells inside hold [fil]. *)
Theorem filled_rect_instruction (hex : list jsval) (index : Z) (w : world)
    (op c rb len hei : Z) (fil : jsval) :
  hexAt hex index = JNum op ->
  hexAt hex (index + 1) = JNum c ->
  hexAt hex (index + 2) = JNum rb ->
  hexAt hex (index + 3) = JNum len ->
  hexAt hex (index + 4) = JNum hei ->
  hexAt hex (index + 5) = fil ->
  0 <= op <= 255 -> opKind op = 2 ->
  0 <= len -> 0 <= hei ->
  (forall y, 0 <= y < hei -> 0 <= rb - 2 + y < Z.of_nat (length (cave w))) ->
  exists w',
    caveInstr hex index w = (Normal w', index + 6)
    /\ sameButCave w w'
    /\ forall r' c', cell (cave w') r' c'
          = if inRect (rb - 2) c hei len r' c'
            then (if onOutline (rb - 2) c hei len r' c'
                  then JNum (opCode op) else fil)
            else cell (cave w) r' c'.
Proof.
  intros H0 H1 H2 H3 H4 H5 Hop Hkind Hlen Hhei Hrows.
  destruct (opcode_fields op Hop) as [Hk Hc].
  set (val := fun y x : Z =>
         if (y =? 0) || (y =? hei - 1) || (x =? 0) || (x =? len - 1)
         then JNum (opCode op) else fil).
  destruct (rect_paints val
              (fun y x =>
                 if JS.eq (JNum y) (JNum 0) || JS.eq (JNum y) (JS.sub (JNum hei) (JNum 1))
                    || JS.eq (JNum x) (JNum 0)
                    || JS.eq (JNum x) (JS.sub (JNum len) (JNum 1))
                 then caveSet (JS.add (JNum (rb - 2)) (JNum y))
                              (JS.add (JNum c) (JNum x)) (JNum (opCode op))
                 else caveSet (JS.add (JNum (rb - 2)) (JNum y))
                              (JS.add (JNum c) (JNum x)) fil)
              c (rb - 2) (Z.to_nat len) (Z.to_nat hei) w)
    as (w' & Hrun & Hl & Hs & Hcells).
  - intros y x w1. unfold val.
    change (JS.eq (JNum y) (JNum 0)) with (y =? 0).
    change (JS.eq (JNum y) (JS.sub (JNum hei) (JNum 1))) with (y =? hei - 1).
    change (JS.eq (JNum x) (JNum 0)) with (x =? 0).
    change (JS.eq (JNum x) (JS.sub (JNum len) (JNum 1))) with (x =? len - 1).
    destruct (_ || _); reflexivity.
  - intros y Hy. apply Hrows. lia.
  - exists w'. split; [|split; [exact Hs|]].
    + unfold caveInstr. rewrite H0, H1, H2, H3, H4, H5, Hk, Hc, Hkind.
      cbv iota beta. unfold drawFilledRect.
      change (JS.sub (JNum rb) (JNum 2)) with (JNum (rb - 2)).
      change (tripCount (JNum hei)) with (Z.to_nat hei).
      change (tripCount (JNum len)) with (Z.to_nat len).
      rewrite Hrun. reflexivity.
    + intros r' c'. rewrite Hcells, !Z2Nat.id by lia.
      destruct (inRect _ _ _ _ _ _); [|reflexivity].
      cbn [default]. unfold val, onOutline.
      replace (r' - (rb - 2) =? 0) with (r' =? rb - 2) by solve_tests.
      replace (r' - (rb - 2) =? hei - 1) with (r' =? rb - 2 + hei - 1)
        by solve_tests.
      replace (c' - c =? 0) with (c' =? c) by solve_tests.
      replace (c' - c =? len - 1) with (c' =? c + len - 1) by solve_tests.
      reflexivity.
Qed.

(** X7.  A record of kind 0, [op col row] with [op <= 63]: it takes three
    bytes; when [row - 2] is a row of the grid the one cell
    ([col], [row - 2]) receives the code [op] and no other cell changes (for
    [col] past the last column nothing in the 40 columns changes); when
    [row - 2] is not a row of the grid the turn throws and the state is as
    before. *)
Theorem single_instruction (hex : list jsval) (index : Z) (w : world)
    (op c rb : Z) :
  hexAt hex index = JNum op ->
  hexAt hex (index + 1) = JNum c ->
  hexAt hex (index + 2) = JNum rb ->
  0 <= op <= 255 -> opKind op = 0 ->
  snd (caveInstr hex index w) = index + 3
  /\ (0 <= rb - 2 < Z.of_nat (length (cave w)) ->
      exists w', fst (caveInstr hex index w) = Normal w'
        /\ sameButCave w w'
        /\ (forall r' c', cell (cave w') r' c'
              = if (r' =? rb - 2) && (c' =? c) then JNum op
                else cell (cave w) r' c')
        /\ (cols <= c -> forall r' c', 0 <= c' < cols ->
              cell (cave w') r' c' = cell (cave w) r' c'))
  /\ (~ 0 <= rb - 2 < Z.of_nat (length (cave w)) ->
      fst (caveInstr hex index w) = Thrown w).
Proof.
  intros H0 H1 H2 Hop Hkind.
  destruct (opcode_fields op Hop) as [Hk Hc].
  assert (Hcode : opCode op = op).
  { unfold opKind, opCode in *. apply Z.mod_small.
    apply Z.div_small_iff in Hkind; lia. }
  unfold caveInstr. rewrite H0, H1, H2, Hk, Hc, Hkind, Hcode.
  cbv iota beta. cbn [fst snd].
  change (JS.sub (JNum rb) (JNum 2)) with (JNum (rb - 2)).
  split; [reflexivity|]. split.
  - intros Hr. destruct (caveSet_in (rb - 2) c (JNum op) w Hr)
      as (w' & Hset & _ & Hs & Hcells).
    exists w'. split; [exact Hset|]. split; [exact Hs|].
    split; [exact Hcells|]. intros Hcol r' c' Hc'. rewrite Hcells.
    replace (c' =? c) with false by (unfold cols in *; lia).
    rewrite andb_false_r. reflexivity.
  - intros Hr. apply caveSet_out. exact Hr.
Qed.

(** Cave 14, record [C1 0C 0A 03 0D] at offset 43: a block of dirt, 13
    rows by 3 columns, from row 8, column 12. *)
Lemma rect_instruction_witness :
  exists w',
    caveInstr (caveHex 13) 43 initialWorld = (Normal w', 48)
    /\ cell (cave w') 8 12 = JNum 1
    /\ cell (cave w') 20 14 = JNum 1
    /\ cell (cave w') 21 14 = JNum 0.
Proof.
  destruct (rect_instruction (caveHex 13) 43 initialWorld 193 12 10 3 13)
    as (w' & Hrun & _ & Hcells);
    try (vm_compute; reflexivity); try lia.
  { intros y Hy. change (Z.of_nat (length (cave initialWorld))) with 22. lia. }
  exists w'. split; [exact Hrun|]. rewrite !Hcells. repeat split.
Defined.

(** Cave 4, record [81 08 0A 04 04 00] at offset 38: a 4 x 4 frame of dirt
    around four spaces. *)
Lemma filled_rect_instruction_witness :
  exists w',
    caveInstr (caveHex 3) 38 (setCave initialWorld (replicate 22 ∅))
      = (Normal w', 44)
    /\ cell (cave w') 8 8 = JNum 1
    /\ cell (cave w') 9 9 = JNum 0
    /\ cell (cave w') 11 11 = JNum 1
    /\ cell (cave w') 12 12 = JUndef.
Proof.
  destruct (filled_rect_instruction (caveHex 3) 38
              (setCave initialWorld (replicate 22 ∅)) 129 8 10 4 4 (JNum 0))
    as (w' & Hrun & _ & Hcells);
    try (vm_compute; reflexivity); try lia.
  { intros y Hy.
    change (Z.of_nat (length (cave (setCave initialWorld (replicate 22 ∅)))))
      with 22. lia. }
  exists w'. split; [exact Hrun|]. rewrite !Hcells. repeat split.
Defined.

(** Cave 1, record [25 03 04] at offset 42: the entry at row 2, column 3. *)
Lemma single_instruction_witness :
  exists w',
    fst (caveInstr (caveHex 0) 42 initialWorld) = Normal w'
    /\ snd (caveInstr (caveHex 0) 42 initialWorld) = 45
    /\ cell (cave w') 2 3 = JNum 0x25.
Proof.
  destruct (single_instruction (caveHex 0) 42 initialWorld 37 3 4)
    as (Hidx & Hin & _); try (vm_compute; reflexivity); try lia.
  destruct Hin as (w' & Hrun & _ & Hcells & _).
  { change (Z.of_nat (length (cave initialWorld))) with 22. lia. }
  exists w'. split; [exact Hrun|]. split; [exact Hidx|].
  rewrite Hcells. reflexivity.
Defined.

Lemma isThrown_bind (c : completion) (k : world -> completion) :
  isThrown c -> isThrown (bind c k).
Proof. destruct c; cbn; tauto. Qed.

(** A loop one of whose turns throws in every state throws. *)
Lemma forLoop_throws (n : nat) (body : Z -> world -> completion) (i : nat)
    (w : world) (P : world -> Prop) :
  (i < n)%nat -> P w ->
  (forall j w1 w2, P w1 -> body j w1 = Normal w2 -> P w2) ->
  (forall w1, P w1 -> isThrown (body (Z.of_nat i) w1)) ->
  isThrown (forLoop n body w).
Proof.
  intros Hi Hw Hkeep Hbad.
  assert (Hinv : forall m w', forLoop m body w = Normal w' -> P w').
  { induction m as [|m IHm]; intros w' Hrun.
    - injection Hrun as <-. exact Hw.
    - rewrite forLoop_S in Hrun.
      destruct (forLoop m body w) as [w1|w1]; cbn [bind] in Hrun;
        [|discriminate Hrun].
      eapply Hkeep; [apply IHm; reflexivity | exact Hrun]. }
  induction n as [|n IH]; [lia|].
  rewrite forLoop_S.
  destruct (Nat.eq_dec i n) as [->|Hne].
  - destruct (forLoop n body w) as [w1|w1] eqn:Hrun; cbn [bind]; [|exact I].
    apply Hbad. apply (Hinv n). exact Hrun.
  - apply isThrown_bind. apply IH. lia.
Qed.

Lemma caveSet_length (r c v : jsval) (w w' : world) :
  caveSet r c v w = Normal w' -> length (cave w') = length (cave w).
Proof.
  intros H. pose proof (caveSet_frame r c v w) as Hf. rewrite H in Hf.
  apply Hf.
Qed.

Lemma forLoop_length (n : nat) (body : Z -> world -> completion) (w w' : world) :
  (forall j w1 w2, body j w1 = Normal w2 -> length (cave w2) = length (cave w1)) ->
  forLoop n body w = Normal w' -> length (cave w') = length (cave w).
Proof.
  intros Hbody. revert w'. induction n as [|n IH]; intros w' Hrun.
  - injection Hrun as <-. reflexivity.
  - rewrite forLoop_S in Hrun.
    destruct (forLoop n body w) as [w1|w1]; cbn [bind] in Hrun;
      [|discriminate Hrun].
    rewrite (Hbody _ _ _ Hrun). apply IH. reflexivity.
Qed.

(** X8.  A rectangle record (kind 2 or 3) with at least one column, one
    of whose rows is not a row of the grid: the turn of the instruction loop
    throws.  The columns play no part in this. *)
Theorem rect_outside_rows_throws (hex : list jsval) (index : Z) (w : world)
    (op c rb len hei y : Z) :
  hexAt hex index = JNum op ->
  hexAt hex (index + 1) = JNum c ->
  hexAt hex (index + 2) = JNum rb ->
  hexAt hex (index + 3) = JNum len ->
  hexAt hex (index + 4) = JNum hei ->
  0 <= op <= 255 -> opKind op = 2 \/ opKind op = 3 ->
  0 < len -> 0 <= y < hei ->
  ~ 0 <= rb - 2 + y < Z.of_nat (length (cave w)) ->
  isThrown (fst (caveInstr hex index w)).
Proof.
  intros H0 H1 H2 H3 H4 Hop Hkind Hlen Hy Hbad.
  destruct (opcode_fields op Hop) as [Hk Hc].
  set (P := fun w1 : world => length (cave w1) = length (cave w)).
  assert (Hrow : forall (val : Z -> jsval) (body : Z -> world -> completion) w1,
             P w1 ->
             (forall x w2, body x w2
                = caveSet (JNum (rb - 2 + y)) (JNum (c + x)) (val x) w2) ->
             isThrown (forLoop (Z.to_nat len) body w1)).
  { intros val body w1 Hw1 Hbody.
    apply (forLoop_throws _ _ 0%nat _ P); [lia | exact Hw1 | |].
    - intros j w2 w3 Hw2 Hrun. rewrite Hbody in Hrun. unfold P in *.
      rewrite (caveSet_length _ _ _ _ _ Hrun). exact Hw2.
    - intros w2 Hw2. rewrite Hbody, caveSet_out; [exact I|].
      unfold P in Hw2. rewrite Hw2. exact Hbad. }
  unfold caveInstr. rewrite H0, H1, H2, H3, H4, Hk, Hc.
  change (JS.sub (JNum rb) (JNum 2)) with (JNum (rb - 2)).
  destruct Hkind as [-> | ->]; cbv iota beta; cbn [fst];
    unfold drawFilledRect, drawRect;
    change (tripCount (JNum hei)) with (Z.to_nat hei);
    change (tripCount (JNum len)) with (Z.to_nat len).
  - apply (forLoop_throws _ _ (Z.to_nat y) _ P); [lia | reflexivity | |].
    + intros j w1 w2 Hw1 Hrun. unfold P in *. rewrite <- Hw1.
      revert Hrun. apply forLoop_length. intros x w3 w4.
      destruct (_ || _); apply caveSet_length.
    + intros w1 Hw1. rewrite Z2Nat.id by lia.
      apply (Hrow (fun x => if (y =? 0) || (y =? hei - 1) || (x =? 0)
                               || (x =? len - 1)
                            then JNum (opCode op) else hexAt hex (index + 5)));
        [exact Hw1|].
      intros x w2.
      change (JS.eq (JNum y) (JNum 0)) with (y =? 0).
      change (JS.eq (JNum y) (JS.sub (JNum hei) (JNum 1))) with (y =? hei - 1).
      change (JS.eq (JNum x) (JNum 0)) with (x =? 0).
      change (JS.eq (JNum x) (JS.sub (JNum len) (JNum 1))) with (x =? len - 1).
      destruct (_ || _); reflexivity.
  - apply (forLoop_throws _ _ (Z.to_nat y) _ P); [lia | reflexivity | |].
    + intros j w1 w2 Hw1 Hrun. unfold P in *. rewrite <- Hw1.
      revert Hrun. apply forLoop_length. intros x w3 w4.
      apply caveSet_length.
    + intros w1 Hw1. rewrite Z2Nat.id by lia.
      apply (Hrow (fun _ => JNum (opCode op))); [exact Hw1|]. reflexivity.
Qed.

(** A plain rectangle that starts on the last row and is two rows high. *)
Lemma rect_outside_rows_throws_witness :
  isThrown (fst (caveInstr [JNum 0xC1; JNum 5; JNum 23; JNum 3; JNum 2] 0
                           initialWorld)).
Proof.
  apply (rect_outside_rows_throws _ 0 initialWorld 0xC1 5 23 3 2 1);
    try reflexivity; try lia.
  - right. reflexivity.
  - change (Z.of_nat (length (cave initialWorld))) with 22. lia.
Defined.

(** X9.  A line record (kind 1) one of whose steps lands on a row that the
    grid does not have: the turn of the instruction loop throws. *)
Theorem line_outside_rows_throws (hex : list jsval) (index : Z) (w : world)
    (op c rb len dir i : Z) (d : Z * Z) :
  hexAt hex index = JNum op ->
  hexAt hex (index + 1) = JNum c ->
  hexAt hex (index + 2) = JNum rb ->
  hexAt hex (index + 3) = JNum len ->
  hexAt hex (index + 4) = JNum dir ->
  0 <= op <= 255 -> opKind op = 1 ->
  getDXDYFromDirection (JNum (dir + 1)) = d ->
  0 <= i < len ->
  ~ 0 <= rb - 2 + snd d * i < Z.of_nat (length (cave w)) ->
  isThrown (fst (caveInstr hex index w)).
Proof.
  intros H0 H1 H2 H3 H4 Hop Hkind Hd Hi Hbad.
  destruct (opcode_fields op Hop) as [Hk Hc].
  unfold caveInstr. rewrite H0, H1, H2, H3, H4, Hk, Hc, Hkind.
  cbv iota beta. cbn [fst]. unfold drawLine.
  change (JS.add (JNum dir) (JNum 1)) with (JNum (dir + 1)). rewrite Hd.
  change (JS.sub (JNum rb) (JNum 2)) with (JNum (rb - 2)).
  change (tripCount (JNum len)) with (Z.to_nat len).
  apply (forLoop_throws _ _ (Z.to_nat i) _
           (fun w1 => length (cave w1) = length (cave w)));
    [lia | reflexivity | |].
  - intros j w1 w2 Hw1 Hrun. rewrite (caveSet_length _ _ _ _ _ Hrun). exact Hw1.
  - intros w1 Hw1. rewrite Z2Nat.id by lia.
    change (JS.add (JNum (rb - 2)) (JNum (snd d * i)))
      with (JNum (rb - 2 + snd d * i)).
    rewrite caveSet_out; [exact I|]. rewrite Hw1. exact Hbad.
Qed.

(** Three bricks upwards from the second row. *)
Lemma line_outside_rows_throws_witness :
  isThrown (fst (caveInstr [JNum 0x42; JNum 5; JNum 3; JNum 3; JNum 0] 0
                           initialWorld)).
Proof.
  apply (line_outside_rows_throws _ 0 initialWorld 0x42 5 3 3 0 2 (0, -1));
    try reflexivity; try lia.
  change (Z.of_nat (length (cave initialWorld))) with 22. cbn [snd]. lia.
Defined.

End Instructions.

(** ** The decode as a whole *)

Section Decode.


(** X11.  A cave identifier outside the table: [caveLoad] throws before it
    changes anything, [setup] passes the throw on, and the entry point
    leaves the page as it was, the frame loop not started. *)
Theorem invalid_cave_id (table : list string) (caveId difficultyId : Z)
    (w : world) :
  caveId < 1 \/ Z.of_nat (length table) < caveId ->
  caveLoadFrom table caveId difficultyId w = Some (Thrown w)
  /\ setupFrom table caveId difficultyId w = Some (Thrown w)
  /\ bootFrom table caveId difficultyId w = Some w.
Proof.
  intros Hid.
  assert (H : caveLoadFrom table caveId difficultyId w = Some (Thrown w)).
  { unfold caveLoadFrom. destruct (Z.ltb_spec (caveId - 1) 0); [reflexivity|].
    rewrite lookup_ge_None_2 by lia. reflexivity. }
  split; [exact H|]. unfold bootFrom, setupFrom. rewrite H.
  split; reflexivity.
Qed.

Lemma invalid_cave_id_witness :
  bootFrom rawCaveDatas 21 1 initialWorld = Some initialWorld
  /\ bootFrom rawCaveDatas 0 1 initialWorld = Some initialWorld.
Proof.
  split.
  - apply (invalid_cave_id rawCaveDatas 21 1 initialWorld).
    right. change (Z.of_nat (length rawCaveDatas)) with 20. lia.
  - apply (invalid_cave_id rawCaveDatas 0 1 initialWorld). left. lia.
Defined.

Lemma iter_lcg_NaN (n : nat) : Nat.iter n lcg JNaN = JNaN.
Proof.
  induction n as [|n IH]; [reflexivity|]. rewrite Nat.iter_succ, IH.
  reflexivity.
Qed.

(** X12.  A difficulty whose seed offset [3 + difficultyId] lies outside
    the byte sequence does not stop the decode: the seed is NaN, every draw
    is NaN, no threshold test holds, and the fill pass leaves plain dirt in
    every interior cell and steel on the border. *)
Theorem missing_seed_fills_dirt (hex : list jsval) (difficultyId : Z)
    (w : world) :
  length (cave w) = Z.to_nat rows ->
  hexAt hex (0x04 + difficultyId - 1) = JUndef ->
  exists w',
    caveFill hex (setSeed (hexAt hex (0x04 + difficultyId - 1)) w) = Normal w'
    /\ currentSeed w' = JNaN
    /\ forall r c, 0 <= r < rows -> 0 <= c < cols ->
         cell (cave w') r c = if isBorder r c then JNum 0x07 else JNum 0x01.
Proof.
  intros Hrows Hseed. rewrite Hseed.
  destruct (caveFill_loop hex (setSeed JUndef w) 22 Hrows ltac:(lia))
    as (w' & Hrun & _ & _ & Hs & Hcells).
  change (currentSeed (setSeed JUndef w)) with JNaN in Hs, Hcells.
  exists w'. split; [exact Hrun|].
  split; [rewrite Hs; apply iter_lcg_NaN|].
  intros r c Hr Hc. rewrite Hcells.
  assert (Hin : (0 <=? r) && (r <? Z.of_nat 22) && (0 <=? c) && (c <? cols)
                = true).
  { clear -Hr Hc. unfold rows, cols in *. solve_tests. }
  rewrite Hin. unfold fillValue. destruct (isBorder r c); [reflexivity|].
  rewrite iter_lcg_NaN. reflexivity.
Qed.

(** Cave 1 asked for at difficulty 200. *)
Lemma missing_seed_fills_dirt_witness :
  exists w',
    caveFill (caveHex 0) (setSeed (hexAt (caveHex 0) (0x04 + 200 - 1)) initialWorld)
      = Normal w'
    /\ cell (cave w') 1 7 = JNum 0x01
    /\ cell (cave w') 0 7 = JNum 0x07.
Proof.
  destruct (missing_seed_fills_dirt (caveHex 0) 200 initialWorld)
    as (w' & Hrun & _ & Hcells).
  - reflexivity.
  - vm_compute. reflexivity.
  - exists w'. split; [exact Hrun|].
    rewrite !Hcells by (unfold rows, cols; lia). split; reflexivity.
Defined.

End Decode.

(** ** Sorting and expansion *)

Section SortExpand.

Lemma compareSprites_le (a b : sprite) :
  compareSprites a b <= 0 <-> spriteLe a b.
Proof.
  unfold compareSprites, spriteLe.
  destruct (Z.eqb_spec (row a) (row b)); cbn [negb]; lia.
Qed.

Lemma insertSprite_sorted (a : sprite) (l : list sprite) :
  StronglySorted spriteLe l -> StronglySorted spriteLe (insertSprite a l).
Proof.
  induction 1 as [|b l Hs IH Hall]; cbn [insertSprite].
  - repeat constructor.
  - destruct (Z.leb_spec (compareSprites a b) 0) as [Hle|Hgt].
    + apply compareSprites_le in Hle. constructor; [constructor; assumption|].
      constructor; [exact Hle|].
      eapply Forall_impl; [exact Hall|]. cbn. intros c Hbc.
      unfold spriteLe in *. lia.
    + constructor; [exact IH|].
      assert (Hba : spriteLe b a).
      { assert (~ spriteLe a b) by (rewrite <- compareSprites_le; lia).
        unfold spriteLe in *. lia. }
      rewrite (insertSprite_perm a l). constructor; assumption.
Qed.

Lemma insertSprite_filter (p : sprite -> bool) (a : sprite) (l : list sprite) :
  (forall b, p a = true -> p b = true -> compareSprites a b <= 0) ->
  List.filter p (insertSprite a l)
  = if p a then a :: List.filter p l else List.filter p l.
Proof.
  intros Hp. induction l as [|b l IH]; cbn [insertSprite List.filter].
  - reflexivity.
  - destruct (Z.leb_spec (compareSprites a b) 0) as [Hle|Hgt];
      cbn [List.filter]; [reflexivity|].
    rewrite IH. destruct (p a) eqn:Ha, (p b) eqn:Hb; try reflexivity.
    specialize (Hp b eq_refl Hb). lia.
Qed.

Lemma insertSprite_head (a : sprite) (l : list sprite) :
  Forall (spriteLe a) l -> insertSprite a l = a :: l.
Proof.
  intros H. destruct l as [|b l]; [reflexivity|]. cbn [insertSprite].
  apply Forall_cons in H. destruct H as [H _].
  apply compareSprites_le, Z.leb_le in H. rewrite H. reflexivity.
Qed.

(** X13.  [orderSprites] keeps the same sprites and puts them in order of
    row, then column; sprites of one cell keep their relative order; an
    array already in order is left as it is. *)
Theorem orderSprites_sorts (w : world) :
  sprites (orderSprites w) ≡ₚ sprites w
  /\ StronglySorted spriteLe (sprites (orderSprites w))
  /\ (forall c r,
        List.filter (fun s => (col s =? c) && (row s =? r)) (sprites (orderSprites w))
        = List.filter (fun s => (col s =? c) && (row s =? r)) (sprites w))
  /\ (StronglySorted spriteLe (sprites w) -> orderSprites w = w)
  /\ sameGlobals w (orderSprites w) /\ console (orderSprites w) = console w.
Proof.
  unfold orderSprites. cbn [sprites setSprites].
  split; [apply sortSprites_perm|]. split; [|split; [|split]].
  - induction (sprites w) as [|a l IH]; cbn [sortSprites fold_right];
      [constructor|]. apply insertSprite_sorted, IH.
  - intros c r. induction (sprites w) as [|a l IH];
      cbn [sortSprites fold_right]; [reflexivity|].
    fold (sortSprites l). rewrite insertSprite_filter.
    + cbn [List.filter]. rewrite IH. reflexivity.
    + intros b Ha Hb. apply compareSprites_le. unfold spriteLe.
      apply andb_true_iff in Ha, Hb. lia.
  - intros Hs.
    assert (Hid : sortSprites (sprites w) = sprites w).
    { induction Hs as [|a l Hs IH Hall]; [reflexivity|].
      cbn [sortSprites fold_right]. fold (sortSprites l). rewrite IH.
      apply insertSprite_head, Hall. }
    rewrite Hid. destruct w; reflexivity.
  - split; [repeat split | reflexivity].
Qed.

Lemma forEachIndex_0 body (w : world) : forEachIndex 0 body w = w.
Proof. reflexivity. Qed.

Lemma expandCell_spec (r c : Z) (w : world) :
  sprites (expandCell r c w) = sprites w ++ cellSprites (cave w) r c
  /\ cave (expandCell r c w) = cave w.
Proof.
  unfold expandCell, cellSprites, typeOfCode.
  destruct (JS.eq _ _); [rewrite app_nil_r; split; reflexivity|].
  destruct (List.find _ types); cbn [sprites cave appendSprites setSprites logTo];
    [|rewrite app_nil_r]; split; reflexivity.
Qed.

Lemma expandRow_spec (r : Z) (n : nat) (w : world) :
  sprites (forEachIndex n (fun c => expandCell r c) w)
  = sprites w ++ flat_map (fun c => cellSprites (cave w) r (Z.of_nat c)) (seq 0 n)
  /\ cave (forEachIndex n (fun c => expandCell r c) w) = cave w.
Proof.
  induction n as [|n [IHs IHc]].
  - cbn. rewrite app_nil_r. split; reflexivity.
  - rewrite forEachIndex_S.
    destruct (expandCell_spec r (Z.of_nat n)
                (forEachIndex n (fun c => expandCell r c) w)) as [Hs Hc].
    rewrite Hs, Hc, IHs, IHc, seq_S, flat_map_app. cbn [flat_map Nat.add].
    rewrite app_nil_r, app_assoc. split; reflexivity.
Qed.

Lemma expandRows_spec (m : nat) (w : world) :
  sprites (forEachIndex m (fun r =>
             forEachIndex (Z.to_nat cols) (fun c => expandCell r c)) w)
  = sprites w
    ++ flat_map (fun r => flat_map (fun c => cellSprites (cave w) (Z.of_nat r)
                                                         (Z.of_nat c))
                                   (seq 0 (Z.to_nat cols))) (seq 0 m)
  /\ cave (forEachIndex m (fun r =>
             forEachIndex (Z.to_nat cols) (fun c => expandCell r c)) w) = cave w.
Proof.
  induction m as [|m [IHs IHc]].
  - cbn [seq flat_map]. rewrite forEachIndex_0, app_nil_r. split; reflexivity.
  - rewrite forEachIndex_S.
    destruct (expandRow_spec (Z.of_nat m) (Z.to_nat cols)
                (forEachIndex m (fun r =>
                   forEachIndex (Z.to_nat cols) (fun c => expandCell r c)) w))
      as [Hs Hc].
    rewrite Hs, Hc, IHs, IHc, seq_S, flat_map_app. cbn [flat_map Nat.add].
    rewrite app_nil_r, app_assoc. split; reflexivity.
Qed.

Lemma allCells_flat (f : Z -> Z -> list sprite) :
  flat_map (fun r => flat_map (fun c => f (Z.of_nat r) (Z.of_nat c))
                              (seq 0 (Z.to_nat cols))) (seq 0 (Z.to_nat rows))
  = flat_map (fun '(r, c) => f r c) allCells.
Proof.
  unfold allCells, cellsWhere.
  generalize (seq 0 (Z.to_nat rows)) as lr. generalize (seq 0 (Z.to_nat cols)) as lc.
  intros lc lr. induction lr as [|r lr IHr]; [reflexivity|].
  cbn [flat_map]. rewrite flat_map_app, IHr. f_equal. clear IHr.
  induction lc as [|c lc IHc]; [reflexivity|].
  cbn [flat_map app]. rewrite IHc. reflexivity.
Qed.

(** X14.  The expansion of [setup] reads the grid without changing it and
    builds the sprite array cell by cell in row-major order: one sprite,
    with the flags of its type, for every cell whose code is not 0 and is in
    [types], none for the others.  Hence a cell of the window with such a
    code is found by [getSpriteAt] with exactly that sprite, and any other
    cell of the window is found empty. *)
Theorem expandCave_sprites (w : world) :
  cave (expandCave w) = cave w
  /\ sprites (expandCave w)
     = flat_map (fun '(r, c) => cellSprites (cave w) r c) allCells
  /\ forall r c, 0 <= r < rows -> 0 <= c < cols ->
       match typeOfCode (cell (cave w) r c) with
       | Some t => exists i, getSpriteAt c r (sprites (expandCave w))
                             = Some (i, newSprite c r t)
       | None => getSpriteAt c r (sprites (expandCave w)) = None
       end.
Proof.
  assert (Hflat : cave (expandCave w) = cave w
                  /\ sprites (expandCave w)
                     = flat_map (fun '(r, c) => cellSprites (cave w) r c) allCells).
  { unfold expandCave.
    destruct (expandRows_spec (Z.to_nat rows) (setSprites w [])) as [Hs Hc].
    split; [exact Hc|]. rewrite Hs. cbn [sprites cave setSprites app].
    apply (allCells_flat (cellSprites (cave w))). }
  destruct Hflat as [Hc Hs]. split; [exact Hc|]. split; [exact Hs|].
  intros r c Hr Hcc.
  pose proof (expandCave_exclusive w) as Hex.
  assert (Hmem : forall s, s ∈ sprites (expandCave w) ->
                   exists r' c', s ∈ cellSprites (cave w) r' c').
  { intros s Hin. rewrite Hs in Hin. apply list_elem_of_In, in_flat_map in Hin.
    destruct Hin as ([r' c'] & _ & Hin). exists r', c'.
    apply list_elem_of_In. exact Hin. }
  assert (Hcoord : forall s r' c', s ∈ cellSprites (cave w) r' c' ->
                     col s = c' /\ row s = r').
  { intros s r' c' Hin. unfold cellSprites in Hin.
    destruct (typeOfCode _) as [t|]; [|inversion Hin].
    apply list_elem_of_singleton in Hin. subst s.
    destruct (newSprite_flags c' r' t) as (_ & _ & H1 & H2). split; assumption. }
  destruct (typeOfCode (cell (cave w) r c)) as [t|] eqn:Ht.
  - assert (Hin : newSprite c r t ∈ sprites (expandCave w)).
    { rewrite Hs. apply list_elem_of_In, in_flat_map. exists (r, c).
      split; [apply cellsWhere_In; auto|].
      unfold cellSprites. rewrite Ht. left. reflexivity. }
    apply list_elem_of_lookup in Hin. destruct Hin as [i Hi].
    destruct (newSprite_flags c r t) as (_ & _ & H1 & H2).
    destruct (getSpriteAt c r (sprites (expandCave w))) as [[j s]|] eqn:Hg.
    + apply getSpriteAt_Some in Hg. destruct Hg as [Hj Hcs].
      unfold exclusive in Hex. rewrite NoDup_alt in Hex.
      assert (j = i).
      { apply (Hex j i (c, r)); rewrite list_lookup_fmap.
        - rewrite Hj. cbn. rewrite <- Hcs. reflexivity.
        - rewrite Hi. cbn. unfold getSpriteCoord. rewrite H1, H2. reflexivity. }
      subst j. exists i. rewrite Hj in Hi. injection Hi as ->. reflexivity.
    + exfalso. apply getSpriteAt_None in Hg. apply Hg.
      apply list_elem_of_fmap. exists (newSprite c r t).
      split; [unfold getSpriteCoord; rewrite H1, H2; reflexivity|].
      eapply list_elem_of_lookup_2. exact Hi.
  - destruct (getSpriteAt c r (sprites (expandCave w))) as [[j s]|] eqn:Hg;
      [|reflexivity].
    exfalso. apply getSpriteAt_Some in Hg. destruct Hg as [Hj Hcs].
    destruct (Hmem s (list_elem_of_lookup_2 _ _ _ Hj)) as (r' & c' & Hin).
    destruct (Hcoord s r' c' Hin) as [E1 E2].
    unfold getSpriteCoord in Hcs. injection Hcs as E3 E4.
    assert (r' = r /\ c' = c) as [-> ->] by lia.
    unfold cellSprites in Hin. rewrite Ht in Hin. inversion Hin.
Qed.

End SortExpand.

Section SortExpandExamples.

Lemma orderSprites_sorts_witness : orderSprites sortedScene = sortedScene.
Proof.
  apply (orderSprites_sorts sortedScene).
  repeat constructor; unfold spriteLe; cbn; lia.
Defined.

Lemma expandCave_sprites_witness :
  (exists i, getSpriteAt 5 3 (sprites (expandCave oneBoulderCave))
             = Some (i, newSprite 5 3 boulderType))
  /\ getSpriteAt 6 3 (sprites (expandCave oneBoulderCave)) = None.
Proof.
  destruct (expandCave_sprites oneBoulderCave) as (_ & _ & H).
  split.
  - specialize (H 3 5 ltac:(unfold rows; lia) ltac:(unfold cols; lia)).
    change (typeOfCode (cell (cave oneBoulderCave) 3 5))
      with (Some boulderType) in H. exact H.
  - specialize (H 3 6 ltac:(unfold rows; lia) ltac:(unfold cols; lia)).
    change (typeOfCode (cell (cave oneBoulderCave) 3 6))
      with (@None type) in H. exact H.
Defined.

End SortExpandExamples.

(** ** Animation *)

Section Animation.

Lemma animateSprite_sameKind (s : sprite) : sameKind s (animateSprite s).
Proof. unfold animateSprite. repeat case_match; repeat split. Qed.

(** X15.  One animation step on a sprite: a sprite that is not animated is
    left as it is; an animated one keeps its place, name and flags, its
    frame index stays in [0, animIdMax) when it was there, and its count of
    remaining cycles never grows and never becomes negative. *)
Theorem animateSprite_invariant (s : sprite) :
  (animated s = false -> animateSprite s = s)
  /\ sameKind s (animateSprite s)
  /\ col (animateSprite s) = col s /\ row (animateSprite s) = row s
  /\ isFalling (animateSprite s) = isFalling s
  /\ (0 < animIdMax s -> 0 <= animId s < animIdMax s ->
      0 <= animId (animateSprite s) < animIdMax s)
  /\ (0 <= animCycle s ->
      0 <= animCycle (animateSprite s) <= animCycle s)
  /\ (animated (animateSprite s) = true -> animated s = true).
Proof.
  unfold animateSprite.
  destruct (animated s) eqn:Ha.
  - cbn [set_animId animId animIdMax animCycle set_animCycle set_animated
         animated].
    destruct (Z.leb_spec (animIdMax s) (animId s + 1));
      [destruct (Z.ltb_spec 0 (animCycle s));
       [destruct (Z.eqb_spec (animCycle s - 1) 0)|]|];
      cbn; repeat split; try lia; try congruence.
  - repeat split; try lia; try congruence.
Qed.

Lemma animateSprite_invariant_witness :
  animId (animateSprite (newSprite 3 4 (mkType "diamond" 81 0x14))) = 1.
Proof.
  destruct (animateSprite_invariant (newSprite 3 4 (mkType "diamond" 81 0x14)))
    as (_ & _ & _ & _ & _ & H & _).
  specialize (H ltac:(cbn; lia) ltac:(cbn; lia)). reflexivity.
Defined.

Lemma div_mod_step (n m : Z) :
  0 <= n -> 0 < m ->
  (n mod m + 1 < m -> (n + 1) mod m = n mod m + 1 /\ (n + 1) / m = n / m)
  /\ (m <= n mod m + 1 -> (n + 1) mod m = 0 /\ (n + 1) / m = n / m + 1).
Proof.
  intros Hn Hm. pose proof (Z.div_mod n m ltac:(lia)) as Hd.
  pose proof (Z.mod_pos_bound n m Hm) as Hb.
  split; intros H.
  - split; [symmetry; apply (Z.mod_unique _ _ (n / m)); lia
           | symmetry; apply (Z.div_unique _ _ _ (n mod m + 1)); lia].
  - split; [symmetry; apply (Z.mod_unique _ _ (n / m + 1)); lia
           | symmetry; apply (Z.div_unique _ _ _ 0); lia].
Qed.

Ltac ltb_nia :=
  match goal with
  | |- _ = (?a <? ?b) => destruct (Z.ltb_spec a b); first [reflexivity | nia]
  end.

(** X16.  An animated sprite that starts at frame 0 with [m] frames and
    [k] cycles to go.  With [k = 0] it animates for ever, its frame after
    [n] steps being [n mod m].  With [k > 0] it shows frame [n mod m] with
    [k - n / m] cycles left during the first [m * k] steps, and from then on
    it is not animated any more, at frame 0 with no cycle left.  (For the
    entry portal, [m = 2] and [k = 5]: ten steps.) *)
Theorem animation_schedule (s : sprite) (n : nat) :
  animated s = true -> animId s = 0 ->
  0 < animIdMax s -> 0 <= animCycle s ->
  let m := animIdMax s in
  let k := animCycle s in
  let s' := Nat.iter n animateSprite s in
  if (k =? 0) || (Z.of_nat n <? m * k)
  then animated s' = true /\ animId s' = Z.of_nat n mod m
       /\ animCycle s' = (if k =? 0 then 0 else k - Z.of_nat n / m)
  else animated s' = false /\ animId s' = 0 /\ animCycle s' = 0.
Proof.
  intros Ha Hid Hm Hk. cbv zeta.
  assert (Hmax : forall j, animIdMax (Nat.iter j animateSprite s) = animIdMax s).
  { induction j as [|j IH]; [reflexivity|]. rewrite Nat.iter_succ.
    destruct (animateSprite_sameKind (Nat.iter j animateSprite s))
      as (_ & _ & _ & _ & _ & _ & _ & Hx). rewrite Hx. exact IH. }
  induction n as [|n IH].
  - change (Nat.iter 0 animateSprite s) with s.
    rewrite Ha, Hid. change (Z.of_nat 0) with 0.
    rewrite Z.mod_0_l, Z.div_0_l by lia.
    destruct (Z.eqb_spec (animCycle s) 0) as [->|Hne]; cbn [orb].
    + repeat split.
    + replace (0 <? animIdMax s * animCycle s) with true by ltb_nia.
      repeat split. lia.
  - rewrite Nat.iter_succ. specialize (Hmax n).
    set (t := Nat.iter n animateSprite s) in *.
    destruct (div_mod_step (Z.of_nat n) (animIdMax s) ltac:(lia) Hm) as [D1 D2].
    replace (Z.of_nat (S n)) with (Z.of_nat n + 1) by lia.
    pose proof (Z.mod_pos_bound (Z.of_nat n) (animIdMax s) Hm) as Hb.
    pose proof (Z.div_mod (Z.of_nat n) (animIdMax s) ltac:(lia)) as Hdm.
    assert (Hq0 : 0 <= Z.of_nat n / animIdMax s) by (apply Z.div_pos; lia).
    set (q := Z.of_nat n / animIdMax s) in *.
    set (r := Z.of_nat n mod animIdMax s) in *.
    set (q' := (Z.of_nat n + 1) / animIdMax s) in *.
    set (r' := (Z.of_nat n + 1) mod animIdMax s) in *.
    clearbody q r q' r'.
    destruct (Z.eqb_spec (animCycle s) 0) as [Hk0|Hk0]; cbn [orb] in *.
    + destruct IH as (I1 & I2 & I3). unfold animateSprite. rewrite I1.
      cbn [set_animId animId animIdMax animCycle animated].
      rewrite Hmax, I2, I3.
      destruct (Z.leb_spec (animIdMax s) (r + 1)) as [Hw|Hw].
      * change (0 <? 0) with false. cbn [animated animId animCycle set_animId].
        destruct (D2 Hw) as [-> _]. repeat split; assumption.
      * cbn [animated animId animCycle set_animId].
        destruct (D1 Hw) as [-> _]. repeat split; assumption.
    + destruct (Z.ltb_spec (Z.of_nat n) (animIdMax s * animCycle s)) as [Hlt|Hge].
      * destruct IH as (I1 & I2 & I3). unfold animateSprite. rewrite I1.
        cbn [set_animId animId animIdMax animCycle animated].
        rewrite Hmax, I2, I3.
        assert (Hq : q < animCycle s) by nia.
        destruct (Z.leb_spec (animIdMax s) (r + 1)) as [Hw|Hw].
        -- destruct (D2 Hw) as [E1 E2].
           replace (0 <? animCycle s - q) with true by ltb_nia.
           cbn [set_animCycle set_animated animCycle animated animId].
           destruct (Z.eqb_spec (animCycle s - q - 1) 0) as [Hz|Hz].
           ++ replace (Z.of_nat n + 1 <? animIdMax s * animCycle s) with false
                by ltb_nia.
              cbn [set_animated set_animCycle animated animId animCycle].
              repeat split. exact Hz.
           ++ replace (Z.of_nat n + 1 <? animIdMax s * animCycle s) with true
                by ltb_nia.
              rewrite E1, E2.
              cbn [set_animated set_animCycle set_animId animated animId animCycle];
                (repeat split); try assumption; try lia.
        -- destruct (D1 Hw) as [E1 E2].
           replace (Z.of_nat n + 1 <? animIdMax s * animCycle s) with true by ltb_nia.
           rewrite E1, E2.
           cbn [set_animated set_animCycle set_animId animated animId animCycle];
                (repeat split); try assumption; try lia.
      * destruct IH as (I1 & I2 & I3).
        replace (Z.of_nat n + 1 <? animIdMax s * animCycle s) with false by ltb_nia.
        unfold animateSprite. rewrite I1. repeat split; assumption.
Qed.

(** The entry portal: still animated after nine steps, done after ten. *)
Lemma animation_schedule_witness :
  let inbox := newSprite 3 2 (mkType "inbox" 50 0x25) in
  (animated (Nat.iter 9 animateSprite inbox) = true
   /\ animCycle (Nat.iter 9 animateSprite inbox) = 1)
  /\ (animated (Nat.iter 10 animateSprite inbox) = false
      /\ animCycle (Nat.iter 10 animateSprite inbox) = 0).
Proof.
  intros inbox.
  pose proof (animation_schedule inbox 9 eq_refl eq_refl ltac:(cbn; lia)
                ltac:(cbn; lia)) as H9.
  pose proof (animation_schedule inbox 10 eq_refl eq_refl ltac:(cbn; lia)
                ltac:(cbn; lia)) as H10.
  cbv zeta in H9, H10.
  change (animIdMax inbox) with 2 in H9, H10.
  change (animCycle inbox) with 5 in H9, H10.
  cbn [Z.eqb orb] in H9, H10.
  change (Z.of_nat 9 <? 2 * 5) with true in H9.
  change (Z.of_nat 10 <? 2 * 5) with false in H10.
  cbv iota in H9, H10.
  destruct H9 as (A & _ & B), H10 as (C & _ & D).
  split; split; assumption.
Defined.

End Animation.

(** ** The falling pass *)

Section FallingPass.

Lemma sameKind_refl (s : sprite) : sameKind s s.
Proof. repeat split. Qed.

Lemma sameKind_trans (a b c : sprite) :
  sameKind a b -> sameKind b c -> sameKind a c.
Proof. unfold sameKind. intuition congruence. Qed.

Lemma movedOne_refl (s : sprite) : movedOne s s.
Proof. repeat split. left. lia. Qed.

Lemma stepAt_refl (i : nat) (ss : list sprite) : stepAt i ss ss.
Proof.
  split; [reflexivity|]. split; [reflexivity|]. intros s Hs. exists s.
  split; [exact Hs | apply movedOne_refl].
Qed.

Lemma stepAt_alter (f : sprite -> sprite) (i : nat) (ss : list sprite) :
  (forall s, movedOne s (f s)) -> stepAt i ss (alter f i ss).
Proof.
  intros Hf. split; [apply length_alter|]. split.
  - intros j Hj. apply list_lookup_alter_ne. congruence.
  - intros s Hs. exists (f s). rewrite list_lookup_alter_eq, Hs.
    split; [reflexivity | apply Hf].
Qed.

(** One call of the falling callback: only the sprite at [i] may change,
    and by one step. *)
Lemma fallSprite_step (i : nat) (w : world) :
  stepAt i (sprites w) (sprites (fallSprite i w)).
Proof.
  unfold fallSprite.
  repeat case_match; cbn [sprites setSprites logTo]; try apply stepAt_refl;
    apply stepAt_alter; intros sx; unfold movedOne, sameKind; destruct sx;
    cbn; repeat split; try (left; lia); right; repeat split.
Qed.

Lemma fold_fall (l : list nat) (w : world) :
  List.NoDup l ->
  length (sprites (fold_left (fun w i => fallSprite i w) l w))
  = length (sprites w)
  /\ forall j s, sprites w !! j = Some s ->
       exists s', sprites (fold_left (fun w i => fallSprite i w) l w) !! j
                  = Some s'
         /\ (~ In j l -> s' = s) /\ movedOne s s'.
Proof.
  intros Hnd. revert w. induction l as [|i l IH]; intros w.
  - cbn [fold_left]. split; [reflexivity|]. intros j s Hs. exists s.
    split; [exact Hs|]. split; [reflexivity | apply movedOne_refl].
  - apply List.NoDup_cons_iff in Hnd. destruct Hnd as [Hi Hnd].
    cbn [fold_left].
    destruct (fallSprite_step i w) as (Hlen & Hne & Heq).
    destruct (IH Hnd (fallSprite i w)) as [Hlen' Hall].
    split; [congruence|]. intros j s Hs.
    destruct (Nat.eq_dec j i) as [->|Hji].
    + destruct (Heq s Hs) as (s1 & Hs1 & Hstep).
      destruct (Hall i s1 Hs1) as (s' & Hs' & Hout & _).
      exists s'. split; [exact Hs'|]. rewrite (Hout Hi).
      split; [intros Hn; exfalso; apply Hn; left; reflexivity | exact Hstep].
    + rewrite <- (Hne j Hji) in Hs.
      destruct (Hall j s Hs) as (s' & Hs' & Hout & Hrest).
      exists s'. split; [exact Hs'|]. split; [|exact Hrest].
      intros Hn. apply Hout. intros Hin. apply Hn. right. exact Hin.
Qed.

Lemma fallables_spec (ss : list sprite) (j : nat) :
  In j (fallables ss) <-> exists s, ss !! j = Some s /\ fallable s = true.
Proof.
  unfold fallables. rewrite filter_In, in_seq. split.
  - intros [_ H]. destruct (ss !! j) as [s|]; [eauto|discriminate].
  - intros (s & Hs & Hf). rewrite Hs. split; [|exact Hf].
    apply lookup_lt_Some in Hs. lia.
Qed.

Lemma fallables_NoDup (ss : list sprite) : List.NoDup (fallables ss).
Proof. unfold fallables. apply List.NoDup_filter, List.seq_NoDup. Qed.

Lemma updateFalling_fell (w : world) :
  length (sprites (updateFalling w)) = length (sprites w)
  /\ forall j s, sprites w !! j = Some s ->
       exists s', sprites (updateFalling w) !! j = Some s' /\ fell s s'.
Proof.
  destruct (fold_fall (fallables (sprites w)) w (fallables_NoDup _))
    as [Hlen Hall].
  split; [exact Hlen|]. intros j s Hs.
  destruct (Hall j s Hs) as (s' & Hs' & Hout & Hm).
  exists s'. split; [exact Hs'|]. split; [exact Hm|].
  intros Hf. apply Hout. rewrite fallables_spec. intros (s0 & Hs0 & Hf0).
  congruence.
Qed.

(** X17.  The falling pass of a tick keeps every sprite at its position in
    the array and changes nothing but places and falling flags: a sprite
    that is not fallable is untouched; a fallable one ends on the same row
    at most one column away, or one row further down in the same column and
    flagged as falling; no sprite ever moves up, and the grid is not
    touched. *)
Theorem falling_pass_monotone (w : world) :
  length (sprites (updateFalling w)) = length (sprites w)
  /\ sameGlobals w (updateFalling w)
  /\ forall j s, sprites w !! j = Some s ->
       exists s', sprites (updateFalling w) !! j = Some s'
         /\ fell s s'
         /\ row s <= row s' <= row s + 1
         /\ Z.abs (col s' - col s) + (row s' - row s) <= 1.
Proof.
  destruct (updateFalling_fell w) as [Hlen Hall].
  split; [exact Hlen|]. split; [apply updateFalling_sameGlobals|].
  intros j s Hs. destruct (Hall j s Hs) as (s' & Hs' & Hfell).
  exists s'. split; [exact Hs'|]. split; [exact Hfell|].
  destruct Hfell as ((_ & _ & _ & _ & Hpos) & _). lia.
Qed.

(** The boulder of [dropScene] goes one row down; the wall stays. *)
Lemma falling_pass_monotone_witness :
  exists s', sprites (updateFalling dropScene) !! 1%nat = Some s'
             /\ 5 <= row s' <= 6.
Proof.
  destruct (falling_pass_monotone dropScene) as (_ & _ & H).
  destruct (H 1%nat (newSprite 5 5 boulderType) eq_refl)
    as (s' & Hs' & _ & Hrow & _).
  exists s'. split; [exact Hs' | exact Hrow].
Defined.

End FallingPass.

(** ** A whole tick *)

Section Tick.

Lemma tickRest_length (w : world) :
  length (sprites (tickRest w)) = length (sprites w).
Proof.
  unfold tickRest, updateAnimated. cbn [sprites setSprites].
  rewrite length_map, (proj1 (updateFalling_fell _)).
  unfold orderSprites. cbn [sprites setSprites].
  apply Permutation_length, sortSprites_perm.
Qed.

Lemma update_unfold (w : world) :
  update w = bind (updatePlayer w) (fun w => Normal (tickRest w)).
Proof. reflexivity. Qed.

(** X18.  A tick throws exactly when there is no entry portal, a direction
    is pressed and no sprite is named rockford; the state is then the one
    before the tick.  In every other case the tick completes. *)
Theorem update_throws_iff (w : world) :
  (noPlayerToMove w -> update w = Thrown w)
  /\ (~ noPlayerToMove w -> exists w', update w = Normal w').
Proof.
  unfold noPlayerToMove, update, updatePlayer.
  change (typeNamed "rockford") with (Some rockfordType).
  destruct (findNamed "inbox" (sprites w)) as [[i inbox]|].
  - split; [intros [H _]; discriminate H|]. intros _.
    destruct (animCycle inbox =? 0); eexists; reflexivity.
  - destruct (Z.eqb_spec (getDirectionFromJoypad w) 0) as [Hd|Hd]; cbn [negb].
    + split; [intros (_ & H & _); contradiction|]. intros _.
      eexists; reflexivity.
    + destruct (findNamed "rockford" (sprites w)) as [[k rf]|].
      * split; [intros (_ & _ & H); discriminate H|]. intros _.
        destruct (getDXDYFromDirection _) as [dx dy].
        destruct (getSpriteAt _ _ _) as [[t target]|];
          [destruct (_ || _)|]; eexists; reflexivity.
      * split; [reflexivity|]. intros H. exfalso. apply H. repeat split; auto.
Qed.

(** A direction pressed on the empty page. *)
Lemma update_throws_iff_witness :
  update (setJoypad initialWorld JOYPAD_UP)
  = Thrown (setJoypad initialWorld JOYPAD_UP).
Proof.
  apply (proj1 (update_throws_iff (setJoypad initialWorld JOYPAD_UP))).
  repeat split; [vm_compute; discriminate].
Defined.

Lemma name_test (n : string) :
  (String.eqb n "dirt" || String.eqb n "diamond" = true)
  <-> (n = "dirt"%string \/ n = "diamond"%string).
Proof.
  rewrite orb_true_iff, !String.eqb_eq. reflexivity.
Qed.

Lemma updatePlayer_count (w w1 : world) :
  updatePlayer w = Normal w1 ->
  (eats w /\ S (length (sprites w1)) = length (sprites w))
  \/ (~ eats w /\ length (sprites w1) = length (sprites w)).
Proof.
  unfold updatePlayer, eats.
  change (typeNamed "rockford") with (Some rockfordType).
  destruct (findNamed "inbox" (sprites w)) as [[i inbox]|] eqn:Hin.
  - intros H. right. split; [intros [Hn _]; discriminate Hn|].
    destruct (animCycle inbox =? 0); injection H as <-; [|reflexivity].
    cbn [sprites setSprites logTo appendSprites].
    apply list_find_Some in Hin. destruct Hin as (Hi & _).
    rewrite length_delete, length_app; cbn [length]; [lia|].
    apply lookup_lt_is_Some. rewrite length_app. cbn [length].
    apply lookup_lt_Some in Hi. lia.
  - destruct (Z.eqb_spec (getDirectionFromJoypad w) 0) as [Hd|Hd]; cbn [negb].
    + intros H. injection H as <-. right. split; [|reflexivity].
      intros (_ & Hn & _). contradiction.
    + destruct (findNamed "rockford" (sprites w)) as [[k rf]|] eqn:Hrf;
        [|discriminate].
      destruct (getDXDYFromDirection _) as [dx dy] eqn:Hdir.
      cbn [fst snd].
      destruct (getSpriteAt _ _ _) as [[t target]|] eqn:Hat.
      * destruct (String.eqb (name target) "dirt"
                  || String.eqb (name target) "diamond") eqn:Hname.
        -- intros H. injection H as <-. left. split.
           ++ split; [reflexivity|]. split; [exact Hd|].
              exists k, rf, t, target. split; [reflexivity|].
              split; [exact Hat|]. apply name_test, Hname.
           ++ cbn [sprites setSprites].
              apply list_find_Some in Hat. destruct Hat as (Ht & _).
              apply lookup_lt_Some in Ht.
              rewrite length_delete, length_alter; [lia|].
              apply lookup_lt_is_Some. rewrite length_alter. exact Ht.
        -- intros H. injection H as <-. right. split; [|reflexivity].
           intros (_ & _ & k' & rf' & t' & target' & Hk & Hat' & Hn').
           injection Hk as <- <-. rewrite Hat in Hat'.
           injection Hat' as <- <-. apply name_test in Hn'. congruence.
      * intros H. injection H as <-. right.
        split; [|cbn [sprites setSprites]; apply length_alter].
        intros (_ & _ & k' & rf' & t' & target' & Hk & Hat' & _).
        injection Hk as <- <-. rewrite Hat in Hat'. discriminate Hat'.
Qed.

(** X19.  A completed tick never adds a sprite to the array.  It removes
    exactly one when the player steps onto a dirt or a diamond, and none in
    every other case: the entry portal is replaced by the player, and
    nothing else is ever taken out. *)
Theorem update_sprite_count (w w' : world) :
  update w = Normal w' ->
  (eats w /\ S (length (sprites w')) = length (sprites w))
  \/ (~ eats w /\ length (sprites w') = length (sprites w)).
Proof.
  rewrite update_unfold. destruct (updatePlayer w) as [w1|w1] eqn:Hp;
    [|discriminate].
  cbn [bind]. intros H. injection H as <-. rewrite tickRest_length.
  apply updatePlayer_count. exact Hp.
Qed.

(** The player of [eatScene] eats the dirt: one sprite is left. *)
Lemma update_sprite_count_witness :
  update eatScene
  = Normal (tickRest
              (setSprites eatScene [moveBy 1 0 (newSprite 3 2 rockfordType)]))
  /\ ((eats eatScene
       /\ S (length (sprites (tickRest
               (setSprites eatScene
                  [moveBy 1 0 (newSprite 3 2 rockfordType)]))))
          = length (sprites eatScene))
      \/ (~ eats eatScene
          /\ length (sprites (tickRest
                (setSprites eatScene
                   [moveBy 1 0 (newSprite 3 2 rockfordType)])))
             = length (sprites eatScene))).
Proof.
  split; [vm_compute; reflexivity|].
  apply update_sprite_count. vm_compute. reflexivity.
Defined.

(** *** Flags follow names, and nothing ever explodes *)

Lemma newSprite_name (c r : Z) (t : type) : name (newSprite c r t) = tname t.
Proof.
  unfold newSprite. cbv zeta.
  repeat match goal with
         | |- context [if ?b then _ else _] => destruct b
         end; reflexivity.
Qed.

Lemma newSprite_flagsOk (c r : Z) (t : type) : flagsOk (newSprite c r t).
Proof.
  unfold flagsOk. rewrite newSprite_name. unfold newSprite. cbv zeta.
  repeat match goal with
         | |- context [if ?b then _ else _] => destruct b
         end; repeat split.
Qed.

Lemma flagsOk_sameKind (s s' : sprite) : sameKind s s' -> flagsOk s -> flagsOk s'.
Proof.
  unfold sameKind, flagsOk.
  intros (Hn & _ & _ & Hr & Hf & He & Hc & _) (H1 & H2 & H3 & H4).
  rewrite Hn, Hr, Hf, He, Hc. auto.
Qed.

Lemma flagsOk_fallable (s : sprite) :
  flagsOk s -> fallable s = true -> explodable s = false.
Proof.
  intros (Hf & He & _) H. rewrite He. rewrite Hf in H. clear -H.
  unfold oneOf in *. cbn [existsb] in *.
  destruct (String.eqb_spec (name s) "boulder") as [->|_]; [reflexivity|].
  destruct (String.eqb_spec (name s) "diamond") as [->|_]; [reflexivity|].
  discriminate H.
Qed.

Lemma moveBy_sameKind (dx dy : Z) (s : sprite) : sameKind s (moveBy dx dy s).
Proof. repeat split. Qed.

Lemma forEachIndex_inv (P : world -> Prop) (n : nat)
    (body : Z -> world -> world) (w : world) :
  (forall i w, P w -> P (body i w)) -> P w -> P (forEachIndex n body w).
Proof.
  intros Hbody. unfold forEachIndex. generalize (seq 0 n). intros l.
  revert w. induction l as [|i l IH]; intros w Hw; cbn [fold_left];
    [exact Hw|]. apply IH, Hbody, Hw.
Qed.

Lemma expandCave_flags (w : world) :
  Forall notExplode (console w) ->
  Forall flagsOk (sprites (expandCave w))
  /\ Forall notExplode (console (expandCave w)).
Proof.
  intros Hc. unfold expandCave.
  apply (forEachIndex_inv
           (fun w => Forall flagsOk (sprites w) /\ Forall notExplode (console w)));
    [|split; [constructor | exact Hc]].
  intros r w1 Hw1. apply forEachIndex_inv; [|exact Hw1].
  intros c w2 [Hs2 Hc2]. unfold expandCell.
  destruct (JS.eq _ _); [split; assumption|].
  destruct (List.find _ types) as [t|].
  - unfold appendSprites. cbn [sprites console setSprites].
    split; [|exact Hc2]. apply Forall_app. split; [exact Hs2|].
    constructor; [apply newSprite_flagsOk | constructor].
  - cbn [sprites console logTo]. split; [exact Hs2|].
    apply Forall_app. split; [exact Hc2|].
    constructor; [exact I | constructor].
Qed.

Lemma console_setRunning (w : world) (b : bool) :
  console (setRunning w b) = console w.
Proof. reflexivity. Qed.

Lemma boot_flags (table : list string) (caveId difficultyId : Z) (w : world) :
  bootFrom table caveId difficultyId initialWorld = Some w ->
  Forall flagsOk (sprites w) /\ Forall notExplode (console w).
Proof.
  intros Hboot. unfold bootFrom, setupFrom in Hboot.
  destruct (caveLoadFrom table caveId difficultyId initialWorld)
    as [[w1|w1]|] eqn:Hload; [| |discriminate Hboot].
  - injection Hboot as <-.
    rewrite sprites_setRunning, console_setRunning.
    apply expandCave_flags.
    assert (Hc : console w1 = []); [|rewrite Hc; constructor].
    unfold caveLoadFrom in Hload.
    destruct (caveId - 1 <? 0); [discriminate Hload|].
    destruct (table !! Z.to_nat (caveId - 1)) as [raw|]; [|discriminate Hload].
    apply caveDecode_decoderFrame in Hload. apply Hload.
  - injection Hboot as <-.
    assert (Hs : sprites w1 = [] /\ console w1 = []);
      [|destruct Hs as [-> ->]; split; constructor].
    unfold caveLoadFrom in Hload.
    destruct (caveId - 1 <? 0); [injection Hload as <-; split; reflexivity|].
    destruct (table !! Z.to_nat (caveId - 1)) as [raw|];
      [|injection Hload as <-; split; reflexivity].
    apply caveDecode_decoderFrame in Hload. split; apply Hload.
Qed.

Lemma updatePlayer_flags (w w1 : world) :
  Forall flagsOk (sprites w) -> Forall notExplode (console w) ->
  updatePlayer w = Normal w1 ->
  Forall flagsOk (sprites w1) /\ Forall notExplode (console w1).
Proof.
  intros Hs Hc. unfold updatePlayer.
  change (typeNamed "rockford") with (Some rockfordType).
  assert (Hmove : forall dx dy k,
            Forall flagsOk (alter (moveBy dx dy) k (sprites w))).
  { intros dx dy k. apply Forall_alter; [exact Hs|].
    intros x _. apply flagsOk_sameKind, moveBy_sameKind. }
  destruct (findNamed "inbox" (sprites w)) as [[i inbox]|].
  - destruct (animCycle inbox =? 0); intros H; injection H as <-;
      [|split; assumption].
    cbn [sprites console setSprites logTo appendSprites]. split.
    + apply Forall_delete, Forall_app. split; [exact Hs|].
      constructor; [apply newSprite_flagsOk | constructor].
    + apply Forall_app. split; [exact Hc|].
      constructor; [exact I | constructor].
  - destruct (negb _); [|intros H; injection H as <-; split; assumption].
    destruct (findNamed "rockford" (sprites w)) as [[k rf]|]; [|discriminate].
    destruct (getDXDYFromDirection _) as [dx dy].
    destruct (getSpriteAt _ _ _) as [[t target]|]; [destruct (_ || _)|];
      intros H; injection H as <-; cbn [sprites console setSprites];
      (split; [|exact Hc]); [apply Forall_delete| |]; auto.
Qed.

Lemma fallSprite_console (i : nat) (w : world) :
  (forall s, sprites w !! i = Some s -> explodable s = false) ->
  console (fallSprite i w) = console w.
Proof.
  intros Hi. unfold fallSprite.
  destruct (sprites w !! i) as [s|]; [|reflexivity].
  rewrite (Hi s eq_refl). repeat case_match; reflexivity.
Qed.

Lemma fold_fall_console (l : list nat) (w : world) :
  (forall i s, In i l -> sprites w !! i = Some s -> explodable s = false) ->
  console (fold_left (fun w i => fallSprite i w) l w) = console w.
Proof.
  revert w. induction l as [|i l IH]; intros w Hl; [reflexivity|].
  cbn [fold_left]. rewrite IH.
  - apply fallSprite_console. intros s. apply Hl. left. reflexivity.
  - intros j s' Hj Hs'.
    destruct (fallSprite_step i w) as (Hlen & Hne & Heq).
    destruct (Nat.eq_dec j i) as [->|Hji].
    + destruct (sprites w !! i) as [s|] eqn:Hs.
      * destruct (Heq s eq_refl) as (s2 & Hs2 & (Hk & _)).
        rewrite Hs' in Hs2. injection Hs2 as <-.
        destruct Hk as (_ & _ & _ & _ & _ & He & _). rewrite He.
        apply (Hl i s); [left; reflexivity | exact Hs].
      * apply lookup_lt_Some in Hs'. rewrite Hlen in Hs'.
        apply lookup_lt_is_Some in Hs'. rewrite Hs in Hs'.
        destruct Hs' as [x Hx]. discriminate Hx.
    + rewrite (Hne j Hji) in Hs'. apply (Hl j s'); [right; exact Hj | exact Hs'].
Qed.

Lemma updateFalling_flags (w : world) :
  Forall flagsOk (sprites w) ->
  Forall flagsOk (sprites (updateFalling w))
  /\ console (updateFalling w) = console w.
Proof.
  intros Hs. split.
  - destruct (updateFalling_fell w) as [Hlen Hall].
    apply Forall_lookup. intros j s' Hs'.
    destruct (sprites w !! j) as [s|] eqn:Hj.
    + destruct (Hall j s Hj) as (s2 & Hs2 & ((Hk & _) & _)).
      rewrite Hs' in Hs2. injection Hs2 as <-.
      apply (flagsOk_sameKind s s' Hk).
      rewrite Forall_lookup in Hs. exact (Hs j s Hj).
    + apply lookup_lt_Some in Hs'. rewrite Hlen in Hs'.
      apply lookup_lt_is_Some in Hs'. rewrite Hj in Hs'.
      destruct Hs' as [x Hx]. discriminate Hx.
  - apply fold_fall_console. intros i s Hi Hsi.
    apply fallables_spec in Hi. destruct Hi as (s0 & Hs0 & Hf).
    rewrite Hsi in Hs0. injection Hs0 as <-.
    apply flagsOk_fallable; [|exact Hf].
    rewrite Forall_lookup in Hs. exact (Hs i s Hsi).
Qed.

Lemma tickRest_flags (w : world) :
  Forall flagsOk (sprites w) ->
  Forall flagsOk (sprites (tickRest w)) /\ console (tickRest w) = console w.
Proof.
  intros Hs.
  assert (Ho : Forall flagsOk (sprites (orderSprites w))).
  { unfold orderSprites. cbn [sprites setSprites].
    eapply Permutation_Forall; [|exact Hs].
    symmetry. apply sortSprites_perm. }
  destruct (updateFalling_flags _ Ho) as [Hf Hc].
  unfold tickRest, updateAnimated. cbn [sprites console setSprites].
  split; [|exact Hc].
  apply List.Forall_map. eapply Forall_impl; [exact Hf|].
  intros s. apply flagsOk_sameKind, animateSprite_sameKind.
Qed.

(** X20.  In every state that the page reaches, the capability flags of
    each sprite are the ones that its name had when it was created, and the
    console holds no explosion message: the explosion branch of the falling
    pass tests the falling object itself, and no fallable kind is
    explodable, so the branch is never taken. *)
Theorem reachable_never_explodes (w : world) :
  reachable w ->
  Forall flagsOk (sprites w) /\ Forall notExplode (console w).
Proof.
  induction 1 as [table cid did w Hboot | w j _ IH
                 | w w' _ IH _ Hup | w w' _ IH _ Hup].
  - exact (boot_flags table cid did w Hboot).
  - exact IH.
  - destruct IH as [Hs Hc]. rewrite update_unfold in Hup.
    destruct (updatePlayer w) as [w1|w1] eqn:Hp; [|discriminate Hup].
    cbn [bind] in Hup. injection Hup as <-.
    destruct (updatePlayer_flags w w1 Hs Hc Hp) as [Hs1 Hc1].
    destruct (tickRest_flags w1 Hs1) as [Hs2 Hc2].
    split; [exact Hs2 | rewrite Hc2; exact Hc1].
  - rewrite update_unfold in Hup.
    destruct (updatePlayer w) as [w1|w1] eqn:Hp; [discriminate Hup|].
    cbn [bind] in Hup. injection Hup as <-.
    assert (Hw : w1 = w); [|rewrite Hw; exact IH].
    revert Hp. unfold updatePlayer.
    change (typeNamed "rockford") with (Some rockfordType).
    repeat case_match; intros Hp; try discriminate Hp.
    injection Hp as <-. reflexivity.
Qed.

(** Cave 1 at the first difficulty, right after the entry point. *)
Lemma reachable_never_explodes_witness :
  exists w,
    bootFrom rawCaveDatas 1 1 initialWorld = Some w
    /\ Forall flagsOk (sprites w) /\ Forall notExplode (console w).
Proof.
  destruct (caveLoad_builtin 1 1 ltac:(lia) ltac:(lia)) as (w1 & Hload).
  rewrite caveLoad_unfold in Hload.
  pose proof (bootFrom_loaded _ _ _ _ _ Hload) as Hboot.
  exists (setRunning (expandCave w1) true).
  split; [exact Hboot|].
  apply reachable_never_explodes. exact (reach_boot _ _ _ _ Hboot).
Defined.

(** *** The entry portal *)









(** *** What a frame shows *)

Lemma update_thrown (w w' : world) : update w = Thrown w' -> w' = w.
Proof.
  rewrite update_unfold.
  destruct (updatePlayer w) as [w1|w1] eqn:Hp; [discriminate|].
  cbn [bind]. intros H. injection H as <-.
  revert Hp. unfold updatePlayer.
  change (typeNamed "rockford") with (Some rockfordType).
  repeat case_match; intros Hp; try discriminate Hp.
  injection Hp as <-. reflexivity.
Qed.

Lemma rockfordType_listed : In rockfordType types /\ tcode rockfordType <> 0.
Proof.
  split; [|discriminate]. unfold types, rockfordType. cbn [In]. tauto.
Qed.

Section SpriteInvariant.

Variable P : sprite -> Prop.
Hypothesis Hnew :
  forall c r t, In t types -> tcode t <> 0 -> P (newSprite c r t).
Hypothesis Hkeep :
  forall s s', sameKind s s' -> animId s' = animId s -> P s -> P s'.
Hypothesis Hanim : forall s, P s -> P (animateSprite s).

Lemma expandCave_sprites_inv (w : world) : Forall P (sprites (expandCave w)).
Proof.
  unfold expandCave.
  apply (forEachIndex_inv (fun w => Forall P (sprites w))); [|constructor].
  intros r w1 Hw1. apply forEachIndex_inv; [|exact Hw1].
  intros c w2 Hs2. unfold expandCell.
  destruct (JS.eq (cell (cave w2) r c) (JNum 0)) eqn:Hz; [exact Hs2|].
  destruct (List.find _ types) as [t|] eqn:Hfind; [|exact Hs2].
  apply find_some in Hfind. destruct Hfind as [Hin Heq].
  unfold appendSprites. cbn [sprites setSprites].
  apply Forall_app. split; [exact Hs2|].
  constructor; [|constructor]. apply Hnew; [exact Hin|].
  intros Ht. rewrite Ht in Heq.
  destruct (cell (cave w2) r c) as [y| |]; try discriminate Heq.
  unfold JS.eq in Heq, Hz. apply Z.eqb_eq in Heq. apply Z.eqb_neq in Hz.
  congruence.
Qed.

Lemma updatePlayer_sprites_inv (w w1 : world) :
  Forall P (sprites w) -> updatePlayer w = Normal w1 -> Forall P (sprites w1).
Proof.
  intros IH. unfold updatePlayer.
  change (typeNamed "rockford") with (Some rockfordType).
  assert (Hmove : forall dx dy k,
            Forall P (alter (moveBy dx dy) k (sprites w))).
  { intros dx dy k. apply Forall_alter; [exact IH|].
    intros x _. apply Hkeep; [apply moveBy_sameKind | reflexivity]. }
  destruct (findNamed "inbox" (sprites w)) as [[i inbox]|].
  - destruct (animCycle inbox =? 0); intros H; injection H as <-;
      [|exact IH].
    cbn [sprites setSprites logTo appendSprites].
    apply Forall_delete, Forall_app. split; [exact IH|].
    constructor; [apply Hnew; apply rockfordType_listed | constructor].
  - destruct (negb _); [|intros H; injection H as <-; exact IH].
    destruct (findNamed "rockford" (sprites w)) as [[k rf]|];
      [|discriminate].
    destruct (getDXDYFromDirection _) as [dx dy].
    destruct (getSpriteAt _ _ _) as [[t target]|]; [destruct (_ || _)|];
      intros H; injection H as <-; cbn [sprites setSprites];
      [apply Forall_delete| |]; auto.
Qed.

Lemma tickRest_sprites_inv (w : world) :
  Forall P (sprites w) -> Forall P (sprites (tickRest w)).
Proof.
  intros H1.
  assert (H2 : Forall P (sprites (orderSprites w))).
  { unfold orderSprites. cbn [sprites setSprites].
    eapply Permutation_Forall; [|exact H1].
    symmetry. apply sortSprites_perm. }
  assert (H3 : Forall P (sprites (updateFalling (orderSprites w)))).
  { destruct (updateFalling_fell (orderSprites w)) as [Hlen Hall].
    apply Forall_lookup. intros j s' Hs'.
    destruct (sprites (orderSprites w) !! j) as [s|] eqn:Hj.
    - destruct (Hall j s Hj) as (s2 & Hs2 & ((Hk & _ & Hid & _) & _)).
      rewrite Hs' in Hs2. injection Hs2 as <-.
      apply (Hkeep s s' Hk Hid).
      rewrite Forall_lookup in H2. exact (H2 j s Hj).
    - apply lookup_lt_Some in Hs'. rewrite Hlen in Hs'.
      apply lookup_lt_is_Some in Hs'. rewrite Hj in Hs'.
      destruct Hs' as [x Hx]. discriminate Hx. }
  unfold tickRest, updateAnimated. cbn [sprites setSprites].
  apply List.Forall_map. eapply Forall_impl; [exact H3|]. exact Hanim.
Qed.

Lemma update_sprites_inv (w w' : world) :
  Forall P (sprites w) -> update w = Normal w' -> Forall P (sprites w').
Proof.
  intros IH Hup. rewrite update_unfold in Hup.
  destruct (updatePlayer w) as [w1|w1] eqn:Hp; [|discriminate Hup].
  cbn [bind] in Hup. injection Hup as <-.
  apply tickRest_sprites_inv, (updatePlayer_sprites_inv w w1 IH Hp).
Qed.

(** An invariant of single sprites that creation, moves and animation
    steps keep holds in every reachable state. *)
Lemma reachable_sprites_inv (w : world) :
  reachable w -> Forall P (sprites w).
Proof.
  induction 1 as [table cid did w Hboot | w j _ IH
                 | w w' _ IH _ Hup | w w' _ IH _ Hup].
  - unfold bootFrom, setupFrom in Hboot.
    destruct (caveLoadFrom table cid did initialWorld)
      as [[w1|w1]|] eqn:Hload; [| |discriminate Hboot].
    + injection Hboot as <-. rewrite sprites_setRunning.
      apply expandCave_sprites_inv.
    + injection Hboot as <-.
      assert (Hs : sprites w1 = []); [|rewrite Hs; constructor].
      unfold caveLoadFrom in Hload.
      destruct (cid - 1 <? 0); [injection Hload as <-; reflexivity|].
      destruct (table !! Z.to_nat (cid - 1)) as [raw|];
        [|injection Hload as <-; reflexivity].
      apply caveDecode_decoderFrame in Hload. apply Hload.
  - exact IH.
  - exact (update_sprites_inv w w' IH Hup).
  - rewrite (update_thrown w w' Hup). exact IH.
Qed.

End SpriteInvariant.

Lemma lookup_map {A B : Type} (f : A -> B) (l : list A) (j : nat) (x : A) :
  l !! j = Some x -> map f l !! j = Some (f x).
Proof.
  revert j. induction l as [|a l IH]; intros [|j] H; try discriminate H.
  - injection H as ->. reflexivity.
  - apply (IH j H).
Qed.

Lemma newSprite_tileOk (c r : Z) (t : type) :
  In t types -> tcode t <> 0 -> tileOk (newSprite c r t).
Proof.
  unfold types. cbn [In]. intros Hin Hcode.
  repeat (destruct Hin as [<-|Hin];
          [first [exfalso; apply Hcode; reflexivity
                 | unfold tileOk; cbn; lia]|]).
  contradiction.
Qed.

Lemma tileOk_sameKind (s s' : sprite) :
  sameKind s s' -> animId s' = animId s -> tileOk s -> tileOk s'.
Proof.
  unfold tileOk, sameKind. intros (_ & Hg & _ & _ & _ & _ & _ & Hm) Hid.
  rewrite Hid, Hg, Hm. auto.
Qed.

Lemma animateSprite_tileOk (s : sprite) : tileOk s -> tileOk (animateSprite s).
Proof.
  unfold tileOk, animateSprite. intros (Hg & Ha & Hm).
  destruct (animated s); [|auto].
  cbn [set_animId animId animIdMax animCycle set_animCycle set_animated
       animated gid].
  destruct (Z.leb_spec (animIdMax s) (animId s + 1));
    [destruct (Z.ltb_spec 0 (animCycle s));
     [destruct (Z.eqb_spec (animCycle s - 1) 0)|]|];
    cbn; lia.
Qed.

(** X22.  In every state that the page reaches, [render] paints the
    background and then draws exactly one tile per sprite, in the order of
    the array, 16 by 16 pixels at 16 times the column and row of the
    sprite.  The tile is read from image 1 at a position inside eight
    columns and twelve rows of tiles, never at a negative one, and this
    position determines the tile number gid + animId of the sprite. *)
Theorem render_tiles (w : world) :
  reachable w ->
  length (render w) = S (length (sprites w))
  /\ render w !! 0%nat = Some (FillRect "black" 0 0 640 352)
  /\ forall j s, sprites w !! j = Some s ->
       exists sx sy,
         render w !! S j
         = Some (DrawImage 1 sx sy 16 16 (16 * col s) (16 * row s) 16 16)
         /\ 0 <= sx < 8 * 16 /\ 0 <= sy < 12 * 16
         /\ sx mod 16 = 0 /\ sy mod 16 = 0
         /\ (sy / 16) * 8 + sx / 16 + 1 = gid s + animId s.
Proof.
  intros Hreach.
  pose proof (reachable_sprites_inv tileOk newSprite_tileOk tileOk_sameKind
                animateSprite_tileOk w Hreach) as Hinv.
  unfold render. cbn [length]. rewrite length_map.
  split; [reflexivity|]. split; [reflexivity|].
  intros j s Hs. rewrite Forall_lookup in Hinv.
  destruct (Hinv j s Hs) as (Hg & Ha & Hm).
  exists (Z.rem (gid s + animId s - 1) 8 * 16),
         ((gid s + animId s - 1) / 8 * 16).
  assert (Hq : 0 <= gid s + animId s - 1 < 96) by lia.
  pose proof (Z.rem_bound_pos (gid s + animId s - 1) 8 ltac:(lia) ltac:(lia))
    as Hrem.
  pose proof (Z.rem_mod_nonneg (gid s + animId s - 1) 8 ltac:(lia) ltac:(lia))
    as Hrm.
  pose proof (Z.div_mod (gid s + animId s - 1) 8 ltac:(lia)) as Hdm.
  assert (Hdiv : 0 <= (gid s + animId s - 1) / 8 < 12).
  { split; [apply Z.div_pos; lia | apply Z.div_lt_upper_bound; lia]. }
  split.
  - change ((?x :: ?l) !! S j) with (l !! j).
    rewrite (lookup_map _ _ j s Hs). unfold drawTile, tilewidth, tileheight,
      caveXOffset, caveYOffset. do 2 f_equal; lia.
  - rewrite !Z.mod_mul, !Z.div_mul by lia. lia.
Qed.

(** Cave 1 at the first difficulty, right after the entry point: the
    frame has one call more than there are sprites. *)
Lemma render_tiles_witness :
  exists w,
    bootFrom rawCaveDatas 1 1 initialWorld = Some w
    /\ length (render w) = S (length (sprites w)).
Proof.
  destruct (caveLoad_builtin 1 1 ltac:(lia) ltac:(lia)) as (w1 & Hload).
  rewrite caveLoad_unfold in Hload.
  pose proof (bootFrom_loaded _ _ _ _ _ Hload) as Hboot.
  exists (setRunning (expandCave w1) true).
  split; [exact Hboot|].
  apply render_tiles. exact (reach_boot _ _ _ _ Hboot).
Defined.

End Tick.

(** ** The walls of the cave *)

Section Enclosure.

Lemma dxdy_bound (d : jsval) :
  - 1 <= (getDXDYFromDirection d).1 <= 1
  /\ - 1 <= (getDXDYFromDirection d).2 <= 1.
Proof. unfold getDXDYFromDirection. repeat case_match; cbn; lia. Qed.

Lemma isWall_sameKind (s s' : sprite) : sameKind s s' -> isWall s' = isWall s.
Proof. intros (Hn & _). unfold isWall. rewrite Hn. reflexivity. Qed.

Lemma isWall_named (s : sprite) (n : string) :
  name s = n -> oneOf n ["steel"; "outbox"]%string = false -> isWall s = false.
Proof. intros <- H. exact H. Qed.

Lemma fallable_not_wall (s : sprite) :
  flagsOk s -> fallable s = true -> isWall s = false.
Proof.
  intros (Hf & _) H. rewrite Hf in H. clear -H.
  unfold isWall, oneOf in *. cbn [existsb] in *.
  destruct (String.eqb_spec (name s) "boulder") as [->|_]; [reflexivity|].
  destruct (String.eqb_spec (name s) "diamond") as [->|_]; [reflexivity|].
  discriminate H.
Qed.

Lemma not_border_interior (r c : Z) :
  0 <= r < rows -> 0 <= c < cols -> isBorder r c = false ->
  1 <= c <= cols - 2 /\ 1 <= r <= rows - 2.
Proof.
  unfold isBorder, rows, cols. intros Hr Hc Hb.
  destruct (Z.eqb_spec r 0); [discriminate Hb|].
  destruct (Z.eqb_spec r (22 - 1)); [discriminate Hb|].
  destruct (Z.eqb_spec c 0); [discriminate Hb|].
  destruct (Z.eqb_spec c (40 - 1)); [discriminate Hb|].
  lia.
Qed.

(** In an enclosed cave a sprite that is not a wall is off the border. *)
Lemma enclosed_interior (ss : list sprite) (i : nat) (s : sprite) :
  exclusive ss -> enclosed ss -> ss !! i = Some s -> isWall s = false ->
  1 <= col s <= cols - 2 /\ 1 <= row s <= rows - 2.
Proof.
  intros Hex [Hwin Hwalls] Hs Hw.
  rewrite Forall_lookup in Hwin. destruct (Hwin i s Hs) as [Hc Hr].
  destruct (isBorder (row s) (col s)) eqn:Hb;
    [|apply not_border_interior; assumption].
  destruct (Hwalls (row s) (col s) Hr Hc Hb) as (s0 & Hin & Hc0 & Hr0 & Hw0).
  apply list_elem_of_In, list_elem_of_lookup in Hin. destruct Hin as [j Hj].
  assert (Hij : i = j).
  { apply (NoDup_lookup (coord <$> ss) i j (coord s) Hex).
    - rewrite list_lookup_fmap, Hs. reflexivity.
    - rewrite list_lookup_fmap, Hj. cbn. unfold getSpriteCoord.
      rewrite Hc0, Hr0. reflexivity. }
  subst j. rewrite Hs in Hj. injection Hj as <-. congruence.
Qed.

(** Moving one sprite that is not a wall by one cell at most keeps the
    cave enclosed. *)
Lemma moved_enclosed (i : nat) (ss ss' : list sprite) :
  exclusive ss -> enclosed ss ->
  length ss' = length ss ->
  (forall j, j <> i -> ss' !! j = ss !! j) ->
  (forall s s', ss !! i = Some s -> ss' !! i = Some s' ->
     isWall s = false
     /\ - 1 <= col s' - col s <= 1 /\ - 1 <= row s' - row s <= 1) ->
  enclosed ss'.
Proof.
  intros Hex Henc Hlen Hne Hi. split.
  - apply Forall_lookup. intros j s' Hs'.
    destruct (Nat.eq_dec j i) as [->|Hj].
    + destruct (ss !! i) as [s|] eqn:Hs.
      * destruct (Hi s s' eq_refl Hs') as (Hw & Hdc & Hdr).
        pose proof (enclosed_interior ss i s Hex Henc Hs Hw) as Hint.
        unfold inWindow, rows, cols in *. lia.
      * apply lookup_lt_Some in Hs'. rewrite Hlen in Hs'.
        apply lookup_lt_is_Some in Hs'. rewrite Hs in Hs'.
        destruct Hs' as [x Hx]. discriminate Hx.
    + rewrite (Hne j Hj) in Hs'. destruct Henc as [Hwin _].
      rewrite Forall_lookup in Hwin. exact (Hwin j s' Hs').
  - intros r c Hr Hc Hb. destruct Henc as [_ Hwalls].
    destruct (Hwalls r c Hr Hc Hb) as (s0 & Hin & Hc0 & Hr0 & Hw0).
    exists s0. split; [|auto].
    apply list_elem_of_In, list_elem_of_lookup in Hin. destruct Hin as [j Hj].
    apply list_elem_of_In, list_elem_of_lookup. exists j.
    rewrite Hne; [exact Hj|]. intros ->.
    assert (Hlt : is_Some (ss' !! i)).
    { apply lookup_lt_is_Some. rewrite Hlen. apply (lookup_lt_Some _ _ _ Hj). }
    destruct Hlt as [s' Hs'].
    destruct (Hi s0 s' Hj Hs') as (Hw & _). congruence.
Qed.

Lemma alter_enclosed (f : sprite -> sprite) (i : nat) (ss : list sprite) :
  exclusive ss -> enclosed ss ->
  (forall s, ss !! i = Some s ->
     isWall s = false
     /\ - 1 <= col (f s) - col s <= 1 /\ - 1 <= row (f s) - row s <= 1) ->
  enclosed (alter f i ss).
Proof.
  intros Hex Henc Hf. apply (moved_enclosed i ss); try assumption.
  - apply length_alter.
  - intros j Hj. apply list_lookup_alter_ne. congruence.
  - intros s s' Hs Hs'. rewrite list_lookup_alter_eq, Hs in Hs'.
    injection Hs' as <-. apply Hf, Hs.
Qed.

Lemma In_delete_other {A : Type} (l : list A) (i : nat) (x y : A) :
  l !! i = Some x -> In y l -> y <> x -> In y (delete i l).
Proof.
  intros Hx Hin Hne.
  apply list_elem_of_In, list_elem_of_lookup in Hin. destruct Hin as [j Hj].
  apply list_elem_of_In, list_elem_of_lookup.
  destruct (lt_eq_lt_dec j i) as [[Hlt| ->]|Hgt].
  - exists j. rewrite list_lookup_delete_lt by exact Hlt. exact Hj.
  - congruence.
  - exists (pred j). rewrite list_lookup_delete_ge by lia.
    replace (S (pred j)) with j by lia. exact Hj.
Qed.

(** Taking out a sprite that is not a wall keeps the cave enclosed. *)
Lemma delete_enclosed (i : nat) (ss : list sprite) (x : sprite) :
  ss !! i = Some x -> isWall x = false -> enclosed ss -> enclosed (delete i ss).
Proof.
  intros Hx Hw [Hwin Hwalls]. split; [apply Forall_delete, Hwin|].
  intros r c Hr Hc Hb.
  destruct (Hwalls r c Hr Hc Hb) as (s0 & Hin & Hc0 & Hr0 & Hw0).
  exists s0. split; [|auto].
  apply (In_delete_other ss i x s0 Hx Hin). congruence.
Qed.

Lemma updatePlayer_enclosed (w w1 : world) :
  exclusive (sprites w) -> enclosed (sprites w) ->
  updatePlayer w = Normal w1 -> enclosed (sprites w1).
Proof.
  intros Hex Henc. unfold updatePlayer.
  change (typeNamed "rockford") with (Some rockfordType).
  destruct (findNamed "inbox" (sprites w)) as [[i inbox]|] eqn:Hin.
  - destruct (animCycle inbox =? 0); intros H; injection H as <-;
      [|exact Henc].
    cbn [sprites setSprites logTo appendSprites].
    apply list_find_Some in Hin. destruct Hin as (Hi & Hname & _).
    apply (delete_enclosed i _ inbox).
    + rewrite lookup_app_l; [exact Hi | apply (lookup_lt_Some _ _ _ Hi)].
    + apply (isWall_named _ _ Hname). reflexivity.
    + destruct Henc as [Hwin Hwalls]. split.
      * apply Forall_app. split; [exact Hwin|].
        constructor; [|constructor].
        rewrite Forall_lookup in Hwin. pose proof (Hwin i inbox Hi) as Hw.
        unfold inWindow in *.
        destruct (newSprite_flags (col inbox) (row inbox) rockfordType)
          as (_ & _ & -> & ->). exact Hw.
      * intros r c Hr Hc Hb.
        destruct (Hwalls r c Hr Hc Hb) as (s0 & Hin0 & Hrest).
        exists s0. split; [|exact Hrest]. apply in_app_iff. left. exact Hin0.
  - destruct (negb _); [|intros H; injection H as <-; exact Henc].
    destruct (findNamed "rockford" (sprites w)) as [[k rf]|] eqn:Hrf;
      [|discriminate].
    apply list_find_Some in Hrf. destruct Hrf as (Hk & Hname & _).
    pose proof (dxdy_bound (JNum (getDirectionFromJoypad w))) as Hd.
    destruct (getDXDYFromDirection _) as [dx dy]. cbn [fst snd] in Hd.
    assert (Hmove : enclosed (alter (moveBy dx dy) k (sprites w))).
    { apply alter_enclosed; try assumption. intros s Hs.
      rewrite Hk in Hs. injection Hs as <-.
      split; [apply (isWall_named _ _ Hname); reflexivity|].
      unfold moveBy. cbn. lia. }
    destruct (getSpriteAt _ _ _) as [[t target]|] eqn:Hat;
      [destruct (String.eqb (name target) "dirt"
                 || String.eqb (name target) "diamond") eqn:Hn|];
      intros H; injection H as <-; cbn [sprites setSprites];
      [|exact Henc|exact Hmove].
    apply getSpriteAt_Some in Hat. destruct Hat as [Ht _].
    assert (Htw : isWall target = false).
    { apply name_test in Hn. destruct Hn as [Hn|Hn];
        apply (isWall_named _ _ Hn); reflexivity. }
    destruct (Nat.eq_dec k t) as [->|Hkt].
    + apply (delete_enclosed t _ (moveBy dx dy target)); [| |exact Hmove].
      * rewrite list_lookup_alter_eq, Ht. reflexivity.
      * rewrite (isWall_sameKind target); [exact Htw|apply moveBy_sameKind].
    + apply (delete_enclosed t _ target); [|exact Htw|exact Hmove].
      rewrite list_lookup_alter_ne by exact Hkt. exact Ht.
Qed.

Lemma fold_fall_enclosed (l : list nat) (w : world) :
  exclusive (sprites w) -> enclosed (sprites w) ->
  (forall i s, In i l -> sprites w !! i = Some s -> isWall s = false) ->
  enclosed (sprites (fold_left (fun w i => fallSprite i w) l w)).
Proof.
  revert w. induction l as [|i l IH]; intros w Hex Henc Hl; [exact Henc|].
  cbn [fold_left].
  destruct (fallSprite_step i w) as (Hlen & Hne & Heq).
  apply IH.
  - apply fallSprite_exclusive, Hex.
  - apply (moved_enclosed i (sprites w)); try assumption.
    intros s s' Hs Hs'.
    destruct (Heq s Hs) as (s2 & Hs2 & (_ & _ & _ & _ & Hpos)).
    rewrite Hs' in Hs2. injection Hs2 as <-.
    split; [apply (Hl i s); [left; reflexivity | exact Hs]|]. lia.
  - intros j s' Hj Hs'.
    destruct (Nat.eq_dec j i) as [->|Hji].
    + destruct (sprites w !! i) as [s|] eqn:Hs.
      * destruct (Heq s eq_refl) as (s2 & Hs2 & (Hk & _)).
        rewrite Hs' in Hs2. injection Hs2 as <-.
        rewrite (isWall_sameKind s s' Hk).
        apply (Hl i s); [left; reflexivity | exact Hs].
      * apply lookup_lt_Some in Hs'. rewrite Hlen in Hs'.
        apply lookup_lt_is_Some in Hs'. rewrite Hs in Hs'.
        destruct Hs' as [x Hx]. discriminate Hx.
    + rewrite (Hne j Hji) in Hs'. apply (Hl j s'); [right; exact Hj | exact Hs'].
Qed.

Lemma tickRest_enclosed (w : world) :
  sealed (sprites w) -> enclosed (sprites (tickRest w)).
Proof.
  intros (Hex & Hfl & Hwin & Hwalls).
  assert (Hperm : sprites w ≡ₚ sprites (orderSprites w)).
  { unfold orderSprites. cbn [sprites setSprites].
    symmetry. apply sortSprites_perm. }
  assert (Ho : enclosed (sprites (orderSprites w))).
  { split; [eapply Permutation_Forall; [exact Hperm | exact Hwin]|].
    intros r c Hr Hc Hb.
    destruct (Hwalls r c Hr Hc Hb) as (s0 & Hin0 & Hrest).
    exists s0. split; [|exact Hrest].
    eapply Permutation_in; [exact Hperm | exact Hin0]. }
  assert (Hfo : Forall flagsOk (sprites (orderSprites w)))
    by (eapply Permutation_Forall; [exact Hperm | exact Hfl]).
  assert (Hf : enclosed (sprites (updateFalling (orderSprites w)))).
  { apply fold_fall_enclosed; [apply orderSprites_exclusive, Hex | exact Ho|].
    intros i s Hi Hs. apply fallables_spec in Hi.
    destruct Hi as (s0 & Hs0 & Hfall). rewrite Hs in Hs0.
    injection Hs0 as <-. apply fallable_not_wall; [|exact Hfall].
    rewrite Forall_lookup in Hfo. exact (Hfo i s Hs). }
  destruct Hf as [Hwin' Hwalls'].
  unfold tickRest, updateAnimated. cbn [sprites setSprites]. split.
  - apply List.Forall_map. eapply Forall_impl; [exact Hwin'|].
    intros s Hs. unfold inWindow in *.
    pose proof (animateSprite_coord s) as Hco. unfold getSpriteCoord in Hco.
    injection Hco as -> ->. exact Hs.
  - intros r c Hr Hc Hb.
    destruct (Hwalls' r c Hr Hc Hb) as (s0 & Hin0 & Hc0 & Hr0 & Hw0).
    exists (animateSprite s0). split; [apply in_map, Hin0|].
    pose proof (animateSprite_coord s0) as Hco. unfold getSpriteCoord in Hco.
    injection Hco as -> ->.
    rewrite (isWall_sameKind s0 _ (animateSprite_sameKind s0)). auto.
Qed.

Lemma flagsOk_new (c r : Z) (t : type) :
  In t types -> tcode t <> 0 -> flagsOk (newSprite c r t).
Proof. intros _ _. apply newSprite_flagsOk. Qed.

Lemma flagsOk_keep (s s' : sprite) :
  sameKind s s' -> animId s' = animId s -> flagsOk s -> flagsOk s'.
Proof. intros Hk _. apply flagsOk_sameKind, Hk. Qed.

Lemma flagsOk_anim (s : sprite) : flagsOk s -> flagsOk (animateSprite s).
Proof. apply flagsOk_sameKind, animateSprite_sameKind. Qed.

Lemma update_sealed (w w' : world) :
  sealed (sprites w) -> update w = Normal w' -> sealed (sprites w').
Proof.
  intros (Hex & Hfl & Henc) Hup.
  split; [|split].
  - pose proof (update_exclusive w Hex) as H. rewrite Hup in H. exact H.
  - exact (update_sprites_inv flagsOk flagsOk_new flagsOk_keep flagsOk_anim
             w w' Hfl Hup).
  - rewrite update_unfold in Hup.
    destruct (updatePlayer w) as [w1|w1] eqn:Hp; [|discriminate Hup].
    cbn [bind] in Hup. injection Hup as <-.
    apply tickRest_enclosed. split; [|split].
    + pose proof (updatePlayer_exclusive w Hex) as H. rewrite Hp in H. exact H.
    + exact (updatePlayer_sprites_inv flagsOk flagsOk_new flagsOk_keep
               w w1 Hfl Hp).
    + exact (updatePlayer_enclosed w w1 Hex Henc Hp).
Qed.

Lemma cellsWhere_range (p : Z -> Z -> bool) (r c : Z) :
  In (r, c) (cellsWhere p) -> 0 <= r < rows /\ 0 <= c < cols.
Proof.
  unfold cellsWhere. intros H. apply in_flat_map in H.
  destruct H as (y & Hy & H). apply in_flat_map in H.
  destruct H as (x & Hx & H). apply in_seq in Hy, Hx.
  destruct (p _ _); [|destruct H].
  destruct H as [H|[]]. injection H as <- <-. unfold rows, cols in *. lia.
Qed.

Lemma expandCave_flat (w : world) :
  cave (expandCave w) = cave w
  /\ sprites (expandCave w)
     = flat_map (fun '(r, c) => cellSprites (cave w) r c) allCells.
Proof.
  unfold expandCave.
  destruct (expandRows_spec (Z.to_nat rows) (setSprites w [])) as [Hs Hc].
  split; [exact Hc|]. rewrite Hs. cbn [sprites cave setSprites app].
  apply (allCells_flat (cellSprites (cave w))).
Qed.

(** The expansion of a grid with walls all around gives a sealed cave. *)
Lemma expandCave_sealed (w : world) :
  (forall r c, 0 <= r < rows -> 0 <= c < cols -> isBorder r c = true ->
     cell (cave w) r c = JNum 0x07 \/ cell (cave w) r c = JNum 0x04) ->
  sealed (sprites (expandCave w)).
Proof.
  intros Hborder. split; [apply expandCave_exclusive|]. split.
  { apply (expandCave_sprites_inv flagsOk flagsOk_new). }
  destruct (expandCave_flat w) as [_ Hs]. rewrite Hs. split.
  - apply Forall_forall. intros s Hin. apply list_elem_of_In, in_flat_map in Hin.
    destruct Hin as ([r c] & Hrc & Hin). apply cellsWhere_range in Hrc.
    unfold cellSprites in Hin. destruct (typeOfCode _) as [t|]; [|destruct Hin].
    destruct Hin as [<-|[]]. unfold inWindow.
    destruct (newSprite_flags c r t) as (_ & _ & -> & ->). tauto.
  - intros r c Hr Hc Hb.
    assert (Hin : In (r, c) allCells)
      by (apply cellsWhere_In; [exact Hr | exact Hc | reflexivity]).
    destruct (Hborder r c Hr Hc Hb) as [Hcode|Hcode].
    + exists (newSprite c r (mkType "steel" 50 0x07)).
      split; [|destruct (newSprite_flags c r (mkType "steel" 50 0x07))
                 as (_ & _ & -> & ->); repeat split].
      apply in_flat_map. exists (r, c). split; [exact Hin|].
      unfold cellSprites. rewrite Hcode. left. reflexivity.
    + exists (newSprite c r (mkType "outbox" 50 0x04)).
      split; [|destruct (newSprite_flags c r (mkType "outbox" 50 0x04))
                 as (_ & _ & -> & ->); repeat split].
      apply in_flat_map. exists (r, c). split; [exact Hin|].
      unfold cellSprites. rewrite Hcode. left. reflexivity.
Qed.

Lemma builtin_border (caveId difficultyId : Z) (w1 : world) :
  1 <= caveId <= 20 -> 1 <= difficultyId <= 5 ->
  caveLoad caveId difficultyId initialWorld = Some (Normal w1) ->
  forall r c, 0 <= r < rows -> 0 <= c < cols -> isBorder r c = true ->
    cell (cave w1) r c = JNum 0x07 \/ cell (cave w1) r c = JNum 0x04.
Proof.
  intros Hid Hdid Hload r c Hr Hc Hb.
  pose proof (borderCheck_builtin caveId difficultyId Hid Hdid) as Hchk.
  unfold borderCheck in Hchk. rewrite Hload in Hchk.
  apply andb_true_iff in Hchk. destruct Hchk as [Hall _].
  rewrite forallb_forall in Hall.
  specialize (Hall (r, c) (cellsWhere_In isBorder r c Hr Hc Hb)).
  cbv beta iota in Hall. apply orb_true_iff in Hall.
  destruct Hall as [H|H]; apply JS_eq_num in H; auto.
Qed.

Lemma boot_sealed (caveId difficultyId : Z) :
  1 <= caveId <= 20 -> 1 <= difficultyId <= 5 ->
  exists w0,
    bootFrom rawCaveDatas caveId difficultyId initialWorld = Some w0
    /\ running w0 = true /\ sealed (sprites w0).
Proof.
  intros Hid Hdid.
  destruct (caveLoad_builtin caveId difficultyId Hid Hdid) as (w1 & Hload).
  pose proof (builtin_border caveId difficultyId w1 Hid Hdid Hload) as Hb.
  rewrite caveLoad_unfold in Hload.
  exists (setRunning (expandCave w1) true).
  split; [exact (bootFrom_loaded _ _ _ _ _ Hload)|].
  split; [apply running_setRunning|].
  rewrite sprites_setRunning. apply expandCave_sealed, Hb.
Qed.

Lemma played_sealed (w0 w : world) :
  sealed (sprites w0) -> playedFrom w0 w -> sealed (sprites w).
Proof.
  intros H0. induction 1 as [|w j _ IH|w w' _ IH Hup|w w' _ IH Hup].
  - exact H0.
  - exact IH.
  - exact (update_sealed w w' IH Hup).
  - rewrite (update_thrown w w' Hup). exact IH.
Qed.

(** X23.  Walls hold.  From a state in which no two sprites share a cell,
    the flags are those of the names, every sprite is in the 40 x 22 window
    and every border cell holds a steel wall or the out-box, key events and
    ticks lead only to such states: no sprite ever leaves the window, and
    every border cell keeps its wall. *)
Theorem walls_hold (w0 w : world) :
  sealed (sprites w0) -> playedFrom w0 w ->
  sealed (sprites w)
  /\ Forall inWindow (sprites w)
  /\ forall r c, 0 <= r < rows -> 0 <= c < cols -> isBorder r c = true ->
       exists i s, getSpriteAt c r (sprites w) = Some (i, s)
                   /\ isWall s = true.
Proof.
  intros H0 Hplay.
  pose proof (played_sealed w0 w H0 Hplay) as Hs.
  split; [exact Hs|]. destruct Hs as (Hex & _ & Hwin & Hwalls).
  split; [exact Hwin|]. intros r c Hr Hc Hb.
  destruct (Hwalls r c Hr Hc Hb) as (s0 & Hin & Hc0 & Hr0 & Hw0).
  apply list_elem_of_In, list_elem_of_lookup in Hin. destruct Hin as [j Hj].
  destruct (getSpriteAt c r (sprites w)) as [[i s]|] eqn:Hat.
  - exists i, s. split; [reflexivity|].
    apply getSpriteAt_Some in Hat. destruct Hat as [Hi Hco].
    assert (Hij : i = j).
    { apply (NoDup_lookup (coord <$> sprites w) i j (c, r) Hex).
      - rewrite list_lookup_fmap, Hi. cbn. rewrite Hco. reflexivity.
      - rewrite list_lookup_fmap, Hj. cbn. unfold getSpriteCoord.
        rewrite Hc0, Hr0. reflexivity. }
    subst j. rewrite Hi in Hj. injection Hj as <-. exact Hw0.
  - exfalso. apply getSpriteAt_None in Hat. apply Hat.
    apply list_elem_of_lookup. exists j.
    rewrite list_lookup_fmap, Hj. cbn. unfold getSpriteCoord.
    rewrite Hc0, Hr0. reflexivity.
Qed.

(** Cave 1 at the first difficulty, after the entry point and a key. *)
Lemma walls_hold_witness :
  exists w0,
    bootFrom rawCaveDatas 1 1 initialWorld = Some w0
    /\ Forall inWindow (sprites (setJoypad w0 JOYPAD_LEFT)).
Proof.
  destruct (boot_sealed 1 1 ltac:(lia) ltac:(lia)) as (w0 & Hboot & _ & Hs).
  exists w0. split; [exact Hboot|].
  apply (walls_hold w0 (setJoypad w0 JOYPAD_LEFT) Hs).
  apply played_key, played_start.
Defined.

(** X24.  Every built-in cave, at every difficulty, boots into a running
    state in which no two sprites share a cell, every sprite is in the
    window and every border cell holds a steel wall or the out-box; and
    every state that a game reaches from there is of that kind. *)
Theorem builtin_caves_sealed (caveId difficultyId : Z) :
  1 <= caveId <= 20 -> 1 <= difficultyId <= 5 ->
  exists w0,
    bootFrom rawCaveDatas caveId difficultyId initialWorld = Some w0
    /\ running w0 = true
    /\ forall w, playedFrom w0 w -> sealed (sprites w).
Proof.
  intros Hid Hdid.
  destruct (boot_sealed caveId difficultyId Hid Hdid) as (w0 & Hboot & Hrun & Hs).
  exists w0. split; [exact Hboot|]. split; [exact Hrun|].
  intros w. apply played_sealed, Hs.
Qed.

Lemma builtin_caves_sealed_witness :
  exists w0,
    bootFrom rawCaveDatas 20 5 initialWorld = Some w0
    /\ running w0 = true
    /\ forall w, playedFrom w0 w -> sealed (sprites w).
Proof. apply builtin_caves_sealed; lia. Defined.

End Enclosure.
